(** * ts-path-alias-fix: the import rewriting engine, embedded and verified

  The development follows the sources [src/import-fix.ts],
  [src/export-check.ts] and [src/index.ts].

  - [JS]     the string and array primitives of the language runtime
             that the sources call;
  - [Path]   the POSIX flavour of [node:path]
             ([parse], [format], [resolve], [relative], [dirname]),
             written loop for loop after Node's [lib/path.js];
  - [Regex]  the matcher of [IMPORT_PATTERN] and the global
             [String.prototype.replace] driven by a callback;
  - [Fix]    [import-fix.ts], [export-check.ts] and [index.ts].

  A string is a sequence of code units; the development covers code
  units below 256 and represents them as [ascii].  String literals are
  read as lists of characters through a coercion. *)

From Stdlib Require Import Ascii String ZArith Lia.
From stdpp Require Import base list strings gmap sorting.

Open Scope string_scope.
Open Scope list_scope.
Open Scope Z_scope.

Coercion list_ascii_of_string : string >-> list.

Abbreviation str := (list ascii).

(** The double-quote and single-quote characters. *)
Definition DQUOTE : ascii := ascii_of_nat 34.
Definition SQUOTE : ascii := ascii_of_nat 39.

(* ===================================================================== *)
(** * Runtime primitives                                                   *)
(* ===================================================================== *)

Module JS.

(** [s.startsWith(p)] *)
Fixpoint startsWith (s p : str) {struct p} : bool :=
  match p, s with
  | [], _ => true
  | c :: p', d :: s' => bool_decide (c = d) && startsWith s' p'
  | _ :: _, [] => false
  end.

(** [s.endsWith(p)] *)
Definition endsWith (s p : str) : bool :=
  startsWith (reverse s) (reverse p).

(** [s.includes(sub)] *)
Fixpoint includes (s sub : str) : bool :=
  startsWith s sub ||
  match s with
  | [] => false
  | _ :: s' => includes s' sub
  end.

(** [s.indexOf(sub)], [None] standing for [-1]. *)
Fixpoint indexOf (s sub : str) : option nat :=
  if startsWith s sub then Some 0%nat
  else match s with
       | [] => None
       | _ :: s' => S <$> indexOf s' sub
       end.

Fixpoint lastIndexOf_from (s : str) (c : ascii) (i acc : Z) : Z :=
  match s with
  | [] => acc
  | x :: s' => lastIndexOf_from s' c (i + 1) (if decide (x = c) then i else acc)
  end.

(** [s.lastIndexOf(c)] for a one-character needle; [-1] when absent. *)
Definition lastIndexOf (s : str) (c : ascii) : Z := lastIndexOf_from s c 0 (-1).

(** [s.slice(start, end)]; [None] is an omitted [end]. *)
Definition slice (s : str) (start : Z) (end_ : option Z) : str :=
  let len := Z.of_nat (length s) in
  let from := if start <? 0 then Z.max (len + start) 0 else Z.min start len in
  let to := match end_ with
            | None => len
            | Some e => if e <? 0 then Z.max (len + e) 0 else Z.min e len
            end in
  take (Z.to_nat (to - from)) (drop (Z.to_nat from) s).

(** [s.charCodeAt(i)]; [None] is [NaN], which compares unequal to
    every code. *)
Definition charCodeAt (s : str) (i : nat) : option ascii := s !! i.

(** [GetSubstitution] for a string pattern: no captures exist, so only
    [$$], [$&], [$`] and [$'] are replacement patterns; every other [$]
    is literal. *)
Fixpoint getSubstitution (matched preceding following replacement : str) : str :=
  match replacement with
  | [] => []
  | c :: r =>
      if decide (c = "$"%char) then
        match r with
        | d :: r' =>
            if decide (d = "$"%char) then
              "$"%char :: getSubstitution matched preceding following r'
            else if decide (d = "&"%char) then
              matched ++ getSubstitution matched preceding following r'
            else if decide (d = "`"%char) then
              preceding ++ getSubstitution matched preceding following r'
            else if decide (d = SQUOTE) then
              following ++ getSubstitution matched preceding following r'
            else c :: getSubstitution matched preceding following r
        | [] => [c]
        end
      else c :: getSubstitution matched preceding following r
  end.

(** [s.replace(pattern, replacement)] with both arguments strings: the
    first occurrence only. *)
Definition replace (s pattern replacement : str) : str :=
  match indexOf s pattern with
  | None => s
  | Some pos =>
      let preceding := take pos s in
      let following := drop (pos + length pattern) s in
      preceding ++ getSubstitution pattern preceding following replacement ++ following
  end.

(** [parts.join(sep)] *)
Fixpoint join (sep : str) (parts : list str) : str :=
  match parts with
  | [] => []
  | [p] => p
  | p :: rest => p ++ sep ++ join sep rest
  end.

(** [xs.includes(x)] on an array of strings. *)
Definition arrayIncludes (xs : list str) (x : str) : bool :=
  bool_decide (x ∈ xs).

(** [xs.some(p)] *)
Definition some {A} (p : A → bool) (xs : list A) : bool := existsb p xs.

(** Truthiness of a string: only the empty string is falsy. *)
Definition truthy (s : str) : bool :=
  match s with [] => false | _ => true end.

(** [a || b] on strings. *)
Definition or (a b : str) : str := if truthy a then a else b.

End JS.

(* ===================================================================== *)
(** * node:path, POSIX                                                     *)
(* ===================================================================== *)

Module Path.

Definition CHAR_FORWARD_SLASH : ascii := "/"%char.
Definition CHAR_DOT : ascii := "."%char.

Definition isPosixPathSeparator (c : ascii) : bool :=
  bool_decide (c = CHAR_FORWARD_SLASH).

(** ** normalizeString

    The loop state.  [seg] holds [path.slice(lastSlash + 1, i)], the
    characters read since the last separator, so that
    [lastSlash === i - 1] is [seg = []]. *)
Record NormState := {
  res : str;
  lastSegmentLength : Z;
  seg : str;
  dots : Z;
}.

Definition norm_init : NormState :=
  {| res := []; lastSegmentLength := 0; seg := []; dots := 0 |}.

(** The assignments [lastSlash = i; dots = 0] that end a separator
    step. *)
Definition norm_next (r : str) (l : Z) : NormState :=
  {| res := r; lastSegmentLength := l; seg := []; dots := 0 |}.

(** The tail of the [dots === 2] branch, reached when nothing could be
    removed from [res]. *)
Definition norm_above (allowAboveRoot : bool) (st : NormState) : NormState :=
  if allowAboveRoot then
    norm_next (res st ++ (if bool_decide (0 < length (res st))%nat then "/.." else ".."))
              2
  else norm_next (res st) (lastSegmentLength st).

(** The body of the loop when [code] is a separator. *)
Definition norm_sep (allowAboveRoot : bool) (st : NormState) : NormState :=
  let r := res st in
  let rlen := Z.of_nat (length r) in
  if bool_decide (seg st = []) || (dots st =? 1) then
    norm_next r (lastSegmentLength st)
  else if dots st =? 2 then
    if (rlen <? 2) || negb (lastSegmentLength st =? 2)
       || negb (bool_decide (JS.charCodeAt r (Z.to_nat (rlen - 1)) = Some CHAR_DOT))
       || negb (bool_decide (JS.charCodeAt r (Z.to_nat (rlen - 2)) = Some CHAR_DOT))
    then
      if 2 <? rlen then
        let lastSlashIndex := JS.lastIndexOf r CHAR_FORWARD_SLASH in
        if lastSlashIndex =? -1 then norm_next [] 0
        else
          let r' := JS.slice r 0 (Some lastSlashIndex) in
          norm_next r' (Z.of_nat (length r') - 1 - JS.lastIndexOf r' CHAR_FORWARD_SLASH)
      else if negb (rlen =? 0) then norm_next [] 0
      else norm_above allowAboveRoot st
    else norm_above allowAboveRoot st
  else
    norm_next (if 0 <? rlen then r ++ "/" ++ seg st else seg st)
              (Z.of_nat (length (seg st))).

(** The body of the loop when [code] is not a separator. *)
Definition norm_char (c : ascii) (st : NormState) : NormState :=
  {| res := res st;
     lastSegmentLength := lastSegmentLength st;
     seg := seg st ++ [c];
     dots := if bool_decide (c = CHAR_DOT) && negb (dots st =? -1)
             then dots st + 1 else -1 |}.

Definition norm_step (allowAboveRoot : bool) (st : NormState) (c : ascii) : NormState :=
  if isPosixPathSeparator c then norm_sep allowAboveRoot st else norm_char c st.

(** The iterations [i < path.length], then the one at
    [i === path.length]: it breaks when the last code read was a
    separator and otherwise acts on a separator. *)
Definition normalizeString (path : str) (allowAboveRoot : bool) : str :=
  let st := foldl (norm_step allowAboveRoot) norm_init path in
  match last path with
  | Some c => if isPosixPathSeparator c then res st
              else res (norm_sep allowAboveRoot st)
  | None => res (norm_sep allowAboveRoot st)
  end.

(** ** resolve

    [rargs] are the arguments from last to first; when they are
    exhausted ([i === -1]) the working directory is taken. *)
Fixpoint resolve_loop (cwd : str) (rargs : list str) (resolvedPath : str) : str * bool :=
  match rargs with
  | [] =>
      if bool_decide (cwd = []) then (resolvedPath, false)
      else (cwd ++ "/" ++ resolvedPath,
            bool_decide (JS.charCodeAt cwd 0 = Some CHAR_FORWARD_SLASH))
  | path :: rest =>
      if bool_decide (path = []) then resolve_loop cwd rest resolvedPath
      else
        let resolvedPath := path ++ "/" ++ resolvedPath in
        if bool_decide (JS.charCodeAt path 0 = Some CHAR_FORWARD_SLASH)
        then (resolvedPath, true)
        else resolve_loop cwd rest resolvedPath
  end.

Definition resolve (cwd : str) (args : list str) : str :=
  let '(resolvedPath, resolvedAbsolute) := resolve_loop cwd (reverse args) [] in
  let resolvedPath := normalizeString resolvedPath (negb resolvedAbsolute) in
  if resolvedAbsolute then "/" ++ resolvedPath
  else if bool_decide (0 < length resolvedPath)%nat then resolvedPath else ".".

(** ** relative *)

(** The comparison loop; [f] and [t] are [from] and [to] from
    [fromStart + i] and [toStart + i] on, cut to [length]
    characters. *)
Fixpoint relative_scan (f t : str) (i lastCommonSep : Z) : Z * Z :=
  match f, t with
  | fromCode :: f', toCode :: t' =>
      if bool_decide (fromCode ≠ toCode) then (i, lastCommonSep)
      else relative_scan f' t' (i + 1)
             (if bool_decide (fromCode = CHAR_FORWARD_SLASH) then i else lastCommonSep)
  | _, _ => (i, lastCommonSep)
  end.

(** The loop that emits one [..] per remaining segment of [from]; [f]
    is [from] from index [i] on, and the iteration [i === fromEnd] is
    the empty list. *)
Fixpoint relative_out (f : str) (out : str) : str :=
  let dd := if bool_decide (length out = 0%nat) then ".." else "/.." in
  match f with
  | [] => out ++ dd
  | c :: f' =>
      relative_out f' (if bool_decide (c = CHAR_FORWARD_SLASH) then out ++ dd else out)
  end.

Definition relative (cwd : str) (from to : str) : str :=
  if bool_decide (from = to) then []
  else
    let from := resolve cwd [from] in
    let to := resolve cwd [to] in
    if bool_decide (from = to) then []
    else
      let fromStart := 1 in
      let fromEnd := Z.of_nat (length from) in
      let fromLen := fromEnd - fromStart in
      let toStart := 1 in
      let toLen := Z.of_nat (length to) - toStart in
      let length_ := if fromLen <? toLen then fromLen else toLen in
      let '(i, lastCommonSep) :=
        relative_scan (take (Z.to_nat length_) (drop (Z.to_nat fromStart) from))
                      (take (Z.to_nat length_) (drop (Z.to_nat toStart) to)) 0 (-1) in
      let tail lastCommonSep :=
        let start := fromStart + lastCommonSep + 1 in
        let out := if start <=? fromEnd
                   then relative_out (drop (Z.to_nat start) from) []
                   else [] in
        out ++ JS.slice to (toStart + lastCommonSep) None in
      if i =? length_ then
        if length_ <? toLen then
          if bool_decide (JS.charCodeAt to (Z.to_nat (toStart + i)) = Some CHAR_FORWARD_SLASH)
          then JS.slice to (toStart + i + 1) None
          else if i =? 0 then JS.slice to (toStart + i) None
          else tail lastCommonSep
        else if length_ <? fromLen then
          if bool_decide (JS.charCodeAt from (Z.to_nat (fromStart + i)) = Some CHAR_FORWARD_SLASH)
          then tail i
          else if i =? 0 then tail 0
          else tail lastCommonSep
        else tail lastCommonSep
      else tail lastCommonSep.

(** ** dirname

    The loop runs from [path.length - 1] down to 1; [rpath] is the
    part of [path] not yet visited, reversed. *)
Fixpoint dirname_loop (rpath : str) (i : Z) (matchedSlash : bool) : Z :=
  match rpath with
  | [] => -1
  | c :: rest =>
      if bool_decide (c = CHAR_FORWARD_SLASH) then
        if negb matchedSlash then i
        else dirname_loop rest (i - 1) matchedSlash
      else dirname_loop rest (i - 1) false
  end.

Definition dirname (path : str) : str :=
  if bool_decide (length path = 0%nat) then "."
  else
    let hasRoot := bool_decide (JS.charCodeAt path 0 = Some CHAR_FORWARD_SLASH) in
    let end_ := dirname_loop (reverse (drop 1 path)) (Z.of_nat (length path) - 1) true in
    if end_ =? -1 then (if hasRoot then "/" else ".")
    else if hasRoot && (end_ =? 1) then "//"
    else JS.slice path 0 (Some end_).

(** ** parse and format *)

Record ParsedPath := {
  root : str;
  dir : str;
  base : str;
  ext : str;
  name : str;
}.

Record ParseState := {
  startDot : Z;
  startPart : Z;
  end_ : Z;
  matchedSlash : bool;
  preDotState : Z;
}.

(** One iteration of the loop of [parse] on a code that is not a
    separator. *)
Definition parse_char (code : ascii) (i : Z) (st : ParseState) : ParseState :=
  let st :=
    if end_ st =? -1 then
      {| startDot := startDot st; startPart := startPart st; end_ := i + 1;
         matchedSlash := false; preDotState := preDotState st |}
    else st in
  if bool_decide (code = CHAR_DOT) then
    if startDot st =? -1 then
      {| startDot := i; startPart := startPart st; end_ := end_ st;
         matchedSlash := matchedSlash st; preDotState := preDotState st |}
    else if negb (preDotState st =? 1) then
      {| startDot := startDot st; startPart := startPart st; end_ := end_ st;
         matchedSlash := matchedSlash st; preDotState := 1 |}
    else st
  else if negb (startDot st =? -1) then
    {| startDot := startDot st; startPart := startPart st; end_ := end_ st;
       matchedSlash := matchedSlash st; preDotState := -1 |}
  else st.

(** The loop of [parse], from [path.length - 1] down to [start];
    [rpath] is the part of [path] not yet visited, reversed. *)
Fixpoint parse_loop (rpath : str) (i : Z) (st : ParseState) : ParseState :=
  match rpath with
  | [] => st
  | code :: rest =>
      if bool_decide (code = CHAR_FORWARD_SLASH) then
        if negb (matchedSlash st) then
          {| startDot := startDot st; startPart := i + 1; end_ := end_ st;
             matchedSlash := matchedSlash st; preDotState := preDotState st |}
        else parse_loop rest (i - 1) st
      else parse_loop rest (i - 1) (parse_char code i st)
  end.

Definition parse (path : str) : ParsedPath :=
  if bool_decide (length path = 0%nat) then
    {| root := []; dir := []; base := []; ext := []; name := [] |}
  else
    let isAbsolute := bool_decide (JS.charCodeAt path 0 = Some CHAR_FORWARD_SLASH) in
    let root_ : str := if isAbsolute then "/" else [] in
    let start : nat := if isAbsolute then 1%nat else 0%nat in
    let st := parse_loop (reverse (drop start path)) (Z.of_nat (length path) - 1)
                {| startDot := -1; startPart := 0; end_ := -1;
                   matchedSlash := true; preDotState := 0 |} in
    let '(base_, ext_, name_) :=
      if negb (end_ st =? -1) then
        let start := if (startPart st =? 0) && isAbsolute then 1 else startPart st in
        if (startDot st =? -1) || (preDotState st =? 0)
           || ((preDotState st =? 1) && (startDot st =? end_ st - 1)
               && (startDot st =? startPart st + 1))
        then
          let b := JS.slice path start (Some (end_ st)) in (b, [], b)
        else
          (JS.slice path start (Some (end_ st)),
           JS.slice path (startDot st) (Some (end_ st)),
           JS.slice path start (Some (startDot st)))
      else ([], [], []) in
    let dir_ : str :=
      if 0 <? startPart st then JS.slice path 0 (Some (startPart st - 1))
      else if isAbsolute then "/" else [] in
    {| root := root_; dir := dir_; base := base_; ext := ext_; name := name_ |}.

Definition formatExt (ext : str) : str :=
  match ext with
  | [] => []
  | c :: _ => (if bool_decide (c = CHAR_DOT) then [] else ".") ++ ext
  end.

Definition format (pathObject : ParsedPath) : str :=
  let dir_ := JS.or (dir pathObject) (root pathObject) in
  let base_ := JS.or (base pathObject) (name pathObject ++ formatExt (ext pathObject)) in
  if negb (JS.truthy dir_) then base_
  else if bool_decide (dir_ = root pathObject) then dir_ ++ base_
  else dir_ ++ "/" ++ base_.

End Path.

(* ===================================================================== *)
(** * The import pattern                                                   *)
(* ===================================================================== *)

(** [IMPORT_PATTERN] is [/(?:import|from)\s+Q([^Q]+)Q$/gm], where [Q]
  stands for the character class of the single and the double quote.

  Every choice the backtracking matcher could revisit is forced: the
  run of white space has to end at a quote, which is no white space,
  and the captured run of non-quotes has to end at a quote.  So a
  match at a position, when there is one, is the one computed below. *)
Module Regex.

(** [\s] on code units below 256. *)
Definition isWhiteSpace (c : ascii) : bool :=
  let n := nat_of_ascii c in
  bool_decide (n ∈ [9; 10; 11; 12; 13; 32; 160]%nat).

(** The line terminators below 256, where [$] holds under the [m]
    flag. *)
Definition isLineTerminator (c : ascii) : bool :=
  let n := nat_of_ascii c in
  bool_decide (n ∈ [10; 13]%nat).

Definition isQuote (c : ascii) : bool :=
  bool_decide (c = SQUOTE) || bool_decide (c = DQUOTE).

(** The longest prefix whose characters satisfy [p], and the rest. *)
Fixpoint span (p : ascii → bool) (s : str) : str * str :=
  match s with
  | [] => ([], [])
  | c :: s' =>
      if p c then let '(a, b) := span p s' in (c :: a, b)
      else ([], s)
  end.

(** [$] with the [m] flag. *)
Definition atLineEnd (s : str) : bool :=
  match s with
  | [] => true
  | c :: _ => isLineTerminator c
  end.

Definition keyword (s : str) : option str :=
  if JS.startsWith s "import" then Some ("import" : str)
  else if JS.startsWith s "from" then Some ("from" : str)
  else None.

(** A match starting at the head of [s]: the matched text and the
    capture group. *)
Definition matchHere (s : str) : option (str * str) :=
  match keyword s with
  | None => None
  | Some kw =>
      let '(ws, s2) := span isWhiteSpace (drop (length kw) s) in
      match ws, s2 with
      | _ :: _, q :: s3 =>
          if isQuote q then
            let '(cap, s4) := span (λ c, negb (isQuote c)) s3 in
            match cap, s4 with
            | _ :: _, q2 :: s5 =>
                if atLineEnd s5 then Some (kw ++ ws ++ [q] ++ cap ++ [q2], cap)
                else None
            | _, _ => None
            end
          else None
      | _, _ => None
      end
  end.

(** What the callback of [content.replace] hands back for one match:
    the replacement text and what it pushed on the two per-file
    arrays. *)
Record Replaced := {
  replacement : str;
  importErrors : list str;
  transformedImports : list str;
}.

(** [content.replace(IMPORT_PATTERN, cb)]: matches are searched from
    left to right and do not overlap; [skip] counts the characters of
    the current match still to be passed over. *)
Fixpoint replace_go (cb : str → str → Replaced) (s : str) (skip : nat)
  : str * list str * list str :=
  match s with
  | [] => ([], [], [])
  | c :: s' =>
      match skip with
      | S k => replace_go cb s' k
      | O =>
          match matchHere s with
          | Some (m, cap) =>
              let r := cb m cap in
              let '(out, errs, logs) := replace_go cb s' (length m - 1) in
              (replacement r ++ out, importErrors r ++ errs, transformedImports r ++ logs)
          | None =>
              let '(out, errs, logs) := replace_go cb s' 0 in
              (c :: out, errs, logs)
          end
      end
  end.

Definition replace (cb : str → str → Replaced) (content : str)
  : str * list str * list str :=
  replace_go cb content 0.

End Regex.

(* ===================================================================== *)
(** * import-fix.ts, export-check.ts, index.ts                             *)
(* ===================================================================== *)

Module Fix.

Import Path.

Definition NL : str := [ascii_of_nat 10].

Inductive Result (A : Type) : Type :=
| Ok (value : A)
| Err (message : str).
Arguments Ok {A} value.
Arguments Err {A} message.

Definition isErr {A} (r : Result A) : bool :=
  match r with Ok _ => false | Err _ => true end.

(** ** The alias table

    [PathsMap = Record<string, string>]: the entries are kept in the
    order in which [Object.keys] and [Object.entries] enumerate them,
    the order of first insertion.  (Keys that are array indices would
    be enumerated first; the loader stores no such key, see
    [getPathsMap_invariant].) *)
Definition PathsMap := list (str * str).

(** [pathsMap[alias] = aliasDir] *)
Fixpoint pm_set (m : PathsMap) (alias aliasDir : str) : PathsMap :=
  match m with
  | [] => [(alias, aliasDir)]
  | (k, v) :: m' =>
      if bool_decide (k = alias) then (k, aliasDir) :: m'
      else (k, v) :: pm_set m' alias aliasDir
  end.

(** [pathsMap[alias]]; [None] is [undefined]. *)
Fixpoint pm_get (m : PathsMap) (alias : str) : option str :=
  match m with
  | [] => None
  | (k, v) :: m' => if bool_decide (k = alias) then Some v else pm_get m' alias
  end.

Definition pm_keys (m : PathsMap) : list str := m.*1.

(** [Object.entries(tsconfig.config.compilerOptions?.paths ?? {})]: each
    declared key with its array of targets. *)
Definition TsconfigPaths := list (str * list str).

(** The body of the loop of [getPathsMap] for one entry; the pattern
    [[alias, [aliasDir]]] binds the first target, if any. *)
Definition getPathsMap_step (pathsMap : PathsMap) (entry : str * list str) : PathsMap :=
  let '(alias, targets) := entry in
  if negb (JS.endsWith alias "/*") then pathsMap
  else
    match head targets with
    | None => pathsMap
    | Some aliasDir =>
        if negb (JS.endsWith aliasDir "/*") then pathsMap
        else
          let alias := JS.slice alias 0 (Some (-1)) in
          let aliasDir := JS.slice aliasDir 0 (Some (-1)) in
          pm_set pathsMap alias aliasDir
    end.

(** [tsconfig] is what [getTsconfig()] found: [None] when there is no
    configuration. *)
Definition getPathsMap (tsconfig : option TsconfigPaths) : Result PathsMap :=
  match tsconfig with
  | None => Err "failed to load tsconfig"
  | Some paths => Ok (foldl getPathsMap_step [] paths)
  end.

(** ** resolveImportPath *)

(** [keys.sort((a, b) => b.length - a.length)]: the sort is stable, so
    keys of equal length keep their order. *)
Fixpoint sort_insert (a : str) (sorted : list str) : list str :=
  match sorted with
  | [] => [a]
  | b :: rest =>
      if bool_decide (length a < length b)%nat then b :: sort_insert a rest
      else a :: sorted
  end.

Definition sortByLengthDesc (keys : list str) : list str :=
  foldr sort_insert [] keys.

Fixpoint resolveImportPath_loop (cwd importPath : str) (pathsMap : PathsMap)
         (sortedAliases : list str) : option str :=
  match sortedAliases with
  | [] => None
  | alias :: rest =>
      if negb (JS.startsWith importPath alias) then
        resolveImportPath_loop cwd importPath pathsMap rest
      else
        match pm_get pathsMap alias with
        | None => resolveImportPath_loop cwd importPath pathsMap rest
        | Some aliasDir =>
            if negb (JS.truthy aliasDir) then
              resolveImportPath_loop cwd importPath pathsMap rest
            else
              let relativePath := JS.slice importPath (Z.of_nat (length alias)) None in
              Some (resolve cwd [aliasDir; relativePath])
        end
  end.

Definition resolveImportPath (cwd importPath filePath : str) (pathsMap : PathsMap) : str :=
  let fileDir := dirname filePath in
  let sortedAliases := sortByLengthDesc (pm_keys pathsMap) in
  match resolveImportPath_loop cwd importPath pathsMap sortedAliases with
  | Some resolved => resolved
  | None => resolve cwd [fileDir; importPath]
  end.

(** ** The extension resolver *)

Definition changeExtension (importParts : ParsedPath) (newExtension : str) : ParsedPath :=
  {| root := root importParts; dir := dir importParts; base := [];
     ext := newExtension; name := name importParts |}.

Definition ALLOWED_EXTENSIONS : list str := [".ts" : str; ".tsx" : str; ".d.ts" : str].

Definition tsExtensionLookups : list str :=
  ["" : str; ".js" : str; ".jsx" : str; ".ts" : str; ".tsx" : str].

(** The [{ ext, base }] object that [getNewExtensionPathParts]
    returns. *)
Record ExtBase := { eb_ext : str; eb_base : str }.

Fixpoint getNewExtension_loop (existsSync : str → bool) (importParts : ParsedPath)
         (candidates : list str) : option ExtBase :=
  match candidates with
  | [] => None
  | allowedExtension :: rest =>
      let targetPathParts := changeExtension importParts allowedExtension in
      let targetPath := format targetPathParts in
      if existsSync targetPath
      then Some {| eb_ext := ext targetPathParts; eb_base := base targetPathParts |}
      else getNewExtension_loop existsSync importParts rest
  end.

(** [None] is the bare [return]. *)
Definition getNewExtensionPathParts (existsSync : str → bool) (importParts : ParsedPath)
  : option ExtBase :=
  if negb (JS.arrayIncludes tsExtensionLookups (ext importParts)) then
    Some {| eb_ext := ext importParts; eb_base := base importParts |}
  else if JS.arrayIncludes tsExtensionLookups (ext importParts) then
    getNewExtension_loop existsSync importParts ALLOWED_EXTENSIONS
  else None.

(** ** The alias rewriter *)

Fixpoint getAliasPathParts_loop (cwd importPath : str) (entries : PathsMap) : option str :=
  match entries with
  | [] => None
  | (alias, aliasDir) :: rest =>
      let relativeToAliasDir := relative cwd aliasDir importPath in
      if JS.startsWith relativeToAliasDir ".." then
        getAliasPathParts_loop cwd importPath rest
      else
        let aliasImportParts := parse (alias ++ relativeToAliasDir) in
        Some (dir aliasImportParts)
  end.

(** The [{ dir }] object, given by its one field. *)
Definition getAliasPathParts (cwd : str) (importParts : ParsedPath) (pathsMap : PathsMap)
  : option str :=
  getAliasPathParts_loop cwd (format importParts) pathsMap.

(** ** The rewrite orchestrator *)

Record FixImportsOptions := {
  write : bool;
  importIgnoreStrings : list str;
  skipAlias : bool;
}.

(** The colour functions of [picocolors], whose output depends on the
    terminal, and the two marks of the report, which lie outside the
    character range of the development: [crossMark] and [checkMark]
    are [pc.redBright] and [pc.greenBright] applied to the cross and
    to the check mark. *)
Record Console := {
  greenBright : str → str;
  blue : str → str;
  redBright : str → str;
  dim : str → str;
  crossMark : str;
  checkMark : str;
}.

(** The file system: the entries by absolute path.  Paths are resolved
    lexically against the working directory, as the file system does
    for the paths that the glob yields and those that [path.format]
    makes of a resolved path, which hold no dot segments. *)
Inductive Entry :=
| File (content : str)
| Directory.

Abbreviation FS := (gmap str Entry).

(** [fs.readFile(filePath, "utf8")]; [None] is a rejected promise. *)
Definition readFile (cwd : str) (fs : FS) (filePath : str) : option str :=
  match fs !! resolve cwd [filePath] with
  | Some (File content) => Some content
  | _ => None
  end.

(** [fs.writeFile(filePath, content)] *)
Definition writeFile (cwd : str) (fs : FS) (filePath content : str) : FS :=
  <[resolve cwd [filePath] := File content]> fs.

(** [fss.existsSync(path)] *)
Definition existsSync (cwd : str) (fs : FS) (path : str) : bool :=
  bool_decide (is_Some (fs !! resolve cwd [path])).

Definition extensionError (importPath : str) (resolvedImportParts : ParsedPath) : str :=
  let targetFilePath :=
    format (changeExtension resolvedImportParts [])
    ++ ".{" ++ JS.join "," (map (λ ext, JS.replace ext "." []) ALLOWED_EXTENSIONS) ++ "}" in
  "skipped extension transform of '" ++ importPath
  ++ "': target file not found (looking for '" ++ targetFilePath ++ "')".

Definition aliasError (importPath : str) : str :=
  "skipped transforming relative import path '" ++ importPath
  ++ "': could not find appropriate alias".

Definition isRelativeImport (importPath : str) : bool :=
  JS.startsWith importPath "./" || JS.startsWith importPath "../".

Definition isAliasImport (pathsMap : PathsMap) (importPath : str) : bool :=
  JS.some (λ alias, JS.startsWith importPath alias) (pm_keys pathsMap).

Definition isIgnored (importIgnoreStrings : list str) (importPath : str) : bool :=
  JS.some (λ ignoreString, JS.includes importPath ignoreString) importIgnoreStrings.

(** The extension step: [newImportParts] after it and the error pushed,
    if any. *)
Definition extensionStep (existsSync : str → bool) (importPath : str)
           (newImportParts resolvedImportParts : ParsedPath) : ParsedPath * list str :=
  match getNewExtensionPathParts existsSync resolvedImportParts with
  | Some r =>
      ({| root := root newImportParts; dir := dir newImportParts; base := eb_base r;
          ext := eb_ext r; name := name newImportParts |}, [])
  | None => (newImportParts, [extensionError importPath resolvedImportParts])
  end.

(** The alias step. *)
Definition aliasStep (cwd : str) (pathsMap : PathsMap) (skipAlias_ : bool) (importPath : str)
           (newImportParts resolvedImportParts : ParsedPath) : ParsedPath * list str :=
  if isRelativeImport importPath && negb skipAlias_ then
    match getAliasPathParts cwd resolvedImportParts pathsMap with
    | Some d =>
        ({| root := root newImportParts; dir := d; base := base newImportParts;
            ext := ext newImportParts; name := name newImportParts |}, [])
    | None => (newImportParts, [aliasError importPath])
    end
  else (newImportParts, []).

(** [newImportParts] when [path.format] is reached, with the errors
    pushed on the way. *)
Definition transformParts (existsSync : str → bool) (cwd : str) (pathsMap : PathsMap)
           (skipAlias_ : bool) (filePath importPath : str) : ParsedPath * list str :=
  let newImportParts := parse importPath in
  let resolvedImportPath := resolveImportPath cwd importPath filePath pathsMap in
  let resolvedImportParts := parse resolvedImportPath in
  let '(newImportParts, errs1) :=
    extensionStep existsSync importPath newImportParts resolvedImportParts in
  let '(newImportParts, errs2) :=
    aliasStep cwd pathsMap skipAlias_ importPath newImportParts resolvedImportParts in
  (newImportParts, errs1 ++ errs2).

(** The callback given to [content.replace]. *)
Definition replacer (pc : Console) (existsSync : str → bool) (cwd : str)
           (pathsMap : PathsMap) (options : FixImportsOptions) (filePath : str)
           (match_ importPath : str) : Regex.Replaced :=
  let untouched errs :=
    {| Regex.replacement := match_; Regex.importErrors := errs;
       Regex.transformedImports := [] |} in
  if negb (isRelativeImport importPath || isAliasImport pathsMap importPath) then untouched []
  else if isIgnored (importIgnoreStrings options) importPath then untouched []
  else
    let '(newImportParts, errs) :=
      transformParts existsSync cwd pathsMap (skipAlias options) filePath importPath in
    let newImportPath := format newImportParts in
    if bool_decide (newImportPath = importPath) then untouched errs
    else
      let originalExt := ext (parse importPath) in
      let newExt := ext newImportParts in
      let newImportPathString :=
        if bool_decide (newExt ≠ originalExt) then
          format (changeExtension newImportParts []) ++ greenBright pc newExt
        else newImportPath in
      {| Regex.replacement := JS.replace match_ importPath newImportPath;
         Regex.importErrors := errs;
         Regex.transformedImports :=
           ["'" ++ importPath ++ "' -> '" ++ newImportPathString ++ "'"] |}.

(** The state that the per-file tasks share: the files, the two global
    arrays, and whether a task has thrown. *)
Record RunState := {
  files : FS;
  IMPORT_ERRORS : list str;
  TRANSFORMED_IMPORTS : list str;
  rejected : bool;
}.

Definition transformContent (pc : Console) (cwd : str) (pathsMap : PathsMap)
           (options : FixImportsOptions) (fs : FS) (filePath content : str)
  : str * list str * list str :=
  Regex.replace (replacer pc (existsSync cwd fs) cwd pathsMap options filePath) content.

(** One per-file task, from the moment its read settles.  The reads
    of all the tasks are started before any task goes on, so a task
    reads its file as it was when the run began, in [fs].  What
    follows the read runs without interruption up to the write: the
    replacement, whose callback looks at the disk as it is by then,
    and the pushes on the two arrays. *)
Definition fixFile (pc : Console) (cwd : str) (pathsMap : PathsMap)
           (options : FixImportsOptions) (fs : FS) (st : RunState) (filePath : str)
  : RunState :=
  match readFile cwd fs filePath with
  | None =>
      {| files := files st; IMPORT_ERRORS := IMPORT_ERRORS st;
         TRANSFORMED_IMPORTS := TRANSFORMED_IMPORTS st; rejected := true |}
  | Some content =>
      let '(transformedContent, importErrorsForFile, transformedImportsForFile) :=
        transformContent pc cwd pathsMap options (files st) filePath content in
      let errors :=
        if bool_decide (0 < length importErrorsForFile)%nat then
          IMPORT_ERRORS st
          ++ [crossMark pc ++ " " ++ blue pc filePath ++ NL
              ++ JS.join NL importErrorsForFile ++ NL]
        else IMPORT_ERRORS st in
      let transformed :=
        if bool_decide (0 < length transformedImportsForFile)%nat then
          TRANSFORMED_IMPORTS st
          ++ [checkMark pc ++ " " ++ blue pc filePath ++ NL
              ++ JS.join NL transformedImportsForFile ++ NL]
        else TRANSFORMED_IMPORTS st in
      let files' :=
        if bool_decide (transformedContent = content) then files st
        else if write options then writeFile cwd (files st) filePath transformedContent
        else files st in
      {| files := files'; IMPORT_ERRORS := errors;
         TRANSFORMED_IMPORTS := transformed; rejected := rejected st |}
  end.

(** The state before any task has gone on. *)
Definition initialState (fs : FS) : RunState :=
  {| files := fs; IMPORT_ERRORS := []; TRANSFORMED_IMPORTS := []; rejected := false |}.

(** [filePaths.map(...)]: all the tasks, run to their end, from the
    empty arrays.  The tasks run concurrently: the list gives them in
    the order in which their reads settle, which is any order of the
    listed files, so that what holds of every list holds of every such
    order. *)
Definition runTasks (pc : Console) (cwd : str) (pathsMap : PathsMap)
           (options : FixImportsOptions) (fs : FS) (filePaths : list str) : RunState :=
  foldl (fixFile pc cwd pathsMap options fs) (initialState fs) filePaths.

(** [await attempt(() => Promise.all(filePromises))]: the promise
    settles when every task has finished, or as soon as a read is
    rejected.  This is the state in which [fixImports] goes on and
    reads the arrays; tasks that have not gone on by then still run to
    their end, but what they push is not read any more. *)
Fixpoint settleTasks (pc : Console) (cwd : str) (pathsMap : PathsMap)
         (options : FixImportsOptions) (fs : FS) (st : RunState) (filePaths : list str)
  : RunState :=
  match filePaths with
  | [] => st
  | filePath :: rest =>
      let st := fixFile pc cwd pathsMap options fs st filePath in
      if rejected st then st else settleTasks pc cwd pathsMap options fs st rest
  end.

(** What a run leaves behind: the result, the lines written to the
    console, and the files once every task has run to its end. *)
Record Outcome := {
  result : Result unit;
  stdout : list str;
  files_after : FS;
}.

Definition fixImports (pc : Console) (cwd : str) (tsconfig : option TsconfigPaths)
           (fs : FS) (filePaths : list str) (options : FixImportsOptions) : Outcome :=
  match getPathsMap tsconfig with
  | Err message => {| result := Err message; stdout := []; files_after := fs |}
  | Ok pathsMap =>
      let st := settleTasks pc cwd pathsMap options fs (initialState fs) filePaths in
      let out :=
        if bool_decide (0 < length (TRANSFORMED_IMPORTS st))%nat then
          [greenBright pc "[ts-path-alias-fix]" ++ " transformed imports:" ++ NL
           ++ JS.join NL (TRANSFORMED_IMPORTS st)]
        else [] in
      let res :=
        if rejected st then Err "something went wrong when transforming imports"
        else if bool_decide (0 < length (IMPORT_ERRORS st))%nat then
          Err ("failed to transform some imports:" ++ NL ++ JS.join NL (IMPORT_ERRORS st))
        else Ok tt in
      {| result := res; stdout := out;
         files_after := files (runTasks pc cwd pathsMap options fs filePaths) |}
  end.

(** ** export-check.ts

    [exportDeclarations fileName sourceCode] stands for the parser: the
    texts of the export declaration nodes that the visit of
    [ts.createSourceFile(fileName, sourceCode, ...)] collects. *)
Definition checkFile (pc : Console) (exportDeclarations : str → str → list str)
           (cwd : str) (fs : FS) (st : list str * bool) (filePath : str) : list str * bool :=
  let '(EXPORT_ERRORS, rejected_) := st in
  let filePathParts := parse filePath in
  if bool_decide (name filePathParts = "index") then st
  else
    match readFile cwd fs filePath with
    | None => (EXPORT_ERRORS, true)
    | Some sourceCode =>
        let decls := exportDeclarations (base filePathParts) sourceCode in
        if bool_decide (length decls = 0%nat) then st
        else
          let exportDeclarationText := JS.join NL decls in
          (EXPORT_ERRORS
           ++ [crossMark pc ++ " " ++ blue pc filePath ++ NL
               ++ dim pc exportDeclarationText ++ NL],
           rejected_)
    end.

(** All the tasks of the scan: [EXPORT_ERRORS] and whether a task has
    thrown.  As in [runTasks] the list gives the tasks in the order in
    which their reads settle, which is the order of the entries. *)
Definition scanTasks (pc : Console) (exportDeclarations : str → str → list str)
           (cwd : str) (fs : FS) (filePaths : list str) : list str * bool :=
  foldl (checkFile pc exportDeclarations cwd fs) ([], false) filePaths.

Definition checkExports (pc : Console) (exportDeclarations : str → str → list str)
           (cwd : str) (fs : FS) (filePaths : list str) : Result unit :=
  let '(EXPORT_ERRORS, rejected_) :=
    scanTasks pc exportDeclarations cwd fs filePaths in
  if rejected_ then Err "something went wrong when checking exports"
  else if bool_decide (0 < length EXPORT_ERRORS)%nat then
    Err ("found export declarations:" ++ NL ++ JS.join NL EXPORT_ERRORS)
  else Ok tt.

(** ** index.ts

    [filePaths] is the outcome of the glob and [options] that of the
    command line.  The list gives the order in which the reads
    settle, taken to be the same in the two passes. *)
Definition errorsOf (r : Result unit) : list str :=
  match r with Ok _ => [] | Err message => [message] end.

Definition tsImportFix (pc : Console) (exportDeclarations : str → str → list str)
           (cwd : str) (tsconfig : option TsconfigPaths) (fs : FS)
           (filePaths : list str) (options : FixImportsOptions) : list str * Outcome :=
  let fixImportsResult := fixImports pc cwd tsconfig fs filePaths options in
  let checkExportsResult :=
    checkExports pc exportDeclarations cwd (files_after fixImportsResult) filePaths in
  (errorsOf (result fixImportsResult) ++ errorsOf checkExportsResult, fixImportsResult).

(** The exit code. *)
Definition main (pc : Console) (exportDeclarations : str → str → list str)
           (cwd : str) (tsconfig : option TsconfigPaths) (fs : FS)
           (filePaths : list str) (options : FixImportsOptions) : Z :=
  let '(errors, _) := tsImportFix pc exportDeclarations cwd tsconfig fs filePaths options in
  if bool_decide (length errors = 0%nat) then 0 else 1.

(** The patterns that the glob is told to exclude: the base patterns,
    and the file ignore patterns of the command line, each given
    relative to the working directory. *)
Definition BASE_IGNORE_PATTERNS : list str :=
  [".git/" : str; "node_modules/" : str; "dist/" : str].

Definition allFileIgnorePatterns (cwd : str) (fileIgnorePatterns : list str) : list str :=
  let resolvedFileIgnorePatterns :=
    map (λ pattern, relative cwd cwd pattern) fileIgnorePatterns in
  BASE_IGNORE_PATTERNS ++ resolvedFileIgnorePatterns.

End Fix.

(* ===================================================================== *)
(** * Specification-level definitions                                      *)
(* ===================================================================== *)

Module Spec.

Import Path Fix.

(** The Import Path Resolver as the specification words it: the first
    key, in the order of descending length, that is a prefix of the
    specifier decides; its target directory is joined with the
    remainder.  Without such a key the specifier is resolved against
    the directory of the containing file. *)
Definition resolveImportPath (cwd importPath filePath : str) (pathsMap : PathsMap) : str :=
  match List.find (λ alias, JS.startsWith importPath alias)
                  (sortByLengthDesc (pm_keys pathsMap)) with
  | Some alias =>
      resolve cwd [default [] (pm_get pathsMap alias); drop (length alias) importPath]
  | None => resolve cwd [dirname filePath; importPath]
  end.

(** The order of descending length. *)
Definition longerFirst (a b : str) : Prop := (length b ≤ length a)%nat.

(** The path that the Extension Resolver probes for a candidate
    extension. *)
Definition probe (importParts : ParsedPath) (e : str) : str :=
  format (changeExtension importParts e).

(** The state of the scan holds a diagnostic: an export error was
    collected or a task has thrown. *)
Definition scanDirty (st : list str * bool) : Prop := st.1 ≠ [] ∨ st.2 = true.



(** Two file trees with the same entries, whatever the contents. *)
Definition sameEntries (fs1 fs2 : FS) : Prop :=
  ∀ p, is_Some (fs1 !! p) ↔ is_Some (fs2 !! p).




(** The alias table that a configuration yields. *)
Definition loaded (paths : TsconfigPaths) : PathsMap :=
  foldl getPathsMap_step [] paths.


(** *** The parts of [relative]

    The end of [relative]: the loop that builds [out], and the rest of
    [to] after the common part. *)
Definition relative_tail (from to : str) (lastCommonSep : Z) : str :=
  let fromStart := 1 in
  let fromEnd := Z.of_nat (length from) in
  let toStart := 1 in
  let start := fromStart + lastCommonSep + 1 in
  let out := if start <=? fromEnd
             then relative_out (drop (Z.to_nat start) from) []
             else [] in
  out ++ JS.slice to (toStart + lastCommonSep) None.

(** [relative] once [from] and [to] are resolved and differ. *)
Definition relative_resolved (from to : str) : str :=
  let fromStart := 1 in
  let fromEnd := Z.of_nat (length from) in
  let fromLen := fromEnd - fromStart in
  let toStart := 1 in
  let toLen := Z.of_nat (length to) - toStart in
  let length_ := if fromLen <? toLen then fromLen else toLen in
  let '(i, lastCommonSep) :=
    relative_scan (take (Z.to_nat length_) (drop (Z.to_nat fromStart) from))
                  (take (Z.to_nat length_) (drop (Z.to_nat toStart) to)) 0 (-1) in
  if i =? length_ then
    if length_ <? toLen then
      if bool_decide (JS.charCodeAt to (Z.to_nat (toStart + i)) = Some CHAR_FORWARD_SLASH)
      then JS.slice to (toStart + i + 1) None
      else if i =? 0 then JS.slice to (toStart + i) None
      else relative_tail from to lastCommonSep
    else if length_ <? fromLen then
      if bool_decide (JS.charCodeAt from (Z.to_nat (fromStart + i)) = Some CHAR_FORWARD_SLASH)
      then relative_tail from to i
      else if i =? 0 then relative_tail from to 0
      else relative_tail from to lastCommonSep
    else relative_tail from to lastCommonSep
  else relative_tail from to lastCommonSep.

(** *** Paths as lists of segments

    The specification-level reading of [normalizeString]: the path is
    cut at the separators, and each segment acts on the list of segments
    kept so far. *)

Definition slashFree (b : str) : Prop := CHAR_FORWARD_SLASH ∉ b.

(** A segment that normalisation keeps: not empty, without separator,
    and neither [.] nor [..]. *)
Definition cleanSegment (b : str) : Prop :=
  b ≠ [] ∧ slashFree b ∧ b ≠ "." ∧ b ≠ "..".

#[global] Instance cleanSegment_dec (b : str) : Decision (cleanSegment b).
Proof. unfold cleanSegment, slashFree. apply _. Defined.

(** The absolute path with the given segments. *)
Definition absPath (segs : list str) : str := "/" ++ JS.join "/" segs.

Definition seg_step (allowAboveRoot : bool) (stack : list str) (seg : str) : list str :=
  if bool_decide (seg = []) || bool_decide (seg = ".") then stack
  else if bool_decide (seg = "..") then
    match last stack with
    | Some top =>
        if bool_decide (top = "..") then
          (if allowAboveRoot then stack ++ [".." : str] else stack)
        else removelast stack
    | None => if allowAboveRoot then [".." : str] else []
    end
  else stack ++ [seg].

Definition seg_char (allowAboveRoot : bool) (st : list str * str) (c : ascii)
  : list str * str :=
  if isPosixPathSeparator c then (seg_step allowAboveRoot st.1 st.2, [])
  else (st.1, st.2 ++ [c]).

Definition normalizeSegments (allowAboveRoot : bool) (path : str) : list str :=
  let st := foldl (seg_char allowAboveRoot) ([], []) path in
  seg_step allowAboveRoot st.1 st.2.

(** A path that is empty or ends with a separator leaves no segment
    half read. *)
Definition closed (path : str) : Prop := path = [] ∨ last path = Some CHAR_FORWARD_SLASH.

Definition absolute (path : str) : Prop := JS.startsWith path "/" = true.


(** The iterations of the loop of [parse] over the characters [rb] of
    the last segment, from the right, [i] being the index of the
    first. *)
Fixpoint scanSegment (rb : str) (i : Z) (st : ParseState) : ParseState :=
  match rb with
  | [] => st
  | code :: rest => scanSegment rest (i - 1) (parse_char code i st)
  end.

(** The index of the last dot of a segment. *)
Fixpoint lastDot (b : str) : option nat :=
  match b with
  | [] => None
  | c :: b' =>
      match lastDot b' with
      | Some j => Some (S j)
      | None => if bool_decide (c = CHAR_DOT) then Some 0%nat else None
      end
  end.

(** The value of [preDotState] after the loop of [parse] has read the
    segment [b]: 0 without a dot or when the last dot is the first
    character, else 1 or -1 as the first character is a dot or not. *)
Definition pdsOf (b : str) : Z :=
  match lastDot b with
  | None | Some O => 0
  | Some (S _) => if bool_decide (head b = Some CHAR_DOT) then 1 else -1
  end.

(** The name and the extension of a file name: the extension starts at
    the last dot, unless that dot is the first character or the file
    name is [..]. *)
Definition splitExt (b : str) : str * str :=
  match lastDot b with
  | None => (b, [])
  | Some j =>
      if bool_decide (j = 0%nat) || bool_decide (b = "..") then (b, [])
      else (take j b, drop j b)
  end.

Definition nameOf (b : str) : str := (splitExt b).1.
Definition extOf (b : str) : str := (splitExt b).2.

(** What [parse] returns from the state [st] in which its loop ends. *)
Definition parseResult (path : str) (isAbsolute : bool) (st : ParseState) : ParsedPath :=
  let root_ : str := if isAbsolute then "/" else [] in
  let '(base_, ext_, name_) :=
    if negb (end_ st =? -1) then
      let start := if (startPart st =? 0) && isAbsolute then 1 else startPart st in
      if (startDot st =? -1) || (preDotState st =? 0)
         || ((preDotState st =? 1) && (startDot st =? end_ st - 1)
             && (startDot st =? startPart st + 1))
      then
        let b := JS.slice path start (Some (end_ st)) in (b, [], b)
      else
        (JS.slice path start (Some (end_ st)),
         JS.slice path (startDot st) (Some (end_ st)),
         JS.slice path start (Some (startDot st)))
    else ([], [], []) in
  let dir_ : str :=
    if 0 <? startPart st then JS.slice path 0 (Some (startPart st - 1))
    else if isAbsolute then "/" else [] in
  {| root := root_; dir := dir_; base := base_; ext := ext_; name := name_ |}.

Definition parseInit : ParseState :=
  {| startDot := -1; startPart := 0; end_ := -1; matchedSlash := true; preDotState := 0 |}.

(** What [resolve] puts in front of its last argument [y], which is not
    empty: nothing when [y] is absolute, else the directory [d] and, when
    [d] is not absolute either, the working directory. *)
Definition resolvePrefix (cwd d : str) (yAbsolute : bool) : str :=
  if yAbsolute then []
  else if bool_decide (d = []) then cwd ++ "/"
  else if JS.startsWith d "/" then d ++ "/"
  else cwd ++ "/" ++ d ++ "/".

(** The segments of the directory [d] once resolved. *)
Definition dirSegments (cwd d : str) : list str :=
  normalizeSegments false (resolvePrefix cwd d false).

(** The segments of the directory of a path [d/Y...], where [Y] is empty
    or ends with a separator. *)
Definition dirSegmentsOf (cwd d Y : str) : list str :=
  normalizeSegments false (resolvePrefix cwd d (JS.startsWith Y "/") ++ Y).

(** The value of [dots] after the characters [seg] of a segment. *)
Definition dotsOf (seg : str) : Z :=
  if bool_decide (Forall (λ c, c = CHAR_DOT) seg) then Z.of_nat (length seg) else -1.

(** The state of the loop of [normalizeString] stands for the segments
    [stack] kept so far and the segment [cur] being read. *)
Record normInv (st : NormState) (stack : list str) (cur : str) : Prop := {
  inv_res : res st = JS.join "/" stack;
  inv_seg : seg st = cur;
  inv_dots : dots st = dotsOf cur;
  inv_last : lastSegmentLength st = Z.of_nat (length (default [] (last stack)));
  inv_stack : Forall (λ x, x ≠ [] ∧ slashFree x) stack;
  inv_cur : slashFree cur;
}.

(** *** The rewriting of one specifier

    The first entry of the table, in the order of the table, whose
    target directory the alias rewriter accepts for [importPath]: the
    relative path from it does not start with two dots. *)
Definition coveringAlias (cwd importPath : str) (pathsMap : PathsMap) : option (str * str) :=
  List.find (λ entry, negb (JS.startsWith (relative cwd entry.2 importPath) "..")) pathsMap.

(** The file that a resolved path stands for once the Extension
    Resolver has run: the resolved path with the extension and the
    base that the resolver returns, as the orchestrator puts them into
    the parts of the specifier. *)
Definition targetFile (existsSync : str → bool) (resolved : str) : str :=
  let parts := parse resolved in
  match getNewExtensionPathParts existsSync parts with
  | Some r =>
      format {| root := root parts; dir := dir parts; base := eb_base r;
                ext := eb_ext r; name := name parts |}
  | None => resolved
  end.

(** The rewritten specifier: [newImportPath] in the callback. *)
Definition newImportPath (existsSync : str → bool) (cwd : str) (pathsMap : PathsMap)
           (skipAlias_ : bool) (filePath importPath : str) : str :=
  format (transformParts existsSync cwd pathsMap skipAlias_ filePath importPath).1.

(** The file name that the extension step leaves for the file name [b]
    in the directory with the segments [dirSegs]. *)
Definition newFileName (existsSync : str → bool) (dirSegs : list str) (b : str) : str :=
  if JS.arrayIncludes tsExtensionLookups (extOf b) then
    match List.find (λ e, existsSync (absPath (dirSegs ++ [nameOf b ++ e])))
                    ALLOWED_EXTENSIONS with
    | Some e => nameOf b ++ e
    | None => b
    end
  else b.

(** *** Running the pass twice

    The specifiers that the pattern captures in a text, from left to
    right. *)
Definition importPaths (content : str) : list str :=
  (Regex.replace (λ _ cap, {| Regex.replacement := []; Regex.importErrors := [cap];
                              Regex.transformedImports := [] |}) content).1.2.

(** The callback goes on to transform the specifier: it is relative or
    starts with an alias, and no ignore string occurs in it. *)
Definition processed (pathsMap : PathsMap) (options : FixImportsOptions)
           (importPath : str) : bool :=
  (isRelativeImport importPath || isAliasImport pathsMap importPath)
  && negb (isIgnored (importIgnoreStrings options) importPath).

(** No replacement pattern of [String.prototype.replace] occurs in
    [r]: a dollar sign is not followed by a dollar sign, an ampersand,
    a backtick or a single quote. *)
Fixpoint plainReplacement (r : str) : bool :=
  match r with
  | [] => true
  | c :: r' =>
      (if bool_decide (c = "$"%char) then
         match r' with
         | d :: _ => negb (bool_decide (d ∈ ["$"%char; "&"%char; "`"%char; SQUOTE]))
         | [] => true
         end
       else true)
      && plainReplacement r'
  end.

(** A specifier that can be written between the quotes of an import
    and is read back by the pattern: it is not empty, and there is no
    quote in it, no replacement pattern, and no line terminator at its
    start. *)
Definition writable (r : str) : bool :=
  forallb (λ c, negb (Regex.isQuote c)) r
  && plainReplacement r
  && negb (Regex.atLineEnd r).

(** The specifiers on which the rewriter and the resolver are in
    step.
    - The specifier is a directory part, a separator and a file name,
      and does not start with two separators.
    - The rewritten specifier is writable.
    - When the alias step runs, neither the resolved path nor the
      target file is the target directory of an alias; and the alias
      that the step chooses does not start with a separator and is
      the longest key that is a prefix of the rewritten specifier. *)
Definition regular (existsSync : str → bool) (cwd : str) (pathsMap : PathsMap)
           (skipAlias_ : bool) (filePath importPath : str) : bool :=
  let parts := parse importPath in
  let resolved := Fix.resolveImportPath cwd importPath filePath pathsMap in
  let target := targetFile existsSync resolved in
  let new := newImportPath existsSync cwd pathsMap skipAlias_ filePath importPath in
  bool_decide (importPath = dir parts ++ "/" ++ base parts)
  && bool_decide (cleanSegment (base parts))
  && negb (JS.startsWith importPath "//")
  && writable new
  && (if isRelativeImport importPath && negb skipAlias_ then
        forallb (λ entry : str * str,
                   bool_decide (resolve cwd [entry.2] ≠ resolved)
                   && bool_decide (resolve cwd [entry.2] ≠ target)) pathsMap
        && match coveringAlias cwd resolved pathsMap with
           | Some (alias, _) =>
               negb (JS.startsWith alias "/")
               && forallb (λ k, negb (JS.startsWith new k)
                                || bool_decide (length k ≤ length alias)%nat)
                          (pm_keys pathsMap)
           | None => true
           end
      else true).

(** Every specifier of the file that the callback transforms is
    regular.  A file that cannot be read has no specifiers. *)
Definition regularFile (cwd : str) (pathsMap : PathsMap) (options : FixImportsOptions)
           (fs : FS) (filePath : str) : bool :=
  match readFile cwd fs filePath with
  | Some content =>
      forallb (λ importPath,
                 negb (processed pathsMap options importPath)
                 || regular (existsSync cwd fs) cwd pathsMap (skipAlias options)
                            filePath importPath)
              (importPaths content)
  | None => true
  end.

(** *** Files without diagnostics

    The file is read, and the callback records no diagnostic in it. *)
Definition clean (pc : Console) (cwd : str) (pathsMap : PathsMap)
           (options : FixImportsOptions) (fs : FS) (filePath : str) : Prop :=
  ∃ content, readFile cwd fs filePath = Some content
             ∧ (transformContent pc cwd pathsMap options fs filePath content).1.2 = [].

(** The file is an index file, or it is read and holds no export
    declaration. *)
Definition exportFree (exportDeclarations : str → str → list str) (cwd : str)
           (fs : FS) (filePath : str) : Prop :=
  name (parse filePath) = "index"
  ∨ ∃ sourceCode, readFile cwd fs filePath = Some sourceCode
                  ∧ exportDeclarations (base (parse filePath)) sourceCode = [].

(** *** The pattern as an automaton

    The stages of a match attempt: the rest of the keyword, the white
    space, the capture.  The flag tells whether the run of white space
    or the capture has a character already. *)
Inductive Stage :=
| SKeyword (rest : str)
| SSpace (seen : bool)
| SCapture (seen : bool).

(** The attempt, from the stage [st], succeeds on [s]. *)
Fixpoint accepts (s : str) (st : Stage) : bool :=
  match s with
  | [] => false
  | c :: s' =>
      match st with
      | SKeyword [] => false
      | SKeyword (k :: ks) =>
          bool_decide (c = k)
          && accepts s' (match ks with [] => SSpace false | _ => SKeyword ks end)
      | SSpace seen =>
          if Regex.isWhiteSpace c then accepts s' (SSpace true)
          else seen && Regex.isQuote c && accepts s' (SCapture false)
      | SCapture seen =>
          if Regex.isQuote c then seen && Regex.atLineEnd s'
          else accepts s' (SCapture true)
      end
  end.

(** The text of a match: keyword, white space, quote, capture,
    quote. *)
Definition matchText (kw ws : str) (q : ascii) (cap : str) (q2 : ascii) : str :=
  kw ++ ws ++ [q] ++ cap ++ [q2].

Definition matchShape (kw ws : str) (q q2 : ascii) : Prop :=
  (kw = "import" ∨ kw = "from")
  ∧ ws ≠ [] ∧ Forall (λ c, Regex.isWhiteSpace c = true) ws
  ∧ Regex.isQuote q = true ∧ Regex.isQuote q2 = true.

(** What the group of the pattern can capture. *)
Definition captured (cap : str) : Prop :=
  cap ≠ [] ∧ Forall (λ c, Regex.isQuote c = false) cap.

(** The stages that an attempt goes through. *)
Definition reachable (st : Stage) : Prop :=
  match st with
  | SKeyword k =>
      k ∈ [("import" : str); ("mport" : str); ("port" : str); ("ort" : str);
           ("rt" : str); ("t" : str);
           ("from" : str); ("rom" : str); ("om" : str); ("m" : str)]
  | _ => True
  end.

End Spec.

(** The scenario of the specification: the alias map sends [~/] to
  [./src/]; the file [src/a.ts] consists of the one line that imports
  [x] from [./b]; [src/b.ts] is on disk.  The project lies in
  [/proj], the working directory. *)
Module Scenario.

Import Fix.

Definition cwd : str := "/proj".

Definition paths : TsconfigPaths := [("~/*" : str, [("./src/*" : str)])].

Definition importLine (specifier : str) : str :=
  "import x from " ++ [DQUOTE] ++ specifier ++ [DQUOTE].

Definition fs : FS :=
  <[("/proj/src/a.ts" : str) := File (importLine "./b")]>
    (<[("/proj/src/b.ts" : str) := File []]>
       (<[("/proj/src" : str) := Directory]>
          (<[("/proj" : str) := Directory]> ∅))).

Definition options (write_ skipAlias_ : bool) : FixImportsOptions :=
  {| write := write_; importIgnoreStrings := []; skipAlias := skipAlias_ |}.

(** A console without colours. *)
Definition console : Console :=
  {| greenBright := id; blue := id; redBright := id; dim := id;
     crossMark := "x"; checkMark := "v" |}.

(** The scenario with a style sheet next to [src/a.ts], which imports
    it. *)
Definition fsStyles : FS :=
  <[("/proj/src/a.ts" : str) := File (importLine "./styles.css")]>
    (<[("/proj/src/styles.css" : str) := File []]> fs).

End Scenario.

(** A configuration in which a second alias, [~/lib/], points away
  from the directory [lib] below the target of the first alias, [~/]:
  [src/lib/a.ts] imports [x] from [./x], [src/lib/x.ts] is on disk,
  and so is [other/x.tsx]. *)
Module Shadow.

Import Fix.

Definition cwd : str := "/proj".

Definition paths : TsconfigPaths :=
  [("~/*" : str, [("./src/*" : str)]); ("~/lib/*" : str, [("./other/*" : str)])].

Definition fs : FS :=
  <[("/proj/src/lib/a.ts" : str) := File (Scenario.importLine "./x")]>
    (<[("/proj/src/lib/x.ts" : str) := File []]>
       (<[("/proj/other/x.tsx" : str) := File []]>
          (<[("/proj/src/lib" : str) := Directory]>
             (<[("/proj/src" : str) := Directory]>
                (<[("/proj/other" : str) := Directory]>
                   (<[("/proj" : str) := Directory]> ∅)))))).

Definition filePath : str := "src/lib/a.ts".

End Shadow.

(* ===================================================================== *)
(** * Facts about the runtime primitives                                   *)
(* ===================================================================== *)

Section js_facts.

Lemma startsWith_spec (s p : str) :
  JS.startsWith s p = true ↔ ∃ r, s = p ++ r.
Proof.
  revert s. induction p as [|c p IH]; intros s; simpl.
  - split; [by exists s | done].
  - destruct s as [|d s].
    + split; [done | intros [r Hr]; discriminate].
    + rewrite andb_true_iff, bool_decide_eq_true, IH. split.
      * intros [-> [r ->]]. by exists r.
      * intros [r Hr]. injection Hr as -> ->. eauto.
Qed.

Lemma startsWith_app (p r : str) : JS.startsWith (p ++ r) p = true.
Proof. apply startsWith_spec. eauto. Qed.

Lemma startsWith_length (s p : str) :
  JS.startsWith s p = true → (length p ≤ length s)%nat.
Proof. intros [r ->]%startsWith_spec. rewrite length_app. lia. Qed.

Lemma endsWith_spec (s p : str) :
  JS.endsWith s p = true ↔ ∃ r, s = r ++ p.
Proof.
  unfold JS.endsWith. rewrite startsWith_spec. split.
  - intros [r Hr]. exists (reverse r).
    apply (inj reverse). by rewrite reverse_app, reverse_involutive.
  - intros [r ->]. exists (reverse r). by rewrite reverse_app.
Qed.

Lemma slice_from (s : str) (n : nat) :
  JS.slice s (Z.of_nat n) None = drop n s.
Proof.
  unfold JS.slice.
  destruct (Z.ltb_spec (Z.of_nat n) 0) as [?|_]; [lia|].
  destruct (Z.min_spec (Z.of_nat n) (Z.of_nat (length s))) as [[? ->]|[? ->]].
  - rewrite Nat2Z.id. apply take_ge. rewrite length_drop. lia.
  - rewrite Nat2Z.id, Z.sub_diag. simpl.
    rewrite drop_ge by lia. symmetry. apply drop_ge. lia.
Qed.

Lemma slice_to (s : str) (n : nat) :
  JS.slice s 0 (Some (Z.of_nat n)) = take n s.
Proof.
  unfold JS.slice. simpl.
  destruct (Z.ltb_spec (Z.of_nat n) 0) as [?|_]; [lia|].
  rewrite (Z.min_l 0) by lia. change (Z.to_nat 0) with 0%nat. rewrite drop_0, Z.sub_0_r.
  destruct (Z.min_spec (Z.of_nat n) (Z.of_nat (length s))) as [[? ->]|[? ->]].
  - by rewrite Nat2Z.id.
  - rewrite Nat2Z.id, !take_ge by lia. done.
Qed.

(** [s.slice(0, -1)] cuts the last character off. *)
Lemma slice_init (s : str) (c : ascii) :
  JS.slice (s ++ [c]) 0 (Some (-1)) = s.
Proof.
  unfold JS.slice. simpl. rewrite length_app. simpl.
  rewrite Z.min_l by lia. rewrite Z.max_l by lia.
  change (Z.to_nat 0) with 0%nat. rewrite drop_0.
  replace (Z.to_nat _) with (length s) by lia.
  by rewrite take_app_length.
Qed.

Lemma slice_init2 (s : str) (c d : ascii) :
  JS.slice (s ++ [c; d]) 0 (Some (-1)) = s ++ [c].
Proof.
  change (s ++ [c; d]) with (s ++ [c] ++ [d]). rewrite app_assoc. apply slice_init.
Qed.

End js_facts.

(* ===================================================================== *)
(** * The alias table loader                                               *)
(* ===================================================================== *)

Section loader.

Import Fix.

Lemma pm_set_elem (m : PathsMap) (alias aliasDir k v : str) :
  (k, v) ∈ pm_set m alias aliasDir → (k, v) = (alias, aliasDir) ∨ (k, v) ∈ m.
Proof.
  induction m as [|[k' v'] m IH]; simpl.
  - intros ->%list_elem_of_singleton. by left.
  - case_bool_decide as Hk.
    + intros [->|?]%elem_of_cons; [left; by subst | right; by right].
    + intros [->|[?|?]%IH]%elem_of_cons; [right; by left | by left | right; by right].
Qed.

Lemma pm_get_elem (m : PathsMap) (k v : str) :
  pm_get m k = Some v → (k, v) ∈ m.
Proof.
  induction m as [|[k' v'] m IH]; simpl; [done|].
  case_bool_decide as Hk.
  - intros [= ->]. subst. by left.
  - intros ?. right. by apply IH.
Qed.

Lemma pm_get_keys (m : PathsMap) (k : str) :
  k ∈ pm_keys m → is_Some (pm_get m k).
Proof.
  unfold pm_keys. induction m as [|[k' v'] m IH]; simpl.
  - by intros ?%elem_of_nil.
  - case_bool_decide as Hk; [by eauto|].
    intros [->|?]%elem_of_cons; [done | by apply IH].
Qed.

(** An entry that the loop body stores comes from a declared entry
    whose key and first target both end in [/*], with exactly the last
    character cut off on each side. *)
Lemma getPathsMap_step_elem (m : PathsMap) (entry : str * list str) (k v : str) :
  (k, v) ∈ getPathsMap_step m entry →
  (k, v) ∈ m ∨ ∃ k0 v0 targets,
    entry = (k0 ++ "/*", (v0 ++ "/*") :: targets) ∧ k = k0 ++ "/" ∧ v = v0 ++ "/".
Proof.
  destruct entry as [alias targets]. unfold getPathsMap_step. intros H. revert H.
  destruct (JS.endsWith alias _) eqn:Ha; simpl; [|by left].
  destruct targets as [|aliasDir targets]; simpl; [by left|].
  destruct (JS.endsWith aliasDir _) eqn:Hd; simpl; [|by left].
  apply endsWith_spec in Ha as [k0 ->]. apply endsWith_spec in Hd as [v0 ->].
  simpl. rewrite !slice_init2.
  intros [[= -> ->]|?]%pm_set_elem; [right | by left].
  by exists k0, v0, targets.
Qed.

Lemma loaded_elem (paths : TsconfigPaths) (k v : str) :
  (k, v) ∈ Spec.loaded paths →
  ∃ k0 v0 targets,
    (k0 ++ "/*", (v0 ++ "/*") :: targets) ∈ paths ∧ k = k0 ++ "/" ∧ v = v0 ++ "/".
Proof.
  unfold Spec.loaded.
  induction paths as [|entry paths IH] using rev_ind; simpl.
  - by intros ?%elem_of_nil.
  - rewrite foldl_snoc.
    intros [Hin|(k0 & v0 & targets & -> & -> & ->)]%getPathsMap_step_elem.
    + destruct (IH Hin) as (k0 & v0 & targets & ? & ? & ?).
      exists k0, v0, targets. split; [|done]. apply elem_of_app. by left.
    + exists k0, v0, targets. split; [|done]. apply elem_of_app. right. by left.
Qed.

(** C9.  Every alias key and every target directory in the table that
    the loader builds ends with the separator: an entry of the table
    comes from a declared entry whose key and whose first target both
    end in [/*], and exactly the final star is cut off on each side.
    So when an alias is a prefix of a specifier, the prefix ends at a
    separator of the specifier. *)
Theorem getPathsMap_invariant (paths : TsconfigPaths) (pathsMap : PathsMap)
        (alias aliasDir : str) :
  getPathsMap (Some paths) = Ok pathsMap →
  (alias, aliasDir) ∈ pathsMap →
  JS.endsWith alias "/" = true
  ∧ JS.endsWith aliasDir "/" = true
  ∧ (∃ targets, (alias ++ "*", (aliasDir ++ "*") :: targets) ∈ paths)
  ∧ (∀ importPath, JS.startsWith importPath alias = true →
       ∃ before rest, alias = before ++ "/" ∧ importPath = before ++ "/" ++ rest).
Proof.
  intros [= <-] (k0 & v0 & targets & Hin & -> & ->)%loaded_elem.
  split_and!.
  - apply endsWith_spec. eauto.
  - apply endsWith_spec. eauto.
  - exists targets. by rewrite <- !app_assoc.
  - intros importPath [rest ->]%startsWith_spec.
    exists k0, rest. by rewrite <- app_assoc.
Qed.

Lemma getPathsMap_invariant_witness :
  let paths : TsconfigPaths := [("~/*" : str, [("./src/*" : str); ("./lib/*" : str)])] in
  JS.endsWith "~/" "/" = true
  ∧ JS.endsWith "./src/" "/" = true
  ∧ (∃ targets, (("~/" : str) ++ "*", (("./src/" : str) ++ "*") :: targets) ∈ paths)
  ∧ (∀ importPath, JS.startsWith importPath "~/" = true →
       ∃ before rest, ("~/" : str) = before ++ "/" ∧ importPath = before ++ "/" ++ rest).
Proof.
  intros paths.
  apply (getPathsMap_invariant paths [("~/" : str, "./src/" : str)]).
  - reflexivity.
  - apply list_elem_of_singleton. reflexivity.
Defined.





End loader.

(* ===================================================================== *)
(** * The import path resolver                                             *)
(* ===================================================================== *)

Section resolver.

Import Path Fix.

Lemma sort_insert_perm (a : str) (l : list str) : sort_insert a l ≡ₚ a :: l.
Proof.
  induction l as [|b l IH]; simpl; [done|].
  case_bool_decide; [|done].
  rewrite IH. apply Permutation_swap.
Qed.

Lemma sortByLengthDesc_perm (keys : list str) : sortByLengthDesc keys ≡ₚ keys.
Proof.
  induction keys as [|a keys IH]; simpl; [done|].
  by rewrite sort_insert_perm, IH.
Qed.

Lemma sort_insert_sorted (a : str) (l : list str) :
  StronglySorted Spec.longerFirst l → StronglySorted Spec.longerFirst (sort_insert a l).
Proof.
  induction l as [|b l IH]; simpl.
  - intros _. by repeat constructor.
  - intros [Hb Hl]%StronglySorted_cons. case_bool_decide as Hlen.
    + apply StronglySorted_cons. split; [|by apply IH].
      rewrite sort_insert_perm. constructor; [unfold Spec.longerFirst; lia | done].
    + apply StronglySorted_cons. split; [|by apply StronglySorted_cons].
      constructor; [unfold Spec.longerFirst; lia|].
      eapply Forall_impl; [exact Hb|]. unfold Spec.longerFirst. intros; lia.
Qed.

Lemma sortByLengthDesc_sorted (keys : list str) :
  StronglySorted Spec.longerFirst (sortByLengthDesc keys).
Proof.
  induction keys as [|a keys IH]; simpl; [constructor|].
  by apply sort_insert_sorted.
Qed.

(** In a list sorted by descending length, the first element that is a
    prefix of [s] is the longest of the prefixes of [s] in the list. *)
Lemma find_prefix_longest (s : str) (l : list str) (alias k : str) :
  StronglySorted Spec.longerFirst l →
  List.find (λ a, JS.startsWith s a) l = Some alias →
  k ∈ l → JS.startsWith s k = true → (length k ≤ length alias)%nat.
Proof.
  induction l as [|b l IH]; simpl; [done|].
  intros [Hb Hl]%StronglySorted_cons. destruct (JS.startsWith s b) eqn:Hsb.
  - intros [= ->] [->|Hk]%elem_of_cons _; [done|].
    rewrite Forall_forall in Hb. by apply (Hb k).
  - intros Hf [->|Hk]%elem_of_cons Hsk; [congruence|]. by apply IH.
Qed.

Lemma find_prefix_none (s : str) (l : list str) (k : str) :
  List.find (λ a, JS.startsWith s a) l = None → k ∈ l → JS.startsWith s k = false.
Proof.
  intros Hf Hk. apply list_elem_of_In in Hk.
  by apply (find_none _ _ Hf) in Hk.
Qed.

(** The loop of the resolver skips a key whose target is missing or
    empty; when every key has a non-empty target it stops at the first
    key that is a prefix. *)
Lemma resolveImportPath_loop_find (cwd importPath : str) (pathsMap : PathsMap)
      (keys : list str) :
  (∀ k, k ∈ keys → ∃ v, pm_get pathsMap k = Some v ∧ v ≠ []) →
  resolveImportPath_loop cwd importPath pathsMap keys
  = (λ alias, resolve cwd [default [] (pm_get pathsMap alias);
                           drop (length alias) importPath])
      <$> List.find (λ a, JS.startsWith importPath a) keys.
Proof.
  induction keys as [|k keys IH]; simpl; [done|]. intros Hkeys.
  destruct (JS.startsWith importPath k) eqn:Hk; simpl.
  - destruct (Hkeys k) as (v & -> & Hv); [by left|].
    destruct v; [done|]. simpl. by rewrite slice_from.
  - apply IH. intros k' Hk'. apply Hkeys. by right.
Qed.

Lemma loaded_target (paths : TsconfigPaths) (k : str) :
  k ∈ pm_keys (Spec.loaded paths) →
  ∃ v, pm_get (Spec.loaded paths) k = Some v ∧ v ≠ [].
Proof.
  intros [v Hv]%pm_get_keys. exists v. split; [done|].
  apply pm_get_elem, loaded_elem in Hv as (k0 & v0 & ts & _ & _ & ->).
  by destruct v0.
Qed.

Lemma resolveImportPath_refines (paths : TsconfigPaths) (cwd importPath filePath : str) :
  resolveImportPath cwd importPath filePath (Spec.loaded paths)
  = Spec.resolveImportPath cwd importPath filePath (Spec.loaded paths).
Proof.
  unfold resolveImportPath, Spec.resolveImportPath.
  rewrite resolveImportPath_loop_find.
  - by destruct (List.find _ _).
  - intros k Hk. apply loaded_target. by rewrite <- sortByLengthDesc_perm.
Qed.

(** C2.  On every alias table that the loader builds, the Import Path
    Resolver goes through the alias keys in the order of descending
    length; the first key that is a prefix of the specifier decides,
    and the result is the remainder of the specifier resolved against
    the target directory of that key.  Without such a key the result
    is the specifier resolved against the directory of the containing
    file.  The resolver is a total function: there is no error
    case. *)
Theorem resolveImportPath_spec (paths : TsconfigPaths) (cwd importPath filePath : str) :
  let pathsMap := Spec.loaded paths in
  let sorted := sortByLengthDesc (pm_keys pathsMap) in
  sorted ≡ₚ pm_keys pathsMap
  ∧ StronglySorted Spec.longerFirst sorted
  ∧ resolveImportPath cwd importPath filePath pathsMap
    = Spec.resolveImportPath cwd importPath filePath pathsMap
  ∧ match List.find (λ alias, JS.startsWith importPath alias) sorted with
    | Some alias =>
        ∃ aliasDir remainder,
          (alias, aliasDir) ∈ pathsMap
          ∧ importPath = alias ++ remainder
          ∧ resolveImportPath cwd importPath filePath pathsMap
            = resolve cwd [aliasDir; remainder]
          ∧ ∀ k, k ∈ pm_keys pathsMap → JS.startsWith importPath k = true →
                 (length k ≤ length alias)%nat
    | None =>
        (∀ k, k ∈ pm_keys pathsMap → JS.startsWith importPath k = false)
        ∧ resolveImportPath cwd importPath filePath pathsMap
          = resolve cwd [dirname filePath; importPath]
    end.
Proof.
  intros pathsMap sorted.
  assert (Hperm : sorted ≡ₚ pm_keys pathsMap) by apply sortByLengthDesc_perm.
  assert (Hsorted : StronglySorted Spec.longerFirst sorted) by apply sortByLengthDesc_sorted.
  assert (Href : resolveImportPath cwd importPath filePath pathsMap
                 = Spec.resolveImportPath cwd importPath filePath pathsMap)
    by apply resolveImportPath_refines.
  split_and!; [done..|]. rewrite Href.
  unfold Spec.resolveImportPath. fold sorted.
  destruct (List.find _ sorted) as [alias|] eqn:Hfind.
  - destruct (find_some _ _ Hfind) as [Hin [remainder Hrem]%startsWith_spec].
    apply list_elem_of_In in Hin. rewrite Hperm in Hin.
    destruct (loaded_target paths alias Hin) as (aliasDir & Hget & _).
    fold pathsMap in Hget. exists aliasDir, remainder. split_and!.
    + by apply pm_get_elem.
    + done.
    + rewrite Hget, Hrem. simpl. by rewrite drop_app_length.
    + intros k Hk. apply (find_prefix_longest importPath sorted); [done..|].
      by rewrite Hperm.
  - split; [|done]. intros k Hk.
    apply (find_prefix_none importPath sorted); [done|]. by rewrite Hperm.
Qed.

End resolver.

(* ===================================================================== *)
(** * The extension resolver                                               *)
(* ===================================================================== *)

Section extension.

Import Path Fix.

(** Substituting an extension: the probed path is the directory, the
    name and the candidate, whatever the old extension and base
    were. *)
Lemma probe_eq (importParts : ParsedPath) (e : str) :
  e ∈ ALLOWED_EXTENSIONS →
  Spec.probe importParts e
  = let d := JS.or (dir importParts) (root importParts) in
    if negb (JS.truthy d) then name importParts ++ e
    else if bool_decide (d = root importParts) then d ++ name importParts ++ e
    else d ++ "/" ++ name importParts ++ e.
Proof.
  intros He. unfold Spec.probe, format, changeExtension. simpl.
  assert (formatExt e = e) as ->.
  { unfold ALLOWED_EXTENSIONS in He.
    repeat (apply elem_of_cons in He as [->|He]; [done|]).
    by apply elem_of_nil in He. }
  assert (JS.or [] (name importParts ++ e) = name importParts ++ e) as -> by done.
  done.
Qed.

Lemma getNewExtension_loop_first (existsSync : str → bool) (importParts : ParsedPath)
      (before after : list str) (e : str) :
  (∀ e', e' ∈ before → existsSync (Spec.probe importParts e') = false) →
  existsSync (Spec.probe importParts e) = true →
  getNewExtension_loop existsSync importParts (before ++ e :: after)
  = Some {| eb_ext := e; eb_base := [] |}.
Proof.
  induction before as [|b before IH]; simpl; intros Hbefore He.
  - fold (Spec.probe importParts e). by rewrite He.
  - fold (Spec.probe importParts b). rewrite Hbefore by by left.
    apply IH; [|done]. intros e' He'. apply Hbefore. by right.
Qed.

Lemma getNewExtension_loop_none (existsSync : str → bool) (importParts : ParsedPath)
      (candidates : list str) :
  (∀ e, e ∈ candidates → existsSync (Spec.probe importParts e) = false) →
  getNewExtension_loop existsSync importParts candidates = None.
Proof.
  induction candidates as [|c candidates IH]; simpl; intros Hc; [done|].
  fold (Spec.probe importParts c). rewrite Hc by by left.
  apply IH. intros e He. apply Hc. by right.
Qed.

(** C1.  The Extension Resolver on a parsed path:
    - an extension outside the lookup set comes back unchanged, with
      the base name, and this is a success;
    - an extension of the lookup set makes the resolver probe [.ts],
      [.tsx] and [.d.ts] in this order, each substituted into the
      path and tested for existence; the first one whose file exists
      is returned;
    - when none of the three files exists the resolver returns
      nothing, the orchestrator records the error and leaves the
      extension and the base name of the specifier as they were
      written. *)
Theorem getNewExtensionPathParts_spec (existsSync : str → bool) (importParts : ParsedPath) :
  tsExtensionLookups = ["" : str; ".js" : str; ".jsx" : str; ".ts" : str; ".tsx" : str]
  ∧ ALLOWED_EXTENSIONS = [".ts" : str; ".tsx" : str; ".d.ts" : str]
  ∧ (ext importParts ∉ tsExtensionLookups →
       getNewExtensionPathParts existsSync importParts
       = Some {| eb_ext := ext importParts; eb_base := base importParts |})
  ∧ (ext importParts ∈ tsExtensionLookups →
       ∀ before e after,
         ALLOWED_EXTENSIONS = before ++ e :: after →
         (∀ e', e' ∈ before → existsSync (Spec.probe importParts e') = false) →
         existsSync (Spec.probe importParts e) = true →
         getNewExtensionPathParts existsSync importParts
         = Some {| eb_ext := e; eb_base := [] |})
  ∧ (ext importParts ∈ tsExtensionLookups →
       (∀ e, e ∈ ALLOWED_EXTENSIONS → existsSync (Spec.probe importParts e) = false) →
       getNewExtensionPathParts existsSync importParts = None
       ∧ ∀ importPath newImportParts,
           extensionStep existsSync importPath newImportParts importParts
           = (newImportParts, [extensionError importPath importParts])).
Proof.
  split_and!; [done..| | |].
  - intros Hext. unfold getNewExtensionPathParts, JS.arrayIncludes.
    by rewrite bool_decide_eq_false_2.
  - intros Hext before e after Hsplit Hbefore He.
    unfold getNewExtensionPathParts, JS.arrayIncludes.
    rewrite bool_decide_eq_true_2 by done. cbn [negb].
    rewrite Hsplit. by apply getNewExtension_loop_first.
  - intros Hext Hnone.
    assert (getNewExtensionPathParts existsSync importParts = None) as Hres.
    { unfold getNewExtensionPathParts, JS.arrayIncludes.
      rewrite bool_decide_eq_true_2 by done. cbn [negb].
      by apply getNewExtension_loop_none. }
    split; [done|]. intros importPath newImportParts.
    unfold extensionStep. by rewrite Hres.
Qed.

(** The three cases at concrete inputs: [/proj/src/styles.css]; then
    [/proj/src/b] with only [/proj/src/b.tsx] on disk; then
    [/proj/src/b] with nothing on disk. *)
Lemma getNewExtensionPathParts_spec_witness :
  let onDisk (p : str) := bool_decide (p = "/proj/src/b.tsx") in
  let nothing (p : str) := false in
  getNewExtensionPathParts onDisk (parse "/proj/src/styles.css")
  = Some {| eb_ext := ".css"; eb_base := "styles.css" |}
  ∧ getNewExtensionPathParts onDisk (parse "/proj/src/b")
    = Some {| eb_ext := ".tsx"; eb_base := [] |}
  ∧ getNewExtensionPathParts nothing (parse "/proj/src/b") = None.
Proof.
  intros onDisk nothing. split_and!.
  - destruct (getNewExtensionPathParts_spec onDisk (parse "/proj/src/styles.css"))
      as (_ & _ & H & _ & _).
    apply H. compute_done.
  - destruct (getNewExtensionPathParts_spec onDisk (parse "/proj/src/b"))
      as (_ & _ & _ & H & _).
    apply (H ltac:(compute_done) [".ts" : str] (".tsx" : str) [".d.ts" : str]).
    + reflexivity.
    + intros e' ->%list_elem_of_singleton. reflexivity.
    + reflexivity.
  - destruct (getNewExtensionPathParts_spec nothing (parse "/proj/src/b"))
      as (_ & _ & _ & _ & H).
    apply H; [compute_done | done].
Defined.

End extension.

(* ===================================================================== *)
(** * The scenario of the specification                                    *)
(* ===================================================================== *)

Section scenario.

Import Path Fix.

(** C6.  With the alias map that sends [~/] to [./src/], the file
    [src/a.ts] made of the line importing [x] from [./b], and
    [src/b.ts] on disk, the line is rewritten to import from
    [~/b.ts] when [skipAlias] is off and from [./b.ts] when it is on:
    the extension is normalised in both cases and the alias is
    applied in the first only.  In write mode the file holds the new
    line afterwards, and the run succeeds. *)
Theorem scenario_rewrite (pc : Console) :
  getPathsMap (Some Scenario.paths) = Ok [("~/" : str, "./src/" : str)]
  ∧ (∀ write_,
       (transformContent pc Scenario.cwd (Spec.loaded Scenario.paths)
          (Scenario.options write_ false) Scenario.fs "src/a.ts"
          (Scenario.importLine "./b")).1.1
       = Scenario.importLine "~/b.ts"
       ∧ (transformContent pc Scenario.cwd (Spec.loaded Scenario.paths)
            (Scenario.options write_ true) Scenario.fs "src/a.ts"
            (Scenario.importLine "./b")).1.1
         = Scenario.importLine "./b.ts")
  ∧ (let run := fixImports pc Scenario.cwd (Some Scenario.paths) Scenario.fs
                  [("src/a.ts" : str)] (Scenario.options true false) in
     result run = Ok tt
     ∧ files_after run !! ("/proj/src/a.ts" : str)
       = Some (File (Scenario.importLine "~/b.ts")))
  ∧ (let run := fixImports pc Scenario.cwd (Some Scenario.paths) Scenario.fs
                  [("src/a.ts" : str)] (Scenario.options true true) in
     result run = Ok tt
     ∧ files_after run !! ("/proj/src/a.ts" : str)
       = Some (File (Scenario.importLine "./b.ts"))).
Proof.
  split_and!.
  - reflexivity.
  - intros write_. split; vm_compute; reflexivity.
  - vm_compute. split; reflexivity.
  - vm_compute. split; reflexivity.
Qed.

End scenario.
(* ===================================================================== *)
(** * The tasks and the moment the run goes on                             *)
(* ===================================================================== *)

Section settling.

Import Path Fix.

Context (pc : Console) (cwd : str) (pathsMap : PathsMap) (options : FixImportsOptions)
        (fs : FS).

Local Abbreviation step := (fixFile pc cwd pathsMap options fs).

(** A rejection is not taken back. *)
Lemma fixFile_rejected (st : RunState) (filePath : str) :
  rejected st = true → rejected (step st filePath) = true.
Proof.
  intros Hrej. unfold fixFile. destruct (readFile cwd fs filePath); [|done].
  by destruct (transformContent _ _ _ _ _ _ _) as [[t errs] logs].
Qed.

Lemma runTasks_rejected (st : RunState) (filePaths : list str) :
  rejected st = true → rejected (foldl step st filePaths) = true.
Proof.
  revert st. induction filePaths as [|p l IH]; intros st Hrej; [done|].
  simpl. by apply IH, fixFile_rejected.
Qed.

(** When the promise settles, the tasks of an initial part of the list
    have gone on: all of them, or those up to the first rejected
    read. *)
Lemma settleTasks_prefix (st : RunState) (filePaths : list str) :
  ∃ done_ rest, filePaths = done_ ++ rest
                ∧ settleTasks pc cwd pathsMap options fs st filePaths = foldl step st done_.
Proof.
  revert st. induction filePaths as [|p l IH]; intros st.
  { by exists [], []. }
  simpl. destruct (rejected (step st p)) eqn:Hrej.
  - by exists [p], l.
  - destruct (IH (step st p)) as (d & r & -> & Heq). by exists (p :: d), r.
Qed.

(** A read has been rejected by then exactly when one is rejected at
    all. *)
Lemma settleTasks_rejected (st : RunState) (filePaths : list str) :
  rejected (settleTasks pc cwd pathsMap options fs st filePaths)
  = rejected (foldl step st filePaths).
Proof.
  revert st. induction filePaths as [|p l IH]; intros st; [done|].
  simpl. destruct (rejected (step st p)) eqn:Hrej; [|by apply IH].
  by rewrite runTasks_rejected.
Qed.

(** Without a rejected read the promise settles when every task has
    run to its end. *)
Lemma settleTasks_all (st : RunState) (filePaths : list str) :
  rejected (foldl step st filePaths) = false →
  settleTasks pc cwd pathsMap options fs st filePaths = foldl step st filePaths.
Proof.
  revert st. induction filePaths as [|p l IH]; intros st Hrej; [done|].
  simpl in *. destruct (rejected (step st p)) eqn:Hp; [|by apply IH].
  by rewrite runTasks_rejected in Hrej.
Qed.

End settling.

(* ===================================================================== *)
(** * The exit code                                                        *)
(* ===================================================================== *)

Section exit_code.

Import Path Fix.

Context (pc : Console) (exportDeclarations : str → str → list str).

Local Abbreviation scanDirty := Spec.scanDirty.

Lemma checkFile_dirty (cwd : str) (fs : FS) (st : list str * bool) (filePath : str) :
  scanDirty st → scanDirty (checkFile pc exportDeclarations cwd fs st filePath).
Proof.
  destruct st as [errs rej]. unfold Spec.scanDirty, checkFile. simpl.
  case_bool_decide; [done|].
  destruct (readFile cwd fs filePath); [|by right].
  case_bool_decide; [done|]. simpl. intros [Herrs| ->]; [left|by right].
  by destruct errs.
Qed.

Lemma scan_dirty (cwd : str) (fs : FS) (filePaths : list str) (st : list str * bool) :
  scanDirty st → scanDirty (foldl (checkFile pc exportDeclarations cwd fs) st filePaths).
Proof.
  revert st. induction filePaths as [|p filePaths IH]; simpl; [done|].
  intros st Hst. by apply IH, checkFile_dirty.
Qed.

(** A file with a name other than [index] in which the parser finds an
    export declaration leaves the scan with a diagnostic. *)
Lemma scan_offender (cwd : str) (fs : FS) (filePaths : list str) (st : list str * bool)
      (filePath sourceCode : str) :
  filePath ∈ filePaths →
  name (parse filePath) ≠ "index" →
  readFile cwd fs filePath = Some sourceCode →
  exportDeclarations (base (parse filePath)) sourceCode ≠ [] →
  scanDirty (foldl (checkFile pc exportDeclarations cwd fs) st filePaths).
Proof.
  intros Hin Hname Hread Hdecls. revert st.
  induction filePaths as [|p filePaths IH]; [by apply elem_of_nil in Hin|].
  intros st. simpl. apply elem_of_cons in Hin as [<-|Hin]; [|by apply IH].
  apply scan_dirty. destruct st as [errs rej]. unfold checkFile.
  rewrite bool_decide_eq_false_2 by done. rewrite Hread.
  rewrite bool_decide_eq_false_2.
  - left. simpl. by destruct errs.
  - by destruct (exportDeclarations _ _).
Qed.

Lemma checkExports_ok (cwd : str) (fs : FS) (filePaths : list str) :
  checkExports pc exportDeclarations cwd fs filePaths = Ok tt
  ↔ scanTasks pc exportDeclarations cwd fs filePaths = ([], false).
Proof.
  unfold checkExports. destruct (scanTasks _ _ _ _ _) as [errs rej].
  destruct rej; [split; intros; discriminate|].
  destruct errs; simpl; split; intros; (done || discriminate).
Qed.

Lemma fixImports_ok (cwd : str) (tsconfig : option TsconfigPaths) (fs : FS)
      (filePaths : list str) (options : FixImportsOptions) :
  result (fixImports pc cwd tsconfig fs filePaths options) = Ok tt
  ↔ ∃ pathsMap, getPathsMap tsconfig = Ok pathsMap
      ∧ rejected (runTasks pc cwd pathsMap options fs filePaths) = false
      ∧ IMPORT_ERRORS (runTasks pc cwd pathsMap options fs filePaths) = [].
Proof.
  unfold fixImports, runTasks.
  destruct (getPathsMap tsconfig) as [pathsMap|message]; cbn [result].
  2:{ split; [discriminate|]. by intros (m & [=] & _). }
  rewrite settleTasks_rejected.
  destruct (rejected (foldl _ _ filePaths)) eqn:Hrej.
  - split; [discriminate|]. intros (m & [= <-] & Hr & _). congruence.
  - rewrite settleTasks_all by done.
    destruct (IMPORT_ERRORS _) eqn:Herrs; simpl.
    + split; [|done]. intros _. exists pathsMap. by rewrite Hrej, Herrs.
    + split; [discriminate|]. intros (m & [= <-] & _ & He). congruence.
Qed.

(** C8.  The exit code is 0 when the rewrite pass and the scan of the
    export declarations both end without an error, and 1 otherwise.
    The rewrite pass ends without an error exactly when the
    configuration was found, no task threw and no import error was
    collected; the scan exactly when no task threw and no export error
    was collected.  A file with a name other than [index] in which an
    export declaration is found makes the scan fail and the exit code
    1, whatever the rewrite pass did. *)
Theorem main_exit_code (cwd : str) (tsconfig : option TsconfigPaths) (fs : FS)
        (filePaths : list str) (options : FixImportsOptions) :
  let run := fixImports pc cwd tsconfig fs filePaths options in
  let scan := checkExports pc exportDeclarations cwd (files_after run) filePaths in
  let code := main pc exportDeclarations cwd tsconfig fs filePaths options in
  (code = 0 ↔ result run = Ok tt ∧ scan = Ok tt)
  ∧ (code ≠ 0 → code = 1)
  ∧ (result run = Ok tt
     ↔ ∃ pathsMap, getPathsMap tsconfig = Ok pathsMap
         ∧ rejected (runTasks pc cwd pathsMap options fs filePaths) = false
         ∧ IMPORT_ERRORS (runTasks pc cwd pathsMap options fs filePaths) = [])
  ∧ (scan = Ok tt
     ↔ scanTasks pc exportDeclarations cwd (files_after run) filePaths = ([], false))
  ∧ (∀ filePath sourceCode,
       filePath ∈ filePaths →
       name (parse filePath) ≠ "index" →
       readFile cwd (files_after run) filePath = Some sourceCode →
       exportDeclarations (base (parse filePath)) sourceCode ≠ [] →
       isErr scan = true ∧ code = 1).
Proof.
  intros run scan code.
  assert (Hcode : code = 0 ↔ result run = Ok tt ∧ scan = Ok tt).
  { unfold code, main, tsImportFix. fold run. fold scan.
    destruct (result run) as [[]|m1], scan as [[]|m2]; simpl;
      split; try done; intros [? ?]; discriminate. }
  assert (Hcases : code ≠ 0 → code = 1).
  { unfold code, main, tsImportFix. by case_bool_decide. }
  split_and!; [done | done | apply fixImports_ok | apply checkExports_ok |].
  intros filePath sourceCode Hin Hname Hread Hdecls.
  assert (Hscan : scan ≠ Ok tt).
  { intros Hok%checkExports_ok.
    pose proof (scan_offender cwd (files_after run) filePaths ([], false)
                  filePath sourceCode Hin Hname Hread Hdecls) as Hdirty.
    unfold scanTasks in Hok. rewrite Hok in Hdirty. by destruct Hdirty. }
  split.
  - destruct scan as [[]|m]; [done|reflexivity].
  - apply Hcases. intros [_ ?]%Hcode. done.
Qed.

End exit_code.

(** The theorem at a run in which the rewrite pass succeeds: the one
    file re-exports from a path that needs no rewriting, and the parser
    is taken to report the whole text as one declaration. *)
Lemma main_exit_code_witness :
  let pc : Fix.Console :=
    {| Fix.greenBright := id; Fix.blue := id; Fix.redBright := id; Fix.dim := id;
       Fix.crossMark := "x"; Fix.checkMark := "v" |} in
  let parser (fileName sourceCode : str) := [sourceCode] in
  let source : str := "export * from " ++ [DQUOTE] ++ "~/b.ts" ++ [DQUOTE] in
  let fs : Fix.FS := <[("/proj/src/a.ts" : str) := Fix.File source]> Scenario.fs in
  let options := Scenario.options false false in
  Fix.result (Fix.fixImports pc Scenario.cwd (Some Scenario.paths) fs
                [("src/a.ts" : str)] options) = Fix.Ok tt
  ∧ Fix.main pc parser Scenario.cwd (Some Scenario.paths) fs [("src/a.ts" : str)] options = 1.
Proof.
  intros pc parser source fs options. split; [vm_compute; reflexivity|].
  destruct (main_exit_code pc parser Scenario.cwd (Some Scenario.paths) fs
              [("src/a.ts" : str)] options) as (_ & _ & _ & _ & H).
  apply (H ("src/a.ts" : str) source).
  - apply list_elem_of_singleton. reflexivity.
  - vm_compute. discriminate.
  - vm_compute. reflexivity.
  - discriminate.
Defined.

(* ===================================================================== *)
(** * Dry run                                                              *)
(* ===================================================================== *)

(** Equations between concatenations, up to associativity. *)
Ltac app_norm := repeat (progress (simpl; rewrite <- ?app_assoc)).

Section regex_basics.

(** The replacement depends on the callback through its values only. *)
Lemma replace_go_ext (cb1 cb2 : str → str → Regex.Replaced) (s : str) (skip : nat) :
  (∀ m cap, cb1 m cap = cb2 m cap) →
  Regex.replace_go cb1 s skip = Regex.replace_go cb2 s skip.
Proof.
  intros Hcb. revert skip. induction s as [|c s IH]; intros skip; simpl; [done|].
  destruct skip as [|k]; [|by apply IH].
  destruct (Regex.matchHere (c :: s)) as [[m cap]|].
  - by rewrite Hcb, IH.
  - by rewrite IH.
Qed.

Lemma span_app (p : ascii → bool) (s : str) :
  s = (Regex.span p s).1 ++ (Regex.span p s).2.
Proof.
  induction s as [|c s IH]; simpl; [done|].
  destruct (p c); [|done]. destruct (Regex.span p s) as [a b]. simpl in *. by f_equal.
Qed.

(** A match is a non-empty prefix of the text at which it is found. *)
Lemma matchHere_prefix (s m cap : str) :
  Regex.matchHere s = Some (m, cap) → m ≠ [] ∧ ∃ rest, s = m ++ rest.
Proof.
  unfold Regex.matchHere.
  destruct (Regex.keyword s) as [kw|] eqn:Hkw; [|done].
  assert (Hs : s = kw ++ drop (length kw) s ∧ kw ≠ []).
  { unfold Regex.keyword in Hkw.
    destruct (JS.startsWith s "import") eqn:H1.
    - injection Hkw as <-. apply startsWith_spec in H1 as [r ->].
      by rewrite drop_app_length.
    - destruct (JS.startsWith s "from") eqn:H2; [|done].
      injection Hkw as <-. apply startsWith_spec in H2 as [r ->].
      by rewrite drop_app_length. }
  destruct Hs as [Hs Hkw0].
  pose proof (span_app Regex.isWhiteSpace (drop (length kw) s)) as Hws.
  destruct (Regex.span Regex.isWhiteSpace _) as [ws s2]. simpl in Hws.
  destruct ws as [|w ws]; [done|]. destruct s2 as [|q s3]; [done|].
  destruct (Regex.isQuote q); [|done].
  pose proof (span_app (λ c, negb (Regex.isQuote c)) s3) as Hcap.
  destruct (Regex.span _ s3) as [cap' s4]. simpl in Hcap.
  destruct cap' as [|c0 cap']; [done|]. destruct s4 as [|q2 s5]; [done|].
  destruct (Regex.atLineEnd s5); [|done].
  intros [= <- <-]. split; [by destruct kw|].
  exists s5. rewrite Hs at 1. rewrite Hws, Hcap. by app_norm.
Qed.

Lemma replace_go_skip (cb : str → str → Regex.Replaced) (a rest : str) :
  Regex.replace_go cb (a ++ rest) (length a) = Regex.replace_go cb rest 0.
Proof.
  induction a as [|c a IH]; simpl; [by destruct rest|]. done.
Qed.


End regex_basics.

Section dry_run.

Import Path Fix.

Context (pc : Console) (cwd : str) (pathsMap : PathsMap).

Local Abbreviation sameEntries := Spec.sameEntries.
Local Abbreviation R := (λ p : str, resolve cwd [p]).

(** *** The callback reads the disk through [existsSync] only *)

Lemma getNewExtension_loop_ext (e1 e2 : str → bool) (parts : ParsedPath) (l : list str) :
  (∀ p, e1 p = e2 p) → getNewExtension_loop e1 parts l = getNewExtension_loop e2 parts l.
Proof. intros He. induction l as [|c l IH]; simpl; [done|]. by rewrite He, IH. Qed.

Lemma transformParts_ext (e1 e2 : str → bool) (skipAlias_ : bool) (filePath importPath : str) :
  (∀ p, e1 p = e2 p) →
  transformParts e1 cwd pathsMap skipAlias_ filePath importPath
  = transformParts e2 cwd pathsMap skipAlias_ filePath importPath.
Proof.
  intros He. unfold transformParts, extensionStep, getNewExtensionPathParts.
  by rewrite (getNewExtension_loop_ext e1 e2 _ _ He).
Qed.

Lemma replacer_ext (e1 e2 : str → bool) (o1 o2 : FixImportsOptions)
      (filePath match_ importPath : str) :
  (∀ p, e1 p = e2 p) →
  importIgnoreStrings o1 = importIgnoreStrings o2 →
  skipAlias o1 = skipAlias o2 →
  replacer pc e1 cwd pathsMap o1 filePath match_ importPath
  = replacer pc e2 cwd pathsMap o2 filePath match_ importPath.
Proof.
  intros He Hi Hs. unfold replacer.
  by rewrite Hi, Hs, (transformParts_ext e1 e2 _ _ _ He).
Qed.

Lemma existsSync_sameEntries (fs1 fs2 : FS) (p : str) :
  sameEntries fs1 fs2 → existsSync cwd fs1 p = existsSync cwd fs2 p.
Proof. intros H. unfold existsSync. apply bool_decide_ext, H. Qed.

Lemma transformContent_ext (o1 o2 : FixImportsOptions) (fs1 fs2 : FS)
      (filePath content : str) :
  sameEntries fs1 fs2 →
  importIgnoreStrings o1 = importIgnoreStrings o2 →
  skipAlias o1 = skipAlias o2 →
  transformContent pc cwd pathsMap o1 fs1 filePath content
  = transformContent pc cwd pathsMap o2 fs2 filePath content.
Proof.
  intros Hfs Hi Hs. unfold transformContent, Regex.replace.
  apply replace_go_ext. intros m cap.
  apply replacer_ext; [|done..]. intros p. by apply existsSync_sameEntries.
Qed.



(** *** A dry run leaves the files alone *)



(** *** What a task leaves of the files *)

Lemma fixFile_lookup_ne (options : FixImportsOptions) (fs : FS) (st : RunState)
      (filePath q : str) :
  q ≠ R filePath →
  files (fixFile pc cwd pathsMap options fs st filePath) !! q = files st !! q.
Proof.
  intros Hq. unfold fixFile. destruct (readFile _ _ _) as [content|]; [|done].
  destruct (transformContent _ _ _ _ _ _ _) as [[t errs] logs]. simpl.
  case_bool_decide; [done|]. destruct (write options); [|done].
  unfold writeFile. by rewrite lookup_insert_ne.
Qed.

Lemma runTasks_lookup_ne (options : FixImportsOptions) (fs : FS) (st : RunState)
      (filePaths : list str) (q : str) :
  q ∉ map R filePaths →
  files (foldl (fixFile pc cwd pathsMap options fs) st filePaths) !! q = files st !! q.
Proof.
  revert st. induction filePaths as [|p l IH]; intros st; simpl; [done|].
  intros [Hq Hl]%not_elem_of_cons. by rewrite IH, fixFile_lookup_ne.
Qed.

(** A task creates no entry and removes none. *)
Lemma fixFile_entries (options : FixImportsOptions) (fs : FS) (st : RunState)
      (filePath : str) :
  sameEntries (files st) fs →
  sameEntries (files (fixFile pc cwd pathsMap options fs st filePath)) fs.
Proof.
  intros Hsame. unfold fixFile.
  destruct (readFile cwd fs filePath) as [content|] eqn:Hread; [|done].
  destruct (transformContent _ _ _ _ _ _ _) as [[t errs] logs]. simpl.
  case_bool_decide; [done|]. destruct (write options); [|done].
  intros p. unfold writeFile. destruct (decide (p = R filePath)) as [->|Hp].
  - rewrite lookup_insert_eq. split; [|by eauto]. intros _.
    unfold readFile in Hread. destruct (fs !! R filePath); [by eauto|done].
  - rewrite lookup_insert_ne by done. apply Hsame.
Qed.

Lemma runTasks_entries (options : FixImportsOptions) (fs : FS) (filePaths : list str)
      (st : RunState) :
  sameEntries (files st) fs →
  sameEntries (files (foldl (fixFile pc cwd pathsMap options fs) st filePaths)) fs.
Proof.
  revert st. induction filePaths as [|p l IH]; intros st Hsame; [done|].
  simpl foldl. by apply IH, fixFile_entries.
Qed.

(** A task leaves a directory a directory. *)
Lemma fixFile_directory (options : FixImportsOptions) (fs : FS) (st : RunState)
      (filePath q : str) :
  fs !! q = Some Directory → files st !! q = Some Directory →
  files (fixFile pc cwd pathsMap options fs st filePath) !! q = Some Directory.
Proof.
  intros Hfs Hq. unfold fixFile.
  destruct (readFile cwd fs filePath) as [content|] eqn:Hread; [|done].
  destruct (transformContent _ _ _ _ _ _ _) as [[t errs] logs]. simpl.
  case_bool_decide; [done|]. destruct (write options); [|done].
  unfold writeFile. rewrite lookup_insert_ne; [done|].
  intros <-. unfold readFile in Hread. by rewrite Hfs in Hread.
Qed.

Lemma runTasks_directory (options : FixImportsOptions) (fs : FS) (filePaths : list str)
      (st : RunState) (q : str) :
  fs !! q = Some Directory → files st !! q = Some Directory →
  files (foldl (fixFile pc cwd pathsMap options fs) st filePaths) !! q = Some Directory.
Proof.
  intros Hfs. revert st. induction filePaths as [|p l IH]; intros st Hq; [done|].
  simpl foldl. by apply IH, fixFile_directory.
Qed.

(** *** What the tasks push on the change log *)





(** *** The files after the tasks of a run in write mode *)

Lemma fixFile_contents (options : FixImportsOptions) (fs : FS) (st : RunState)
      (filePath : str) :
  write options = true →
  sameEntries (files st) fs →
  files st !! R filePath = fs !! R filePath →
  readFile cwd (files (fixFile pc cwd pathsMap options fs st filePath)) filePath
  = (λ content, (transformContent pc cwd pathsMap options fs filePath content).1.1)
      <$> readFile cwd fs filePath.
Proof.
  intros Hw Hsame Hlook.
  assert (Hread : readFile cwd (files st) filePath = readFile cwd fs filePath).
  { unfold readFile. by rewrite Hlook. }
  unfold fixFile.
  destruct (readFile cwd fs filePath) as [content|] eqn:Hcontent.
  2:{ cbn [files]. by rewrite Hread. }
  rewrite (transformContent_ext options options (files st) fs) by done.
  cbn [fmap option_fmap option_map].
  destruct (transformContent pc cwd pathsMap options fs filePath content)
    as [[t errs] logs]. simpl.
  case_bool_decide as Ht.
  - rewrite Hread. by subst t.
  - rewrite Hw. unfold readFile, writeFile. by rewrite lookup_insert_eq.
Qed.

Lemma runTasks_contents (options : FixImportsOptions) (fs : FS) (filePaths : list str)
      (st : RunState) :
  write options = true →
  NoDup (map R filePaths) →
  sameEntries (files st) fs →
  (∀ p, p ∈ filePaths → files st !! R p = fs !! R p) →
  ∀ p, p ∈ filePaths →
       readFile cwd (files (foldl (fixFile pc cwd pathsMap options fs) st filePaths)) p
       = (λ content, (transformContent pc cwd pathsMap options fs p content).1.1)
           <$> readFile cwd fs p.
Proof.
  intros Hw. revert st. induction filePaths as [|p l IH]; intros st Hnd Hsame Hlook.
  { by intros ? ?%elem_of_nil. }
  apply NoDup_cons in Hnd as [Hp Hnd]. simpl foldl.
  intros q [->|Hq]%elem_of_cons.
  - destruct (decide (p ∈ l)) as [Hin|Hin].
    { destruct Hp. by apply (list_elem_of_fmap_2 R). }
    unfold readFile at 1. rewrite runTasks_lookup_ne by done.
    apply fixFile_contents; [done..|]. apply Hlook. by left.
  - apply IH; [done|by apply fixFile_entries| |done].
    intros r Hr. rewrite fixFile_lookup_ne; [apply Hlook; by right|].
    intros Heq. apply Hp. rewrite <- Heq. by apply (list_elem_of_fmap_2 R).
Qed.

(** *** The tasks that leave the arrays of errors empty *)

Lemma fixFile_clean (options : FixImportsOptions) (fs : FS) (st : RunState)
      (filePath : str) :
  sameEntries (files st) fs →
  let st' := fixFile pc cwd pathsMap options fs st filePath in
  (rejected st' = false ∧ IMPORT_ERRORS st' = [])
  ↔ (rejected st = false ∧ IMPORT_ERRORS st = [])
    ∧ Spec.clean pc cwd pathsMap options fs filePath.
Proof.
  intros Hsame. unfold Spec.clean, fixFile.
  destruct (readFile cwd fs filePath) as [content|] eqn:Hcontent.
  2:{ simpl. split; [by intros [? _]|by intros [_ (? & ? & _)]]. }
  rewrite (transformContent_ext options options (files st) fs) by done.
  destruct (transformContent pc cwd pathsMap options fs filePath content)
    as [[t errs] logs] eqn:Ht. simpl.
  split.
  - intros [Hrej Herr]. case_bool_decide as Hlen.
    + by apply app_eq_nil in Herr as [_ ?].
    + split; [done|]. exists content. split; [done|]. rewrite Ht.
      destruct errs; [done|simpl in Hlen; lia].
  - intros [[Hrej Herr] (c & [= <-] & Hc)]. rewrite Ht in Hc. simpl in Hc. subst errs.
    done.
Qed.

Lemma runTasks_clean (options : FixImportsOptions) (fs : FS) (filePaths : list str)
      (st : RunState) :
  sameEntries (files st) fs →
  let st' := foldl (fixFile pc cwd pathsMap options fs) st filePaths in
  (rejected st' = false ∧ IMPORT_ERRORS st' = [])
  ↔ (rejected st = false ∧ IMPORT_ERRORS st = [])
    ∧ Forall (Spec.clean pc cwd pathsMap options fs) filePaths.
Proof.
  revert st. induction filePaths as [|p l IH]; intros st Hsame.
  { simpl. split; [by intros ?|by intros [? _]]. }
  simpl foldl. cbv zeta. rewrite IH by (by apply fixFile_entries).
  rewrite (fixFile_clean options fs st p Hsame), Forall_cons. tauto.
Qed.


End dry_run.

Import Path Fix.

(** The result of a run, read off the tasks. *)
Lemma fixImports_clean (pc : Console) (cwd : str) (paths : TsconfigPaths)
      (options : FixImportsOptions) (fs : FS) (filePaths : list str) :
  result (fixImports pc cwd (Some paths) fs filePaths options) = Ok tt
  ↔ Forall (Spec.clean pc cwd (Spec.loaded paths) options fs) filePaths.
Proof.
  unfold fixImports. cbn [getPathsMap result]. fold (Spec.loaded paths).
  rewrite settleTasks_rejected.
  pose proof (runTasks_clean pc cwd (Spec.loaded paths) options fs filePaths
                (initialState fs)) as H.
  cbv zeta in H. cbn [initialState files rejected IMPORT_ERRORS] in H.
  specialize (H ltac:(done)).
  destruct (rejected (foldl _ _ filePaths)) eqn:Hrej.
  - split; [done|]. intros HF. by destruct (proj2 H (conj (conj eq_refl eq_refl) HF)).
  - rewrite settleTasks_all by done.
    destruct (IMPORT_ERRORS (foldl _ _ filePaths)) as [|e errs] eqn:Herr; simpl.
    + split; [|done]. intros _. by apply H.
    + split; [done|]. intros HF. by destruct (proj2 H (conj (conj eq_refl eq_refl) HF)).
Qed.





(* ===================================================================== *)
(** * Paths as lists of segments                                           *)
(* ===================================================================== *)

Section join_facts.

Lemma join_cons (sep x : str) (l : list str) :
  l ≠ [] → JS.join sep (x :: l) = x ++ sep ++ JS.join sep l.
Proof. by destruct l. Qed.

Lemma join_snoc (sep x : str) (l : list str) :
  l ≠ [] → JS.join sep (l ++ [x]) = JS.join sep l ++ sep ++ x.
Proof.
  induction l as [|y l IH]; [done|]. intros _.
  destruct l as [|z l]; [done|].
  change ((y :: z :: l) ++ [x]) with (y :: ((z :: l) ++ [x])).
  rewrite !join_cons by (by destruct l). rewrite IH by done. by app_norm.
Qed.

Lemma join_app (sep : str) (l1 l2 : list str) :
  l1 ≠ [] → l2 ≠ [] →
  JS.join sep (l1 ++ l2) = JS.join sep l1 ++ sep ++ JS.join sep l2.
Proof.
  intros H1 H2. induction l1 as [|x l1 IH]; [done|].
  destruct l1 as [|y l1].
  - simpl app at 1. by rewrite join_cons.
  - change ((x :: y :: l1) ++ l2) with (x :: ((y :: l1) ++ l2)).
    rewrite !join_cons by done. rewrite IH by done. by app_norm.
Qed.

Lemma join_nonempty (sep : str) (l : list str) :
  l ≠ [] → Forall (λ x, x ≠ []) l → JS.join sep l ≠ [].
Proof.
  destruct l as [|x l]; [done|]. intros _ [Hx _]%Forall_cons.
  destruct l; simpl; by destruct x.
Qed.

End join_facts.

Section normalize_facts.

Import Path.

Local Abbreviation slashFree := Spec.slashFree.

Lemma lastIndexOf_from_absent (s : str) (c : ascii) (i acc : Z) :
  c ∉ s → JS.lastIndexOf_from s c i acc = acc.
Proof.
  revert i acc. induction s as [|x s IH]; intros i acc; simpl; [done|].
  intros [Hx Hs]%not_elem_of_cons. rewrite IH by done.
  by destruct (decide (x = c)) as [->|].
Qed.

Lemma lastIndexOf_from_last (a b : str) (c : ascii) (i acc : Z) :
  c ∉ b → JS.lastIndexOf_from (a ++ c :: b) c i acc = i + Z.of_nat (length a).
Proof.
  revert i acc. induction a as [|x a IH]; intros i acc Hb; simpl.
  - rewrite lastIndexOf_from_absent by done. rewrite decide_True by done. lia.
  - rewrite IH by done. lia.
Qed.

Lemma lastIndexOf_absent (s : str) (c : ascii) : c ∉ s → JS.lastIndexOf s c = -1.
Proof. apply lastIndexOf_from_absent. Qed.

Lemma lastIndexOf_last (a b : str) (c : ascii) :
  c ∉ b → JS.lastIndexOf (a ++ c :: b) c = Z.of_nat (length a).
Proof. intros Hb. unfold JS.lastIndexOf. by rewrite lastIndexOf_from_last. Qed.

(** *** The counter of dots *)

Lemma dotsOf_nil : Spec.dotsOf [] = 0.
Proof. done. Qed.

Lemma dotsOf_snoc (cur : str) (c : ascii) :
  Spec.dotsOf (cur ++ [c])
  = if bool_decide (c = CHAR_DOT) && negb (Spec.dotsOf cur =? -1)
    then Spec.dotsOf cur + 1 else -1.
Proof.
  unfold Spec.dotsOf. rewrite length_app. simpl.
  destruct (decide (Forall (λ c, c = CHAR_DOT) cur)) as [Hcur|Hcur].
  - rewrite (bool_decide_eq_true_2 _ Hcur).
    destruct (Z.eqb_spec (Z.of_nat (length cur)) (-1)) as [?|_]; [lia|].
    destruct (decide (c = CHAR_DOT)) as [Hc|Hc].
    + rewrite (bool_decide_eq_true_2 _ Hc). simpl.
      rewrite bool_decide_eq_true_2; [lia|].
      apply Forall_app. split; [done|]. by constructor.
    + rewrite (bool_decide_eq_false_2 _ Hc). simpl.
      rewrite bool_decide_eq_false_2; [done|].
      intros [_ Hc']%Forall_app. rewrite Forall_singleton in Hc'. contradiction.
  - rewrite (bool_decide_eq_false_2 _ Hcur). simpl. rewrite andb_false_r.
    rewrite bool_decide_eq_false_2; [done|]. by intros [? _]%Forall_app.
Qed.

Lemma dotsOf_1 (cur : str) : Spec.dotsOf cur = 1 ↔ cur = ".".
Proof.
  unfold Spec.dotsOf. split.
  - case_bool_decide as H; [|done]. intros Hlen.
    destruct cur as [|c [|d cur]]; simpl in Hlen; try lia.
    rewrite Forall_singleton in H. by subst.
  - intros ->. done.
Qed.

Lemma dotsOf_2 (cur : str) : Spec.dotsOf cur = 2 ↔ cur = "..".
Proof.
  unfold Spec.dotsOf. split.
  - case_bool_decide as H; [|done]. intros Hlen.
    destruct cur as [|c [|d [|e cur]]]; simpl in Hlen; try lia.
    apply Forall_cons in H as [-> H]. rewrite Forall_singleton in H. by subst.
  - intros ->. done.
Qed.

(** *** One step of the loop *)

Lemma norm_char_inv (st : NormState) (stack : list str) (cur : str) (c : ascii) :
  c ≠ CHAR_FORWARD_SLASH →
  Spec.normInv st stack cur → Spec.normInv (norm_char c st) stack (cur ++ [c]).
Proof.
  intros Hc [Hres Hseg Hdots Hlast Hstack Hcur]. split; simpl; try done.
  - by rewrite Hseg.
  - by rewrite dotsOf_snoc, Hdots.
  - unfold Spec.slashFree in *. rewrite elem_of_app, list_elem_of_singleton.
    intros [?|?]; [done|]. by apply Hc.
Qed.

(** The test that the last segment kept is [..]. *)
Lemma top_test (pre top : str) (lsl : Z) :
  lsl = Z.of_nat (length top) →
  top ≠ [] →
  let r := pre ++ top in
  let rlen := Z.of_nat (length r) in
  (rlen <? 2) || negb (lsl =? 2)
  || negb (bool_decide (JS.charCodeAt r (Z.to_nat (rlen - 1)) = Some CHAR_DOT))
  || negb (bool_decide (JS.charCodeAt r (Z.to_nat (rlen - 2)) = Some CHAR_DOT))
  = negb (bool_decide (top = "..")).
Proof.
  intros -> Hne r rlen. unfold rlen, r, JS.charCodeAt, CHAR_DOT. rewrite length_app.
  destruct top as [|t0 [|t1 [|t2 top]]]; [done| | |].
  - simpl. rewrite orb_true_r. simpl. by rewrite bool_decide_eq_false_2.
  - simpl length.
    replace (Z.to_nat (Z.of_nat (length pre + 2) - 1)) with (length pre + 1)%nat by lia.
    replace (Z.to_nat (Z.of_nat (length pre + 2) - 2)) with (length pre + 0)%nat by lia.
    rewrite !lookup_app_r by lia.
    replace (length pre + 1 - length pre)%nat with 1%nat by lia.
    replace (length pre + 0 - length pre)%nat with 0%nat by lia. simpl.
    destruct (Z.ltb_spec (Z.of_nat (length pre + 2)) 2) as [?|_]; [lia|]. simpl.
    destruct (decide (t0 = "."%char)) as [->|H0], (decide (t1 = "."%char)) as [->|H1].
    + done.
    + rewrite (bool_decide_eq_false_2 (Some t1 = _)) by congruence. simpl.
      rewrite bool_decide_eq_false_2; [done|simpl; congruence].
    + rewrite (bool_decide_eq_false_2 (Some t0 = _)) by congruence.
      rewrite orb_true_r. rewrite bool_decide_eq_false_2; [done|simpl; congruence].
    + rewrite (bool_decide_eq_false_2 (Some t0 = _)) by congruence.
      rewrite orb_true_r. rewrite bool_decide_eq_false_2; [done|simpl; congruence].
  - simpl length.
    destruct (Z.eqb_spec (Z.of_nat (S (S (S (length top))))) 2) as [?|_]; [lia|].
    simpl. rewrite orb_true_r. simpl. by rewrite bool_decide_eq_false_2.
Qed.

Lemma join_snoc_pre (init : list str) (top : str) :
  JS.join "/" (init ++ [top])
  = (if bool_decide (init = []) then [] else JS.join "/" init ++ "/") ++ top.
Proof.
  destruct init as [|x init]; [done|].
  rewrite bool_decide_eq_false_2 by done. rewrite join_snoc by done. by app_norm.
Qed.

Lemma join_lastIndexOf (init : list str) (top : str) :
  slashFree top →
  JS.lastIndexOf (JS.join "/" (init ++ [top])) CHAR_FORWARD_SLASH
  = if bool_decide (init = []) then -1 else Z.of_nat (length (JS.join "/" init)).
Proof.
  intros Htop. destruct init as [|x init].
  - simpl. by apply lastIndexOf_absent.
  - rewrite bool_decide_eq_false_2 by done. rewrite join_snoc by done.
    by apply lastIndexOf_last.
Qed.

Lemma join_length_pos (l : list str) :
  l ≠ [] → Forall (λ x, x ≠ [] ∧ slashFree x) l → (1 ≤ length (JS.join "/" l))%nat.
Proof.
  intros Hne Hl.
  assert (JS.join "/" l ≠ []) as H.
  { apply join_nonempty; [done|]. eapply Forall_impl; [done|]. by intros ? [? _]. }
  destruct (JS.join "/" l); [done|simpl; lia].
Qed.

Lemma norm_next_inv (stack : list str) (r : str) (l : Z) :
  r = JS.join "/" stack →
  l = Z.of_nat (length (default [] (last stack))) →
  Forall (λ x, x ≠ [] ∧ slashFree x) stack →
  Spec.normInv (norm_next r l) stack [].
Proof.
  intros -> -> H. split; simpl; try done. unfold Spec.slashFree. apply not_elem_of_nil.
Qed.

Lemma join_snoc_length (init : list str) (x : str) :
  Z.of_nat (length (JS.join "/" (init ++ [x]))) - 1
  - (if bool_decide (init = []) then -1 else Z.of_nat (length (JS.join "/" init)))
  = Z.of_nat (length x).
Proof.
  rewrite join_snoc_pre, length_app.
  case_bool_decide; [simpl; lia|]. rewrite length_app. simpl. lia.
Qed.

Lemma dotdot_ok : (".." : str) ≠ [] ∧ slashFree "..".
Proof. split; [done|]. unfold Spec.slashFree. compute_done. Qed.

Lemma norm_sep_inv (a : bool) (st : NormState) (stack : list str) (cur : str) :
  Spec.normInv st stack cur →
  Spec.normInv (norm_sep a st) (Spec.seg_step a stack cur) [].
Proof.
  intros [Hres Hseg Hdots Hlast Hstack Hcur].
  unfold norm_sep, Spec.seg_step. rewrite Hseg, Hdots.
  assert ((Spec.dotsOf cur =? 1) = bool_decide (cur = ".")) as ->.
  { destruct (Z.eqb_spec (Spec.dotsOf cur) 1) as [H|H]; symmetry.
    - by apply bool_decide_eq_true_2, dotsOf_1.
    - apply bool_decide_eq_false_2. by rewrite <- dotsOf_1. }
  assert ((Spec.dotsOf cur =? 2) = bool_decide (cur = "..")) as ->.
  { destruct (Z.eqb_spec (Spec.dotsOf cur) 2) as [H|H]; symmetry.
    - by apply bool_decide_eq_true_2, dotsOf_2.
    - apply bool_decide_eq_false_2. by rewrite <- dotsOf_2. }
  destruct (bool_decide (cur = []) || bool_decide (cur = ".")) eqn:Hskip.
  { by apply norm_next_inv. }
  apply orb_false_iff in Hskip as [Hnil%bool_decide_eq_false _].
  destruct (bool_decide (cur = "..")) eqn:Hdd.
  - (* the segment [..] *)
    destruct stack as [|top init _] using rev_ind.
    + simpl in Hres, Hlast. rewrite Hres. simpl. unfold norm_above. rewrite Hres. simpl.
      destruct a; apply norm_next_inv; try done.
      repeat constructor; apply dotdot_ok.
    + rewrite last_snoc. rewrite last_snoc in Hlast. simpl in Hlast.
      pose proof Hstack as [Hinit Htop]%Forall_app.
      rewrite Forall_singleton in Htop. destruct Htop as [Htop0 Htop1].
      assert (Hpos : (1 ≤ length (JS.join "/" (init ++ [top])))%nat)
        by (apply join_length_pos; [by destruct init|done]).
      rewrite Hres.
      pose proof (top_test (if bool_decide (init = []) then [] else JS.join "/" init ++ "/")
                    top _ Hlast Htop0) as Htest.
      cbv zeta in Htest. rewrite <- join_snoc_pre in Htest. rewrite Htest. clear Htest.
      destruct (bool_decide (top = "..")) eqn:Htopdd; cbn [negb].
      * (* nothing to remove *)
        unfold norm_above. rewrite Hres.
        destruct a; apply norm_next_inv; try done.
        -- rewrite bool_decide_eq_true_2 by lia.
           rewrite (join_snoc "/" "..") by (by destruct init). reflexivity.
        -- by rewrite last_snoc.
        -- apply Forall_app. split; [done|]. repeat constructor; apply dotdot_ok.
        -- by rewrite last_snoc.
      * (* the last segment goes *)
        rewrite removelast_last.
        destruct (Z.ltb_spec 2 (Z.of_nat (length (JS.join "/" (init ++ [top])))))
          as [Hlong|Hshort].
        -- rewrite join_lastIndexOf by done.
           destruct init as [|x init _] using rev_ind.
           ++ simpl. by apply norm_next_inv.
           ++ rewrite bool_decide_eq_false_2 by (by destruct init).
              destruct (Z.eqb_spec (Z.of_nat (length (JS.join "/" (init ++ [x])))) (-1))
                as [?|_]; [lia|].
              rewrite (join_snoc "/" top) by (by destruct init).
              rewrite slice_to, take_app_length.
              apply Forall_app in Hinit as [Hinit Hx].
              rewrite Forall_singleton in Hx. destruct Hx as [Hx0 Hx1].
              rewrite join_lastIndexOf by done.
              apply norm_next_inv; [done| |].
              ** rewrite last_snoc. apply join_snoc_length.
              ** apply Forall_app. split; [done|]. by constructor.
        -- assert (init = []) as ->.
           { destruct init as [|x init]; [done|]. exfalso.
             rewrite join_snoc in Hshort by done. rewrite !length_app in Hshort.
             assert (1 ≤ length (JS.join "/" (x :: init)))%nat
               by (by apply join_length_pos).
             assert (1 ≤ length top)%nat by (destruct top; [done|simpl; lia]).
             change (length ("/" : str)) with 1%nat in Hshort. lia. }
           simpl. destruct (Z.eqb_spec (Z.of_nat (length top)) 0) as [H0|_].
           ++ destruct top; [done|simpl in H0; lia].
           ++ simpl. by apply norm_next_inv.
  - (* a segment to keep *)
    apply norm_next_inv.
    + rewrite Hres. destruct stack as [|x stack]; [done|].
      assert (1 ≤ length (JS.join "/" (x :: stack)))%nat by (by apply join_length_pos).
      destruct (Z.ltb_spec 0 (Z.of_nat (length (JS.join "/" (x :: stack))))) as [_|?]; [|lia].
      by rewrite join_snoc.
    + by rewrite last_snoc.
    + apply Forall_app. split; [done|]. by repeat constructor.
Qed.

(** *** The whole loop *)

Lemma norm_step_inv (a : bool) (st : NormState) (stack : list str) (cur : str) (c : ascii) :
  Spec.normInv st stack cur →
  Spec.normInv (norm_step a st c) (Spec.seg_char a (stack, cur) c).1
               (Spec.seg_char a (stack, cur) c).2.
Proof.
  intros Hinv. unfold norm_step, Spec.seg_char, isPosixPathSeparator.
  case_bool_decide as Hc; simpl.
  - by apply norm_sep_inv.
  - by apply norm_char_inv.
Qed.

Lemma norm_fold_inv (a : bool) (path : str) (st : NormState) (stack : list str) (cur : str) :
  Spec.normInv st stack cur →
  Spec.normInv (foldl (norm_step a) st path)
               (foldl (Spec.seg_char a) (stack, cur) path).1
               (foldl (Spec.seg_char a) (stack, cur) path).2.
Proof.
  revert st stack cur. induction path as [|c path IH]; intros st stack cur Hinv; [done|].
  simpl. pose proof (norm_step_inv a st stack cur c Hinv) as Hstep.
  destruct (Spec.seg_char a (stack, cur) c) as [stack' cur']. by apply IH.
Qed.

Lemma norm_init_inv : Spec.normInv norm_init [] [].
Proof. split; try done. unfold Spec.slashFree. apply not_elem_of_nil. Qed.

(** After a separator no segment is being read. *)
Lemma seg_fold_last_sep (a : bool) (path : str) (st : list str * str) :
  last path = Some CHAR_FORWARD_SLASH →
  (foldl (Spec.seg_char a) st path).2 = [].
Proof.
  destruct path as [|c path _] using rev_ind; [done|].
  rewrite last_snoc. intros [= ->]. rewrite foldl_snoc.
  unfold Spec.seg_char, isPosixPathSeparator. by rewrite bool_decide_eq_true_2.
Qed.

(** [normalizeString] keeps the segments that [normalizeSegments]
    computes. *)
Theorem normalizeString_segments (path : str) (allowAboveRoot : bool) :
  normalizeString path allowAboveRoot
  = JS.join "/" (Spec.normalizeSegments allowAboveRoot path).
Proof.
  unfold normalizeString, Spec.normalizeSegments.
  pose proof (norm_fold_inv allowAboveRoot path norm_init [] [] norm_init_inv) as Hinv.
  pose proof (norm_sep_inv allowAboveRoot _ _ _ Hinv) as Hsep.
  destruct (last path) as [c|] eqn:Hlast.
  - unfold isPosixPathSeparator. case_bool_decide as Hc; [|by destruct Hsep].
    subst c. pose proof (seg_fold_last_sep allowAboveRoot path ([], []) Hlast) as Hcur.
    rewrite Hcur. destruct Hinv as [Hres _ _ _ _ _]. rewrite Hres.
    unfold Spec.seg_step. by rewrite bool_decide_eq_true_2.
  - by destruct Hsep.
Qed.

End normalize_facts.

(* ===================================================================== *)
(** * Resolved paths                                                       *)
(* ===================================================================== *)

Section resolve_facts.

Import Path.

Local Abbreviation slashFree := Spec.slashFree.
Local Abbreviation cleanSegment := Spec.cleanSegment.
Local Abbreviation closed := Spec.closed.
Local Abbreviation absolute := Spec.absolute.

Lemma seg_fold_slashFree (a : bool) (b : str) (stack : list str) (cur : str) :
  slashFree b → foldl (Spec.seg_char a) (stack, cur) b = (stack, cur ++ b).
Proof.
  revert cur. induction b as [|c b IH]; intros cur Hb; simpl.
  - by rewrite app_nil_r.
  - apply not_elem_of_cons in Hb as [Hc Hb].
    unfold Spec.seg_char at 2, isPosixPathSeparator.
    rewrite bool_decide_eq_false_2 by done. simpl.
    rewrite IH by done. by rewrite <- app_assoc.
Qed.

Lemma seg_step_clean (a : bool) (stack : list str) (b : str) :
  cleanSegment b → Spec.seg_step a stack b = stack ++ [b].
Proof.
  intros (Hne & Hsf & Hd & Hdd). unfold Spec.seg_step.
  by rewrite !bool_decide_eq_false_2 by done.
Qed.

Lemma seg_step_nil (a : bool) (stack : list str) : Spec.seg_step a stack [] = stack.
Proof. done. Qed.

Lemma seg_fold_sep (a : bool) (stack : list str) (cur : str) :
  foldl (Spec.seg_char a) (stack, cur) "/" = (Spec.seg_step a stack cur, []).
Proof. done. Qed.

Lemma seg_fold_clean (a : bool) (stack : list str) (b : str) :
  cleanSegment b →
  foldl (Spec.seg_char a) (stack, []) (b ++ "/") = (stack ++ [b], []).
Proof.
  intros Hb. rewrite foldl_app, seg_fold_slashFree by apply Hb.
  simpl app. by rewrite seg_fold_sep, seg_step_clean.
Qed.

Lemma seg_fold_join (a : bool) (stack : list str) (segs : list str) :
  Forall cleanSegment segs →
  foldl (Spec.seg_char a) (stack, []) (JS.join "/" segs ++ "/") = (stack ++ segs, []).
Proof.
  revert stack. induction segs as [|b segs IH]; intros stack Hsegs.
  - simpl. by rewrite app_nil_r.
  - apply Forall_cons in Hsegs as [Hb Hsegs]. destruct segs as [|b' segs].
    + simpl JS.join. by apply seg_fold_clean.
    + rewrite join_cons by done. rewrite <- !app_assoc.
      rewrite (app_assoc b), foldl_app, seg_fold_clean by done.
      rewrite IH by done. by rewrite <- app_assoc.
Qed.

(** With [allowAboveRoot] off only clean segments are kept. *)
Lemma seg_step_keeps_clean (stack : list str) (cur : str) :
  Forall cleanSegment stack → slashFree cur →
  Forall cleanSegment (Spec.seg_step false stack cur).
Proof.
  intros Hstack Hcur. unfold Spec.seg_step.
  destruct (bool_decide (cur = []) || bool_decide (cur = ".")) eqn:Hskip; [done|].
  apply orb_false_iff in Hskip as [Hnil%bool_decide_eq_false Hdot%bool_decide_eq_false].
  case_bool_decide as Hdd.
  - destruct stack as [|top init _] using rev_ind; [done|].
    rewrite last_snoc. apply Forall_app in Hstack as [Hinit Htop].
    rewrite Forall_singleton in Htop.
    rewrite bool_decide_eq_false_2 by apply Htop. by rewrite removelast_last.
  - apply Forall_app. split; [done|]. by repeat constructor.
Qed.

Lemma seg_fold_keeps_clean (path : str) (stack : list str) (cur : str) :
  Forall cleanSegment stack → slashFree cur →
  Forall cleanSegment (foldl (Spec.seg_char false) (stack, cur) path).1
  ∧ slashFree (foldl (Spec.seg_char false) (stack, cur) path).2.
Proof.
  revert stack cur. induction path as [|c path IH]; intros stack cur Hstack Hcur; [done|].
  simpl. unfold Spec.seg_char at 2 4, isPosixPathSeparator. case_bool_decide as Hc; simpl.
  - apply IH; [by apply seg_step_keeps_clean|]. apply not_elem_of_nil.
  - apply IH; [done|]. unfold Spec.slashFree in *.
    rewrite elem_of_app, list_elem_of_singleton. intros [?|?]; [done|]. by apply Hc.
Qed.

Lemma normalizeSegments_clean (path : str) :
  Forall cleanSegment (Spec.normalizeSegments false path).
Proof.
  unfold Spec.normalizeSegments.
  destruct (seg_fold_keeps_clean path [] []) as [H1 H2]; [done|apply not_elem_of_nil|].
  by apply seg_step_keeps_clean.
Qed.

Lemma normalizeSegments_closed (a : bool) (path : str) :
  closed path →
  foldl (Spec.seg_char a) ([], []) path = (Spec.normalizeSegments a path, []).
Proof.
  unfold Spec.normalizeSegments. intros [->|Hlast]; [done|].
  pose proof (seg_fold_last_sep a path ([], []) Hlast) as Hcur.
  destruct (foldl _ _ path) as [stack cur]. simpl in *. by subst.
Qed.

(** The segments of [path] followed by clean segments. *)
Lemma normalizeSegments_app_join (a : bool) (path : str) (segs : list str) :
  closed path → Forall cleanSegment segs →
  Spec.normalizeSegments a (path ++ JS.join "/" segs ++ "/")
  = Spec.normalizeSegments a path ++ segs.
Proof.
  intros Hpath Hsegs. unfold Spec.normalizeSegments at 1.
  by rewrite foldl_app, normalizeSegments_closed, seg_fold_join.
Qed.

Lemma closed_app (p q : str) : closed q → q ≠ [] → closed (p ++ q).
Proof.
  intros [->|Hq] Hne; [done|]. right.
  destruct q as [|c q _] using rev_ind; [done|].
  rewrite last_snoc in Hq. rewrite (app_assoc p q [c]), last_snoc. done.
Qed.

Lemma closed_snoc (p : str) : closed (p ++ "/").
Proof. right. apply (last_snoc (A:=ascii)). Qed.

(** *** [resolve] *)

Lemma charCodeAt_0 (path : str) :
  bool_decide (JS.charCodeAt path 0 = Some CHAR_FORWARD_SLASH) = JS.startsWith path "/".
Proof.
  destruct path as [|c path]; [done|]. simpl. unfold JS.charCodeAt. simpl.
  rewrite andb_true_r. apply bool_decide_ext. unfold CHAR_FORWARD_SLASH. naive_solver.
Qed.

Lemma resolve_loop_absolute (cwd : str) (rargs : list str) (acc : str) :
  absolute cwd → (resolve_loop cwd rargs acc).2 = true.
Proof.
  intros Hcwd. revert acc. induction rargs as [|p rargs IH]; intros acc; simpl.
  - rewrite bool_decide_eq_false_2 by (by destruct cwd). simpl.
    by rewrite charCodeAt_0.
  - case_bool_decide; [by apply IH|]. rewrite charCodeAt_0.
    destruct (JS.startsWith p "/"); [done|by apply IH].
Qed.

(** With an absolute working directory [resolve] returns the absolute
    path of the normalised segments. *)
Lemma resolve_absPath (cwd : str) (args : list str) :
  absolute cwd →
  resolve cwd args
  = Spec.absPath (Spec.normalizeSegments false (resolve_loop cwd (reverse args) []).1).
Proof.
  intros Hcwd. unfold resolve.
  pose proof (resolve_loop_absolute cwd (reverse args) [] Hcwd) as Habs.
  destruct (resolve_loop cwd (reverse args) []) as [rp abs]. simpl in Habs. subst abs.
  simpl. by rewrite normalizeString_segments.
Qed.

Lemma resolve_loop_1 (cwd d : str) :
  absolute cwd → (resolve_loop cwd [d] []).1 = Spec.resolvePrefix cwd d false.
Proof.
  intros Hcwd. unfold Spec.resolvePrefix. cbn [resolve_loop].
  rewrite (bool_decide_eq_false_2 (cwd = [])) by (by destruct cwd).
  case_bool_decide; [reflexivity|]. rewrite charCodeAt_0.
  destruct (JS.startsWith d "/"); cbn [fst]; [reflexivity|by app_norm].
Qed.

Lemma resolve_loop_2 (cwd d y : str) :
  absolute cwd → y ≠ [] →
  (resolve_loop cwd [y; d] []).1 = Spec.resolvePrefix cwd d (JS.startsWith y "/") ++ y ++ "/".
Proof.
  intros Hcwd Hy. unfold Spec.resolvePrefix. cbn [resolve_loop].
  rewrite (bool_decide_eq_false_2 (y = [])) by done. rewrite charCodeAt_0.
  rewrite (bool_decide_eq_false_2 (cwd = [])) by (by destruct cwd).
  destruct (JS.startsWith y "/"); cbn [fst]; [reflexivity|].
  case_bool_decide; [by app_norm|]. rewrite charCodeAt_0.
  destruct (JS.startsWith d "/"); cbn [fst]; by app_norm.
Qed.

Lemma resolvePrefix_closed (cwd d : str) (b : bool) : closed (Spec.resolvePrefix cwd d b).
Proof.
  unfold Spec.resolvePrefix. destruct b; [by left|].
  case_bool_decide; [apply closed_snoc|].
  destruct (JS.startsWith d "/"); [apply closed_snoc|].
  rewrite !app_assoc. apply closed_snoc.
Qed.

Lemma resolve_dir (cwd d : str) :
  absolute cwd → resolve cwd [d] = Spec.absPath (Spec.dirSegments cwd d).
Proof.
  intros Hcwd. rewrite resolve_absPath by done.
  change (reverse [d]) with [d]. by rewrite resolve_loop_1.
Qed.

(** A clean path under a directory. *)
Lemma resolve_under (cwd d : str) (rs : list str) :
  absolute cwd → rs ≠ [] → Forall cleanSegment rs →
  resolve cwd [d; JS.join "/" rs] = Spec.absPath (Spec.dirSegments cwd d ++ rs).
Proof.
  intros Hcwd Hne Hrs.
  assert (Hj : JS.join "/" rs ≠ []).
  { apply join_nonempty; [done|]. eapply Forall_impl; [done|]. by intros ? [? _]. }
  assert (Hrel : JS.startsWith (JS.join "/" rs) "/" = false).
  { destruct rs as [|b rs]; [done|]. apply Forall_cons in Hrs as [(Hb0 & Hb1 & _) _].
    destruct b as [|c b]; [done|]. apply not_elem_of_cons in Hb1 as [Hc _].
    destruct rs; simpl; rewrite andb_true_r; by apply bool_decide_eq_false_2. }
  rewrite resolve_absPath by done.
  change (reverse [d; JS.join "/" rs]) with [JS.join "/" rs; d].
  rewrite resolve_loop_2, Hrel by done.
  rewrite normalizeSegments_app_join; [done| apply resolvePrefix_closed | done].
Qed.

(** A path that ends in a clean segment [b], after a part [Y] that is
    empty or ends with a separator: the last segment of the resolved
    path is [b], and the segments before it do not depend on [b]. *)
Lemma resolve_file (cwd d Y b : str) :
  absolute cwd → closed Y → cleanSegment b →
  resolve cwd [d; Y ++ b] = Spec.absPath (Spec.dirSegmentsOf cwd d Y ++ [b]).
Proof.
  intros Hcwd HY Hb.
  assert (Hne : Y ++ b ≠ []).
  { destruct Hb as [Hb _]. destruct Y; [done|done]. }
  assert (Habs : JS.startsWith (Y ++ b) "/" = JS.startsWith Y "/").
  { destruct Y as [|c Y]; [|done]. destruct Hb as (Hb0 & Hb1 & _).
    destruct b as [|c b]; [done|]. apply not_elem_of_cons in Hb1 as [Hc _].
    simpl. rewrite andb_true_r. by apply bool_decide_eq_false_2. }
  rewrite resolve_absPath by done.
  change (reverse [d; Y ++ b]) with [Y ++ b; d].
  rewrite resolve_loop_2, Habs by done. unfold Spec.dirSegmentsOf.
  rewrite <- (app_assoc Y). rewrite app_assoc.
  change (b ++ "/") with (JS.join "/" [b] ++ "/").
  rewrite normalizeSegments_app_join; [done| |by constructor].
  destruct HY as [->|HY].
  - rewrite app_nil_r. apply resolvePrefix_closed.
  - apply closed_app; [by right|]. by destruct Y.
Qed.

(** Resolving a resolved path gives it back. *)
Lemma resolve_idem (cwd : str) (segs : list str) :
  absolute cwd → Forall cleanSegment segs →
  resolve cwd [Spec.absPath segs] = Spec.absPath segs.
Proof.
  intros Hcwd Hsegs. rewrite resolve_absPath by done.
  change (reverse [Spec.absPath segs]) with [Spec.absPath segs].
  rewrite resolve_loop_1 by done. unfold Spec.resolvePrefix, Spec.absPath.
  rewrite bool_decide_eq_false_2 by done.
  change (JS.startsWith ("/" ++ JS.join "/" segs) "/") with true. cbv iota.
  rewrite <- app_assoc.
  rewrite normalizeSegments_app_join; [done|apply (closed_snoc [])|done].
Qed.

End resolve_facts.

(* ===================================================================== *)
(** * Parsed paths                                                         *)
(* ===================================================================== *)

Section parse_facts.

Import Path.

Local Abbreviation slashFree := Spec.slashFree.

Lemma parse_result (path : str) :
  path ≠ [] →
  parse path
  = Spec.parseResult path (JS.startsWith path "/")
      (parse_loop (reverse (drop (if JS.startsWith path "/" then 1 else 0)%nat path))
                  (Z.of_nat (length path) - 1) Spec.parseInit).
Proof.
  intros Hne. unfold parse. rewrite bool_decide_eq_false_2 by (by destruct path).
  rewrite charCodeAt_0. by destruct (JS.startsWith path "/").
Qed.

(** *** The loop over the last segment *)

Lemma parse_loop_segment (rb rest : str) (i : Z) (st : ParseState) :
  slashFree rb →
  parse_loop (rb ++ rest) i st
  = parse_loop rest (i - Z.of_nat (length rb)) (Spec.scanSegment rb i st).
Proof.
  revert i st. induction rb as [|c rb IH]; intros i st Hrb; simpl.
  - by rewrite Z.sub_0_r.
  - apply not_elem_of_cons in Hrb as [Hc Hrb].
    rewrite bool_decide_eq_false_2 by done. rewrite IH by done. f_equal. lia.
Qed.

Lemma lastDot_snoc (b : str) (c : ascii) :
  Spec.lastDot (b ++ [c])
  = if bool_decide (c = CHAR_DOT) then Some (length b) else Spec.lastDot b.
Proof.
  induction b as [|d b IH]; simpl.
  - by case_bool_decide.
  - rewrite IH. case_bool_decide; [done|]. done.
Qed.

Lemma lastDot_lt (b : str) (j : nat) : Spec.lastDot b = Some j → (j < length b)%nat.
Proof.
  revert j. induction b as [|c b IH]; intros j; simpl; [done|].
  destruct (Spec.lastDot b) as [j'|].
  - intros [= <-]. specialize (IH j' eq_refl). lia.
  - case_bool_decide; [|done]. intros [= <-]. lia.
Qed.

(** The characters to the left of the last dot only move
    [preDotState]. *)
Lemma scan_before_dot (n : str) (i : Z) (st : ParseState) :
  startDot st ≠ -1 → end_ st ≠ -1 →
  Spec.scanSegment (reverse n) i st
  = {| startDot := startDot st; startPart := startPart st; end_ := end_ st;
       matchedSlash := matchedSlash st;
       preDotState := match head n with
                      | None => preDotState st
                      | Some c => if bool_decide (c = CHAR_DOT) then 1 else -1
                      end |}.
Proof.
  revert i st. induction n as [|c n IH] using rev_ind; intros i st Hsd Hend.
  - by destruct st.
  - rewrite reverse_snoc. simpl.
    assert (Hstep : parse_char c i st
                    = {| startDot := startDot st; startPart := startPart st;
                         end_ := end_ st; matchedSlash := matchedSlash st;
                         preDotState := if bool_decide (c = CHAR_DOT) then 1 else -1 |}).
    { unfold parse_char.
      destruct (Z.eqb_spec (end_ st) (-1)) as [?|_]; [done|].
      destruct (Z.eqb_spec (startDot st) (-1)) as [?|_]; [done|].
      case_bool_decide; simpl; [|done].
      destruct (Z.eqb_spec (preDotState st) 1) as [Hp|_]; simpl; [|done].
      destruct st; simpl in *; by subst. }
    rewrite Hstep, IH by done. simpl. f_equal.
    destruct n as [|d n]; [done|]. done.
Qed.

(** The loop over a whole segment, from a state without a dot yet, in
    which the end is [e], or -1 when no character was read. *)
Lemma scan_segment (b : str) (i e : Z) :
  Z.of_nat (length b) - 1 ≤ i →
  Spec.scanSegment (reverse b) i
    {| startDot := -1; startPart := 0; end_ := e;
       matchedSlash := bool_decide (e = -1); preDotState := 0 |}
  = {| startDot := match Spec.lastDot b with
                   | Some j => Z.of_nat j + (i - Z.of_nat (length b) + 1)
                   | None => -1
                   end;
       startPart := 0;
       end_ := if bool_decide (b = []) then e else if bool_decide (e = -1) then i + 1 else e;
       matchedSlash := if bool_decide (b = []) then bool_decide (e = -1) else false;
       preDotState := Spec.pdsOf b |}.
Proof.
  revert i e. induction b as [|c b IH] using rev_ind; intros i e Hi.
  - done.
  - rewrite reverse_snoc. simpl. rewrite lastDot_snoc.
    rewrite (bool_decide_eq_false_2 (b ++ [c] = [])) by (by destruct b).
    unfold Spec.pdsOf. rewrite lastDot_snoc. rewrite length_app in *. simpl in Hi |- *.
    unfold parse_char. simpl.
    destruct (decide (c = CHAR_DOT)) as [->|Hc].
    + rewrite !bool_decide_eq_true_2 by done. simpl.
      set (e' := if bool_decide (e = -1) then i + 1 else e).
      assert (He' : e' ≠ -1).
      { unfold e'. destruct (decide (e = -1)) as [He|He].
        - rewrite bool_decide_eq_true_2 by done. lia.
        - by rewrite bool_decide_eq_false_2 by done. }
      assert ((if e =? -1
               then {| startDot := -1; startPart := 0; end_ := i + 1;
                       matchedSlash := false; preDotState := 0 |}
               else {| startDot := -1; startPart := 0; end_ := e;
                       matchedSlash := bool_decide (e = -1); preDotState := 0 |})
              = {| startDot := -1; startPart := 0; end_ := e';
                   matchedSlash := false; preDotState := 0 |}) as ->.
      { unfold e'. destruct (Z.eqb_spec e (-1)) as [->|He]; [done|].
        by rewrite !bool_decide_eq_false_2 by done. }
      simpl. rewrite scan_before_dot by (simpl; lia). simpl. f_equal.
      * lia.
      * destruct b as [|d b]; [done|]. simpl.
        apply (f_equal (λ x : bool, if x then 1 else -1)).
        apply bool_decide_ext. naive_solver.
    + rewrite !(bool_decide_eq_false_2 (c = CHAR_DOT)) by done. simpl.
      set (e' := if bool_decide (e = -1) then i + 1 else e).
      assert (He' : e' ≠ -1).
      { unfold e'. destruct (decide (e = -1)) as [He|He].
        - rewrite bool_decide_eq_true_2 by done. lia.
        - by rewrite bool_decide_eq_false_2 by done. }
      assert ((if e =? -1
               then {| startDot := -1; startPart := 0; end_ := i + 1;
                       matchedSlash := false; preDotState := 0 |}
               else {| startDot := -1; startPart := 0; end_ := e;
                       matchedSlash := bool_decide (e = -1); preDotState := 0 |})
              = {| startDot := -1; startPart := 0; end_ := e';
                   matchedSlash := bool_decide (e' = -1); preDotState := 0 |}) as ->.
      { rewrite (bool_decide_eq_false_2 (e' = -1)) by done.
        unfold e'. destruct (Z.eqb_spec e (-1)) as [->|He]; [done|].
        by rewrite !bool_decide_eq_false_2 by done. }
      simpl. rewrite IH by lia. f_equal.
      * destruct (Spec.lastDot b); [lia|done].
      * rewrite (bool_decide_eq_false_2 (e' = -1)) by done. by case_bool_decide.
      * rewrite (bool_decide_eq_false_2 (e' = -1)) by done. by case_bool_decide.
      * unfold Spec.pdsOf. destruct (Spec.lastDot b) as [[|j]|] eqn:Hld; try done.
        destruct b as [|d b]; [done|]. done.
Qed.

(** *** Slices of a path that ends with the segment *)

Lemma slice_app_shift (P b : str) (x y : Z) :
  0 ≤ x → 0 ≤ y →
  JS.slice (P ++ b) (x + Z.of_nat (length P)) (Some (y + Z.of_nat (length P)))
  = JS.slice b x (Some y).
Proof.
  intros Hx Hy. unfold JS.slice. rewrite length_app.
  destruct (Z.ltb_spec (x + Z.of_nat (length P)) 0) as [?|_]; [lia|].
  destruct (Z.ltb_spec (y + Z.of_nat (length P)) 0) as [?|_]; [lia|].
  destruct (Z.ltb_spec x 0) as [?|_]; [lia|].
  destruct (Z.ltb_spec y 0) as [?|_]; [lia|].
  replace (Z.to_nat (Z.min (x + Z.of_nat (length P)) (Z.of_nat (length P + length b))))
    with (length P + Z.to_nat (Z.min x (Z.of_nat (length b))))%nat by lia.
  rewrite drop_app_add'  by done. f_equal. lia.
Qed.

Lemma slice_whole (b : str) : JS.slice b 0 (Some (Z.of_nat (length b))) = b.
Proof. rewrite slice_to. by apply take_ge. Qed.

Lemma slice_drop_to (b : str) (j : nat) :
  (j ≤ length b)%nat → JS.slice b (Z.of_nat j) (Some (Z.of_nat (length b))) = drop j b.
Proof.
  intros Hj. unfold JS.slice.
  destruct (Z.ltb_spec (Z.of_nat j) 0) as [?|_]; [lia|].
  destruct (Z.ltb_spec (Z.of_nat (length b)) 0) as [?|_]; [lia|].
  rewrite !Z.min_l by lia. rewrite Nat2Z.id. apply take_ge. rewrite length_drop. lia.
Qed.

Lemma slice_app_base (P b : str) :
  JS.slice (P ++ b) (Z.of_nat (length P))
           (Some (Z.of_nat (length b) + Z.of_nat (length P))) = b.
Proof.
  rewrite <- (Z.add_0_l (Z.of_nat (length P))) at 1.
  rewrite slice_app_shift by lia. apply slice_whole.
Qed.

Lemma slice_app_name (P b : str) (j : nat) :
  JS.slice (P ++ b) (Z.of_nat (length P)) (Some (Z.of_nat j + Z.of_nat (length P)))
  = take j b.
Proof.
  rewrite <- (Z.add_0_l (Z.of_nat (length P))) at 1.
  rewrite slice_app_shift by lia. apply slice_to.
Qed.

Lemma lastDot_lookup (b : str) (j : nat) :
  Spec.lastDot b = Some j → b !! j = Some CHAR_DOT.
Proof.
  revert j. induction b as [|c b IH]; intros j; simpl; [done|].
  destruct (Spec.lastDot b) as [j'|].
  - intros [= <-]. by apply IH.
  - case_bool_decide; [|done]. intros [= <-]. by subst.
Qed.

(** The third test of [parse]: the segment is [..]. *)
Lemma dotdot_test (b : str) (j : nat) :
  Spec.lastDot b = Some (S j) →
  (Spec.pdsOf b = 1 ∧ S j = (length b - 1)%nat ∧ S j = 1%nat) ↔ b = "..".
Proof.
  intros Hld. split.
  - intros (Hp & Hlen & Hj). injection Hj as ->.
    pose proof (lastDot_lookup b 1 Hld) as H1.
    pose proof (lastDot_lt b 1 Hld) as Hlt.
    unfold Spec.pdsOf in Hp. rewrite Hld in Hp.
    destruct b as [|c0 [|c1 [|c2 b]]]; simpl in *; try lia.
    case_bool_decide as Hh; [|done]. by simplify_eq.
  - intros ->. by vm_compute in Hld |- *; simplify_eq.
Qed.

Lemma parseResult_file (P b : str) (isAbs : bool) (sp : Z) :
  b ≠ [] →
  (if (sp =? 0) && isAbs then 1 else sp) = Z.of_nat (length P) →
  sp = Z.of_nat (length P) ∨ (sp + 1 = Z.of_nat (length P) ∧ b ≠ "..") →
  Spec.parseResult (P ++ b) isAbs
    {| startDot := match Spec.lastDot b with
                   | Some j => Z.of_nat j + Z.of_nat (length P)
                   | None => -1
                   end;
       startPart := sp;
       end_ := Z.of_nat (length b) + Z.of_nat (length P);
       matchedSlash := false;
       preDotState := Spec.pdsOf b |}
  = {| root := if isAbs then "/" else [];
       dir := if 0 <? sp then JS.slice (P ++ b) 0 (Some (sp - 1))
              else if isAbs then "/" else [];
       base := b;
       ext := Spec.extOf b;
       name := Spec.nameOf b |}.
Proof.
  intros Hb Hstart Hsp. unfold Spec.parseResult. cbn [startDot startPart end_ preDotState].
  rewrite Hstart.
  assert (Z.of_nat (length b) + Z.of_nat (length P) ≠ -1) by lia.
  destruct (Z.eqb_spec (Z.of_nat (length b) + Z.of_nat (length P)) (-1)) as [?|_]; [done|].
  cbn [negb].
  unfold Spec.extOf, Spec.nameOf, Spec.splitExt.
  destruct (Spec.lastDot b) as [[|j]|] eqn:Hld.
  - (* the last dot comes first *)
    assert (Spec.pdsOf b = 0) as -> by (unfold Spec.pdsOf; by rewrite Hld).
    rewrite orb_true_r. simpl. by rewrite slice_app_base.
  - pose proof (lastDot_lt b _ Hld) as Hlt.
    destruct (Z.eqb_spec (Z.of_nat (S j) + Z.of_nat (length P)) (-1)) as [?|_]; [lia|].
    assert (Hp : Spec.pdsOf b ≠ 0).
    { unfold Spec.pdsOf. rewrite Hld. by case_bool_decide. }
    destruct (Z.eqb_spec (Spec.pdsOf b) 0) as [?|_]; [done|]. cbn [orb].
    rewrite (bool_decide_eq_false_2 (S j = 0%nat)) by done. cbn [orb].
    assert ((Spec.pdsOf b =? 1)
            && (Z.of_nat (S j) + Z.of_nat (length P)
                =? Z.of_nat (length b) + Z.of_nat (length P) - 1)
            && (Z.of_nat (S j) + Z.of_nat (length P) =? sp + 1)
            = bool_decide (b = "..")) as ->.
    { destruct (decide (b = "..")) as [Hdd|Hdd].
      - rewrite (bool_decide_eq_true_2 _ Hdd).
        pose proof (proj2 (dotdot_test b j Hld) Hdd) as (Hp1 & Hlen & Hj).
        destruct Hsp as [->|[_ ?]]; [|by subst].
        rewrite Hp1. cbn [Z.eqb Pos.eqb andb].
        destruct (Z.eqb_spec (Z.of_nat (S j) + Z.of_nat (length P))
                    (Z.of_nat (length b) + Z.of_nat (length P) - 1)) as [_|?]; [|lia].
        destruct (Z.eqb_spec (Z.of_nat (S j) + Z.of_nat (length P))
                    (Z.of_nat (length P) + 1)) as [_|?]; [done|lia].
      - rewrite (bool_decide_eq_false_2 _ Hdd).
        apply andb_false_iff.
        destruct (Z.eqb_spec (Z.of_nat (S j) + Z.of_nat (length P)) (sp + 1)) as [Heq|_];
          [|by right].
        left. apply andb_false_iff.
        destruct (Z.eqb_spec (Spec.pdsOf b) 1) as [Hp1|_]; [|by left]. right.
        apply Z.eqb_neq. intros Hlen. apply Hdd.
        apply (dotdot_test b j Hld). destruct Hsp as [->|[? _]]; [|lia]. lia. }
    case_bool_decide.
    + by rewrite slice_app_base.
    + rewrite slice_app_base, slice_app_name.
      rewrite slice_app_shift by lia. by rewrite slice_drop_to by lia.
  - simpl. by rewrite slice_app_base.
Qed.

(** *** The three shapes of a path that ends with a file name *)

Lemma startsWith_slashFree (b r : str) :
  b ≠ [] → slashFree b → JS.startsWith (b ++ r) "/" = false.
Proof.
  intros Hb Hsf. destruct b as [|c b]; [done|].
  apply not_elem_of_cons in Hsf as [Hc _]. simpl.
  rewrite andb_true_r. by apply bool_decide_eq_false_2.
Qed.

(** A bare file name. *)
Lemma parse_bare (b : str) :
  b ≠ [] → slashFree b →
  parse b = {| root := []; dir := []; base := b;
               ext := Spec.extOf b; name := Spec.nameOf b |}.
Proof.
  intros Hb Hsf. rewrite parse_result by done.
  assert (JS.startsWith b "/" = false) as ->.
  { rewrite <- (app_nil_r b). by apply startsWith_slashFree. }
  rewrite drop_0. rewrite <- (app_nil_r (reverse b)).
  rewrite parse_loop_segment by (unfold Spec.slashFree; by rewrite elem_of_reverse).
  cbn [parse_loop].
  change Spec.parseInit with
    {| startDot := -1; startPart := 0; end_ := -1;
       matchedSlash := bool_decide (-1 = -1); preDotState := 0 |}.
  rewrite scan_segment by lia.
  rewrite (bool_decide_eq_false_2 (b = [])) by done.
  rewrite (bool_decide_eq_true_2 (-1 = -1)) by done.
  etrans; [|exact (parseResult_file [] b false 0 Hb eq_refl (or_introl eq_refl))].
  f_equal. simpl length. f_equal; [|lia].
  destruct (Spec.lastDot b); [lia|done].
Qed.

(** A file name in the root directory. *)
Lemma parse_rooted (b : str) :
  b ≠ [] → slashFree b → b ≠ ".." →
  parse ("/" ++ b) = {| root := "/"; dir := "/"; base := b;
                        ext := Spec.extOf b; name := Spec.nameOf b |}.
Proof.
  intros Hb Hsf Hdd. rewrite parse_result by done.
  change (JS.startsWith ("/" ++ b) "/") with true. cbv iota.
  change (drop 1 ("/" ++ b)) with b. rewrite <- (app_nil_r (reverse b)).
  rewrite parse_loop_segment by (unfold Spec.slashFree; by rewrite elem_of_reverse).
  cbn [parse_loop].
  change Spec.parseInit with
    {| startDot := -1; startPart := 0; end_ := -1;
       matchedSlash := bool_decide (-1 = -1); preDotState := 0 |}.
  rewrite scan_segment by (simpl length; lia).
  rewrite (bool_decide_eq_false_2 (b = [])) by done.
  rewrite (bool_decide_eq_true_2 (-1 = -1)) by done.
  etrans; [|exact (parseResult_file "/" b true 0 Hb eq_refl
                     (or_intror (conj eq_refl Hdd)))].
  f_equal. simpl length. f_equal; [|lia].
  destruct (Spec.lastDot b); [lia|done].
Qed.

(** A file name after a directory part. *)
Lemma parse_dir_file (X b : str) :
  X ≠ [] → b ≠ [] → slashFree b →
  parse (X ++ "/" ++ b)
  = {| root := if JS.startsWith X "/" then "/" else [];
       dir := X; base := b; ext := Spec.extOf b; name := Spec.nameOf b |}.
Proof.
  intros HX Hb Hsf. rewrite parse_result by (by destruct X).
  assert (JS.startsWith (X ++ "/" ++ b) "/" = JS.startsWith X "/") as ->
    by (by destruct X).
  set (start := (if JS.startsWith X "/" then 1 else 0)%nat).
  assert (Hstart : (start ≤ length X)%nat).
  { unfold start. destruct X; [done|]. destruct (JS.startsWith _ _); simpl; lia. }
  rewrite drop_app_le by done.
  rewrite !reverse_app. change (reverse "/") with ("/" : str). rewrite <- app_assoc.
  rewrite parse_loop_segment by (unfold Spec.slashFree; by rewrite elem_of_reverse).
  change Spec.parseInit with
    {| startDot := -1; startPart := 0; end_ := -1;
       matchedSlash := bool_decide (-1 = -1); preDotState := 0 |}.
  rewrite !length_app, length_reverse.
  rewrite scan_segment by (simpl length; lia).
  rewrite (bool_decide_eq_false_2 (b = [])) by done.
  rewrite (bool_decide_eq_true_2 (-1 = -1)) by done.
  change ("/" ++ reverse (drop start X)) with ("/"%char :: reverse (drop start X)).
  cbn [parse_loop]. rewrite bool_decide_eq_true_2 by done.
  cbn [matchedSlash negb startDot end_ preDotState].
  assert (HP : Z.of_nat (length (X ++ "/")) = Z.of_nat (length X) + 1).
  { rewrite length_app. simpl. lia. }
  pose proof (parseResult_file (X ++ "/") b (JS.startsWith X "/")
                (Z.of_nat (length X) + 1) Hb) as H.
  rewrite HP in H. rewrite <- app_assoc in H.
  destruct (Z.eqb_spec (Z.of_nat (length X) + 1) 0) as [?|_]; [lia|].
  specialize (H eq_refl (or_introl eq_refl)).
  destruct (Z.ltb_spec 0 (Z.of_nat (length X) + 1)) as [_|?]; [|lia].
  replace (Z.of_nat (length X) + 1 - 1) with (Z.of_nat (length X)) in H by lia.
  rewrite slice_to, take_app_length in H. rewrite <- H.
  simpl length. f_equal. f_equal; [|lia..].
  destruct (Spec.lastDot b); [lia|done].
Qed.

End parse_facts.

(* ===================================================================== *)
(** * Relative paths                                                       *)
(* ===================================================================== *)

Section relative_facts.

Import Path.

Local Abbreviation slashFree := Spec.slashFree.
Local Abbreviation cleanSegment := Spec.cleanSegment.

(** *** Splitting a joined path *)

Lemma slashFree_app_inj (a a' u u' : str) :
  slashFree a → slashFree a' →
  a ++ "/" ++ u = a' ++ "/" ++ u' → a = a' ∧ u = u'.
Proof.
  revert a'. induction a as [|c a IH]; intros a' Ha Ha' Heq.
  - destruct a' as [|c' a']; [by simplify_eq|].
    apply not_elem_of_cons in Ha' as [Hc' _]. simpl in Heq. by simplify_eq.
  - apply not_elem_of_cons in Ha as [Hc Ha].
    destruct a' as [|c' a'].
    + simpl in Heq. by simplify_eq.
    + apply not_elem_of_cons in Ha' as [Hc' Ha']. simpl in Heq.
      injection Heq as -> Heq. destruct (IH a' Ha Ha' Heq) as [-> ->]. done.
Qed.

Lemma slashFree_no_sep (a a' u : str) : slashFree a → a ≠ a' ++ "/" ++ u.
Proof.
  intros Ha ->. apply Ha. rewrite elem_of_app. right. by left.
Qed.

Lemma join_split (D segs : list str) (r : str) :
  D ≠ [] → Forall slashFree D → Forall slashFree segs →
  JS.join "/" segs = JS.join "/" D ++ "/" ++ r →
  ∃ rs, segs = D ++ rs ∧ r = JS.join "/" rs ∧ rs ≠ [].
Proof.
  revert segs. induction D as [|d D IH]; intros segs HD HsD Hsegs Heq; [done|].
  apply Forall_cons in HsD as [Hd HsD].
  assert (Hu : ∃ u, JS.join "/" (d :: D) ++ "/" ++ r = d ++ "/" ++ u
               ∧ (D = [] → u = r)
               ∧ (D ≠ [] → u = JS.join "/" D ++ "/" ++ r)).
  { destruct D as [|d2 D].
    - by exists r.
    - exists (JS.join "/" (d2 :: D) ++ "/" ++ r). rewrite join_cons by done.
      by rewrite <- !app_assoc. }
  destruct Hu as (u & Hu & Hu1 & Hu2). rewrite Hu in Heq. clear Hu.
  destruct segs as [|x [|y segs]].
  - exfalso. simpl in Heq. by destruct d.
  - exfalso. simpl in Heq. apply Forall_cons in Hsegs as [Hx _].
    by apply (slashFree_no_sep x d u).
  - apply Forall_cons in Hsegs as [Hx Hsegs]. rewrite join_cons in Heq by done.
    apply slashFree_app_inj in Heq as [-> Heq]; [|done..].
    destruct D as [|d2 D].
    + rewrite Hu1 in Heq by done. subst r. by exists (y :: segs).
    + rewrite Hu2 in Heq by done.
      destruct (IH (y :: segs)) as (rs & Hrs & -> & Hne); [done..|].
      exists rs. by rewrite Hrs.
Qed.

Lemma join_nil (segs : list str) :
  Forall (λ x, x ≠ []) segs → JS.join "/" segs = [] → segs = [].
Proof.
  destruct segs as [|x segs]; [done|]. intros [Hx _]%Forall_cons Heq. exfalso.
  destruct segs; simpl in Heq; by destruct x.
Qed.

(** *** The loops of [relative] *)

Lemma relative_out_dotdot (f out : str) :
  out = [] ∨ JS.startsWith out ".." = true →
  JS.startsWith (relative_out f out) ".." = true.
Proof.
  assert (Hstep : ∀ out, out = [] ∨ JS.startsWith out ".." = true →
            JS.startsWith (out ++ list_ascii_of_string
                                    (if bool_decide (length out = 0%nat)
                                     then ".." else "/..")) ".." = true).
  { intros out' [->|Hout]; [done|].
    apply startsWith_spec in Hout as [r ->]. rewrite <- app_assoc. apply startsWith_app. }
  revert out. induction f as [|c f IH]; intros out Hout; cbn [relative_out].
  - by apply Hstep.
  - apply IH. case_bool_decide; [|done]. right. by apply Hstep.
Qed.

Lemma relative_scan_spec (f t : str) (i l : Z) :
  let r := relative_scan f t i l in
  i ≤ r.1 ≤ i + Z.of_nat (length f)
  ∧ i ≤ r.1 ≤ i + Z.of_nat (length t)
  ∧ (r.2 = l ∨ i ≤ r.2 < r.1)
  ∧ take (Z.to_nat (r.1 - i)) f = take (Z.to_nat (r.1 - i)) t.
Proof.
  revert t i l. induction f as [|c f IH]; intros t i l.
  - destruct t; simpl; rewrite Z.sub_diag; (split_and!; [lia..| by left | done]).
  - destruct t as [|c' t]; simpl.
    { rewrite Z.sub_diag. split_and!; [lia..| by left | done]. }
    case_bool_decide as Hc; simpl.
    { rewrite Z.sub_diag. split_and!; [lia..| by left | done]. }
    subst c'.
    specialize (IH t (i + 1) (if bool_decide (c = CHAR_FORWARD_SLASH) then i else l)).
    destruct (relative_scan f t (i + 1) _) as [i' l']. simpl in *.
    destruct IH as (H1 & H2 & H3 & H4). split_and!; [lia..| |].
    + destruct H3 as [->|?]; [|right; lia]. case_bool_decide; [right; lia|by left].
    + replace (Z.to_nat (i' - i)) with (S (Z.to_nat (i' - (i + 1)))) by lia.
      simpl. by rewrite H4.
Qed.

End relative_facts.
Section relative_cases.

Import Path.

Local Abbreviation slashFree := Spec.slashFree.
Local Abbreviation cleanSegment := Spec.cleanSegment.

Lemma relative_scan_same (f : str) (i l : Z) :
  (relative_scan f f i l).1 = i + Z.of_nat (length f).
Proof.
  revert i l. induction f as [|c f IH]; intros i l; simpl; [lia|].
  rewrite bool_decide_eq_false_2 by (by intros []). rewrite IH. lia.
Qed.

Lemma relative_tail_dotdot (from to : str) (l : Z) :
  -1 ≤ l → l + 2 ≤ Z.of_nat (length from) →
  JS.startsWith (Spec.relative_tail from to l) ".." = true.
Proof.
  intros Hl Hle. unfold Spec.relative_tail.
  destruct (Z.leb_spec (1 + l + 1) (Z.of_nat (length from))) as [_|?]; [|lia].
  pose proof (relative_out_dotdot (drop (Z.to_nat (1 + l + 1)) from) [] (or_introl eq_refl))
    as [r ->]%startsWith_spec.
  rewrite <- app_assoc. apply startsWith_app.
Qed.

(** A result of [relative] that does not start with two dots is the
    rest of [to] after [from]. *)
Lemma relative_resolved_cases (f t : str) :
  let rel := Spec.relative_resolved (CHAR_FORWARD_SLASH :: f) (CHAR_FORWARD_SLASH :: t) in
  JS.startsWith rel ".." = false →
  t = f ++ "/" ++ rel ∨ (f = [] ∧ t = rel).
Proof.
  unfold Spec.relative_resolved. cbv zeta.
  set (fromLen := Z.of_nat (length (CHAR_FORWARD_SLASH :: f)) - 1).
  set (toLen := Z.of_nat (length (CHAR_FORWARD_SLASH :: t)) - 1).
  assert (HfromLen : fromLen = Z.of_nat (length f)) by (unfold fromLen; simpl length; lia).
  assert (HtoLen : toLen = Z.of_nat (length t)) by (unfold toLen; simpl length; lia).
  set (len := if fromLen <? toLen then fromLen else toLen).
  assert (Hlen : len = Z.min fromLen toLen).
  { unfold len. destruct (Z.ltb_spec fromLen toLen); lia. }
  change (Z.to_nat 1) with 1%nat. cbn [drop skipn].
  pose proof (relative_scan_spec (take (Z.to_nat len) f) (take (Z.to_nat len) t) 0 (-1))
    as Hscan.
  destruct (relative_scan _ _ 0 (-1)) as [i l]. simpl in Hscan.
  destruct Hscan as (Hi1 & Hi2 & Hl & Htake).
  rewrite length_take in Hi1, Hi2. rewrite Z.sub_0_r in Htake.
  assert (Hdd : ∀ l', -1 ≤ l' → l' < fromLen →
            JS.startsWith (Spec.relative_tail (CHAR_FORWARD_SLASH :: f)
                                         (CHAR_FORWARD_SLASH :: t) l') ".." = false →
            t = f ++ "/" ++ Spec.relative_tail (CHAR_FORWARD_SLASH :: f)
                                         (CHAR_FORWARD_SLASH :: t) l'
            ∨ (f = [] ∧ t = Spec.relative_tail (CHAR_FORWARD_SLASH :: f)
                                         (CHAR_FORWARD_SLASH :: t) l')).
  { intros l' H1 H2 H3. rewrite relative_tail_dotdot in H3; [done|done|].
    simpl length. lia. }
  assert (Hll : -1 ≤ l ∧ l < fromLen) by lia.
  destruct (Z.eqb_spec i len) as [Hil|Hil]; [|intros ?; apply Hdd; [lia..|done]].
  destruct (Z.ltb_spec len toLen) as [Hlt|Hge].
  - assert (Hlf : len = fromLen) by lia.
    assert (Hf : f = take (length f) t).
    { rewrite Hil, Hlf, HfromLen, Nat2Z.id in Htake.
      rewrite !take_take, !Nat.min_id in Htake.
      by rewrite take_ge in Htake by lia. }
    assert (Ht : t = f ++ drop (length f) t).
    { rewrite Hf at 1. by rewrite take_drop. }
    case_bool_decide as Hc.
    + intros _. left.
      replace (1 + i + 1) with (Z.of_nat (S (S (length f)))) by lia.
      rewrite slice_from. cbn [drop skipn].
      replace (Z.to_nat (1 + i)) with (S (length f)) in Hc by lia.
      unfold JS.charCodeAt in Hc. simpl in Hc.
      rewrite <- (take_drop (length f) t) at 1. rewrite <- Hf. f_equal.
      by rewrite (drop_S _ _ _ Hc).
    + destruct (Z.eqb_spec i 0) as [Hi0|Hi0]; [|intros ?; apply Hdd; [lia..|done]].
      intros _. right.
      assert (f = []) as ->. { apply length_zero_iff_nil. lia. }
      split; [done|]. rewrite Hi0. change (1 + 0) with (Z.of_nat 1).
      by rewrite slice_from.
  - destruct (Z.ltb_spec len fromLen) as [Hlt2|Hge2]; [|intros ?; apply Hdd; [lia..|done]].
    case_bool_decide; [intros ?; apply Hdd; [lia..|done]|].
    destruct (Z.eqb_spec i 0); intros ?; (apply Hdd; [lia..|done]).
Qed.

(** Conversely, a path below [from] is given relative to it by what
    follows [from]. *)
Lemma relative_resolved_under (f r : str) :
  f ≠ [] →
  Spec.relative_resolved (CHAR_FORWARD_SLASH :: f) (CHAR_FORWARD_SLASH :: f ++ "/" ++ r) = r.
Proof.
  intros Hf. unfold Spec.relative_resolved. cbv zeta.
  set (fromLen := Z.of_nat (length (CHAR_FORWARD_SLASH :: f)) - 1).
  set (toLen := Z.of_nat (length (CHAR_FORWARD_SLASH :: f ++ "/" ++ r)) - 1).
  assert (HfromLen : fromLen = Z.of_nat (length f)) by (unfold fromLen; simpl length; lia).
  assert (HtoLen : toLen = Z.of_nat (length f) + 1 + Z.of_nat (length r)).
  { unfold toLen. simpl length. rewrite length_app. simpl length. lia. }
  destruct (Z.ltb_spec fromLen toLen) as [_|?]; [|lia].
  change (Z.to_nat 1) with 1%nat. cbn [drop skipn].
  rewrite HfromLen, Nat2Z.id. rewrite (take_ge f) by lia. rewrite drop_0, take_app_length.
  pose proof (relative_scan_same f 0 (-1)) as Hscan.
  destruct (relative_scan f f 0 (-1)) as [i l]. simpl in Hscan.
  rewrite Z.add_0_l in Hscan. subst i.
  rewrite Z.eqb_refl. destruct (Z.ltb_spec (Z.of_nat (length f)) toLen) as [_|?]; [|lia].
  replace (Z.to_nat (1 + Z.of_nat (length f))) with (S (length f)) by lia.
  unfold JS.charCodeAt. rewrite lookup_cons. cbv iota.
  rewrite lookup_app_r by lia. rewrite Nat.sub_diag.
  change (("/" ++ r) !! 0%nat) with (Some CHAR_FORWARD_SLASH).
  rewrite bool_decide_eq_true_2 by done.
  replace (1 + Z.of_nat (length f) + 1) with (Z.of_nat (S (S (length f)))) by lia.
  rewrite slice_from. cbn [drop skipn].
  change (f ++ "/" ++ r) with (f ++ [CHAR_FORWARD_SLASH] ++ r).
  rewrite app_assoc. rewrite drop_app_length'; [done|]. rewrite length_app. simpl. lia.
Qed.

Lemma relative_resolved_root (r : str) :
  r ≠ [] → JS.startsWith r "/" = false →
  Spec.relative_resolved [CHAR_FORWARD_SLASH] (CHAR_FORWARD_SLASH :: r) = r.
Proof.
  intros Hr Hs. destruct r as [|c r]; [done|].
  unfold Spec.relative_resolved. cbv zeta. simpl length.
  change (Z.of_nat 1 - 1) with 0.
  destruct (Z.ltb_spec 0 (Z.of_nat (S (S (length r))) - 1)) as [_|?]; [|lia].
  change (Z.to_nat 0) with 0%nat. rewrite !take_0. simpl relative_scan. cbv iota.
  rewrite Z.eqb_refl.
  destruct (Z.ltb_spec 0 (Z.of_nat (S (S (length r))) - 1)) as [_|?]; [|lia].
  change (Z.to_nat (1 + 0)) with 1%nat. unfold JS.charCodeAt. simpl lookup.
  rewrite bool_decide_eq_false_2.
  - change (1 + 0) with (Z.of_nat 1). by rewrite slice_from.
  - intros [= ->]. by vm_compute in Hs.
Qed.

(** [relative], with its second half as a function of its own. *)
Lemma relative_unfold (cwd from to : str) :
  relative cwd from to
  = if bool_decide (from = to) then []
    else if bool_decide (resolve cwd [from] = resolve cwd [to]) then []
         else Spec.relative_resolved (resolve cwd [from]) (resolve cwd [to]).
Proof. reflexivity. Qed.

End relative_cases.
(* ===================================================================== *)
(** * Paths that end with a file name                                      *)
(* ===================================================================== *)

Section file_names.

Import Path Fix.

Local Abbreviation slashFree := Spec.slashFree.
Local Abbreviation cleanSegment := Spec.cleanSegment.
Local Abbreviation absPath := Spec.absPath.
Local Abbreviation nameOf := Spec.nameOf.
Local Abbreviation extOf := Spec.extOf.

(** *** Name and extension *)

Lemma lastDot_app (a b : str) :
  Spec.lastDot (a ++ b)
  = match Spec.lastDot b with
    | Some j => Some (length a + j)%nat
    | None => Spec.lastDot a
    end.
Proof.
  induction a as [|c a IH]; simpl; [by destruct (Spec.lastDot b)|].
  rewrite IH. by destruct (Spec.lastDot b).
Qed.

Lemma nameOf_extOf (b : str) : nameOf b ++ extOf b = b.
Proof.
  unfold Spec.nameOf, Spec.extOf, Spec.splitExt.
  destruct (Spec.lastDot b) as [j|]; [|apply app_nil_r].
  destruct (_ || _); [apply app_nil_r|apply take_drop].
Qed.

Lemma nameOf_nonempty (b : str) : b ≠ [] → nameOf b ≠ [].
Proof.
  intros Hb. unfold Spec.nameOf, Spec.splitExt.
  destruct (Spec.lastDot b) as [j|] eqn:Hj; [|done].
  case_bool_decide as Hj0; [done|]. simpl. case_bool_decide; [done|]. simpl.
  destruct j; [done|]. by destruct b.
Qed.

Lemma nameOf_slashFree (b : str) : slashFree b → slashFree (nameOf b).
Proof.
  intros Hb Hin. apply Hb. rewrite <- (nameOf_extOf b). apply elem_of_app. by left.
Qed.

(** An extension is empty or starts with its dot. *)
Lemma extOf_dot (b : str) : extOf b = [] ∨ ∃ e, extOf b = CHAR_DOT :: e.
Proof.
  unfold Spec.extOf, Spec.splitExt.
  destruct (Spec.lastDot b) as [j|] eqn:Hj; [|by left].
  destruct (_ || _); [by left|]. right. simpl.
  apply lastDot_lookup in Hj. rewrite (drop_S _ _ _ Hj). eauto.
Qed.

Lemma formatExt_extOf (b : str) : formatExt (extOf b) = extOf b.
Proof.
  destruct (extOf_dot b) as [->|[e ->]]; [done|].
  unfold formatExt. by rewrite bool_decide_eq_true_2.
Qed.

(** Appending an extension whose only dot is the first character. *)
Lemma splitExt_app (n e : str) :
  n ≠ [] → Spec.lastDot e = Some 0%nat → (2 ≤ length e)%nat →
  Spec.splitExt (n ++ e) = (n, e).
Proof.
  intros Hn He Hlen. unfold Spec.splitExt. rewrite lastDot_app, He, Nat.add_0_r.
  rewrite bool_decide_eq_false_2 by (by destruct n).
  rewrite bool_decide_eq_false_2.
  - simpl. by rewrite take_app_length, drop_app_length.
  - intros Heq. apply (f_equal length) in Heq. rewrite length_app in Heq.
    destruct n; [done|]. simpl in Heq. lia.
Qed.

Lemma allowed_cases (e : str) :
  e ∈ ALLOWED_EXTENSIONS → e = ".ts" ∨ e = ".tsx" ∨ e = ".d.ts".
Proof.
  unfold ALLOWED_EXTENSIONS. rewrite !elem_of_cons, elem_of_nil. tauto.
Qed.

Lemma formatExt_allowed (e : str) : e ∈ ALLOWED_EXTENSIONS → formatExt e = e.
Proof. by intros [->|[->| ->]]%allowed_cases. Qed.

Lemma splitExt_ts (n : str) : n ≠ [] → Spec.splitExt (n ++ ".ts") = (n, ".ts" : str).
Proof. intros Hn. rewrite splitExt_app; [done..|simpl; lia]. Qed.

Lemma splitExt_tsx (n : str) : n ≠ [] → Spec.splitExt (n ++ ".tsx") = (n, ".tsx" : str).
Proof. intros Hn. rewrite splitExt_app; [done..|simpl; lia]. Qed.

Lemma splitExt_dts (n : str) :
  n ≠ [] → Spec.splitExt (n ++ ".d.ts") = (n ++ ".d", ".ts" : str).
Proof.
  intros Hn. change (n ++ ".d.ts") with (n ++ ".d" ++ ".ts"). rewrite app_assoc.
  rewrite splitExt_app; [done|by destruct n|done|simpl; lia].
Qed.

Lemma cleanSegment_allowed (n e : str) :
  n ≠ [] → slashFree n → e ∈ ALLOWED_EXTENSIONS → cleanSegment (n ++ e).
Proof.
  intros Hn Hsf He. split_and!.
  - by destruct n.
  - intros [?|Hin]%elem_of_app; [done|].
    apply allowed_cases in He as [->|[->| ->]];
      repeat (apply elem_of_cons in Hin as [?|Hin]; [done|]); by apply elem_of_nil in Hin.
  - intros Heq. apply (f_equal length) in Heq. rewrite length_app in Heq.
    apply allowed_cases in He as [->|[->| ->]]; simpl in Heq; lia.
  - intros Heq. apply (f_equal length) in Heq. rewrite length_app in Heq.
    apply allowed_cases in He as [->|[->| ->]]; simpl in Heq; lia.
Qed.

(** *** Absolute paths *)

Lemma absPath_snoc (stk : list str) (b : str) :
  Forall cleanSegment stk →
  absPath (stk ++ [b])
  = if bool_decide (stk = []) then "/" ++ b else absPath stk ++ "/" ++ b.
Proof.
  intros _. unfold Spec.absPath. rewrite join_snoc_pre.
  case_bool_decide; [done|]. by rewrite <- !app_assoc.
Qed.

Lemma absPath_root (stk : list str) :
  Forall cleanSegment stk → absPath stk = "/" → stk = [].
Proof.
  intros Hstk. unfold Spec.absPath. intros [= Heq].
  apply join_nil; [|done]. eapply Forall_impl; [done|]. by intros ? [? _].
Qed.

Lemma parse_absPath (stk : list str) (b : str) :
  Forall cleanSegment stk → cleanSegment b →
  parse (absPath (stk ++ [b]))
  = {| root := "/"; dir := absPath stk; base := b; ext := extOf b; name := nameOf b |}.
Proof.
  intros Hstk (Hb & Hsf & _ & Hdd). rewrite absPath_snoc by done.
  case_bool_decide as Hnil.
  - subst stk. by rewrite parse_rooted.
  - rewrite parse_dir_file; [done| |done..]. done.
Qed.

Lemma format_absPath (stk : list str) (b e n : str) :
  Forall cleanSegment stk →
  format {| root := "/"; dir := absPath stk; base := b; ext := e; name := n |}
  = absPath (stk ++ [JS.or b (n ++ formatExt e)]).
Proof.
  intros Hstk. rewrite absPath_snoc by done. unfold format. cbn [dir root base name ext].
  change (JS.or (absPath stk) "/") with (absPath stk).
  change (negb (JS.truthy (absPath stk))) with false. cbv iota.
  case_bool_decide as Hroot.
  - apply absPath_root in Hroot as ->; [|done]. by rewrite bool_decide_eq_true_2.
  - rewrite bool_decide_eq_false_2; [done|]. by intros ->.
Qed.

Lemma format_parse_absPath (stk : list str) (b : str) :
  Forall cleanSegment stk → cleanSegment b →
  format (parse (absPath (stk ++ [b]))) = absPath (stk ++ [b]).
Proof.
  intros Hstk Hb. rewrite parse_absPath, format_absPath by done.
  destruct Hb as [Hb _]. by destruct b.
Qed.

(** The path probed for a candidate extension. *)
Lemma probe_absPath (stk : list str) (b e : str) :
  Forall cleanSegment stk → cleanSegment b → e ∈ ALLOWED_EXTENSIONS →
  Spec.probe (parse (absPath (stk ++ [b]))) e = absPath (stk ++ [nameOf b ++ e]).
Proof.
  intros Hstk Hb He. unfold Spec.probe. rewrite parse_absPath by done.
  unfold changeExtension. cbn [dir root base name ext].
  by rewrite format_absPath, formatExt_allowed.
Qed.

(** *** The extension step on a file name *)

Lemma find_ext_in {A} (f g : A → bool) (l : list A) :
  (∀ x, x ∈ l → f x = g x) → List.find f l = List.find g l.
Proof.
  induction l as [|x l IH]; intros Hfg; simpl; [done|].
  rewrite <- (Hfg x) by by left. destruct (f x); [done|].
  apply IH. intros y Hy. apply Hfg. by right.
Qed.

Lemma getNewExtension_loop_find (existsSync : str → bool) (parts : ParsedPath)
      (candidates : list str) :
  getNewExtension_loop existsSync parts candidates
  = (λ e, {| eb_ext := e; eb_base := [] |})
      <$> List.find (λ e, existsSync (Spec.probe parts e)) candidates.
Proof.
  induction candidates as [|c l IH]; simpl; [done|].
  fold (Spec.probe parts c). by destruct (existsSync (Spec.probe parts c)).
Qed.

(** What the Extension Resolver returns on a resolved path that ends
    with the file name [b]. *)
Lemma getNewExtensionPathParts_file (existsSync : str → bool) (stk : list str) (b : str) :
  Forall cleanSegment stk → cleanSegment b →
  getNewExtensionPathParts existsSync (parse (absPath (stk ++ [b])))
  = if JS.arrayIncludes tsExtensionLookups (extOf b) then
      (λ e, {| eb_ext := e; eb_base := [] |})
        <$> List.find (λ e, existsSync (absPath (stk ++ [nameOf b ++ e]))) ALLOWED_EXTENSIONS
    else Some {| eb_ext := extOf b; eb_base := b |}.
Proof.
  intros Hstk Hb. unfold getNewExtensionPathParts.
  rewrite getNewExtension_loop_find.
  rewrite (find_ext_in _ (λ e, existsSync (absPath (stk ++ [nameOf b ++ e])))).
  - rewrite parse_absPath by done. cbn [ext base].
    by destruct (JS.arrayIncludes tsExtensionLookups (extOf b)).
  - intros e He. by rewrite probe_absPath.
Qed.

Lemma newFileName_cases (existsSync : str → bool) (stk : list str) (b : str) :
  Spec.newFileName existsSync stk b = b
  ∨ ∃ e, e ∈ ALLOWED_EXTENSIONS ∧ Spec.newFileName existsSync stk b = nameOf b ++ e
         ∧ existsSync (absPath (stk ++ [nameOf b ++ e])) = true.
Proof.
  unfold Spec.newFileName. destruct (JS.arrayIncludes _ _); [|by left].
  destruct (List.find _ _) as [e|] eqn:Hfind; [|by left].
  apply find_some in Hfind as [Hin He]. right. exists e.
  by rewrite list_elem_of_In.
Qed.

Lemma newFileName_clean (existsSync : str → bool) (stk : list str) (b : str) :
  cleanSegment b → cleanSegment (Spec.newFileName existsSync stk b).
Proof.
  intros Hb. destruct (newFileName_cases existsSync stk b) as [->|(e & He & -> & _)]; [done|].
  destruct Hb as (Hne & Hsf & _). apply cleanSegment_allowed; [|by apply nameOf_slashFree|done].
  by apply nameOf_nonempty.
Qed.

(** The extension step is idempotent on file names. *)
Lemma newFileName_stable (existsSync : str → bool) (stk : list str) (b : str) :
  cleanSegment b →
  Spec.newFileName existsSync stk (Spec.newFileName existsSync stk b)
  = Spec.newFileName existsSync stk b.
Proof.
  intros (Hne & _). pose proof (nameOf_nonempty b Hne) as Hn.
  unfold Spec.newFileName at 2 3.
  destruct (JS.arrayIncludes tsExtensionLookups (extOf b)) eqn:Hext.
  - unfold ALLOWED_EXTENSIONS. cbn [List.find].
    destruct (existsSync (absPath (stk ++ [nameOf b ++ ".ts"]))) eqn:H1.
    { unfold Spec.newFileName, Spec.extOf, Spec.nameOf.
      rewrite splitExt_ts by done. cbn [fst snd].
      change (JS.arrayIncludes tsExtensionLookups ".ts") with true. cbv iota.
      unfold ALLOWED_EXTENSIONS. cbn [List.find]. fold (nameOf b). by rewrite H1. }
    destruct (existsSync (absPath (stk ++ [nameOf b ++ ".tsx"]))) eqn:H2.
    { unfold Spec.newFileName, Spec.extOf, Spec.nameOf.
      rewrite splitExt_tsx by done. cbn [fst snd].
      change (JS.arrayIncludes tsExtensionLookups ".tsx") with true. cbv iota.
      unfold ALLOWED_EXTENSIONS. cbn [List.find]. fold (nameOf b). by rewrite H1, H2. }
    destruct (existsSync (absPath (stk ++ [nameOf b ++ ".d.ts"]))) eqn:H3.
    { unfold Spec.newFileName, Spec.extOf, Spec.nameOf.
      rewrite splitExt_dts by done. cbn [fst snd].
      change (JS.arrayIncludes tsExtensionLookups ".ts") with true. cbv iota.
      unfold ALLOWED_EXTENSIONS. cbn [List.find]. fold (nameOf b).
      rewrite <- (app_assoc (nameOf b) ".d" ".ts").
      change (".d" ++ ".ts") with (list_ascii_of_string ".d.ts"). rewrite H3.
      by rewrite <- app_assoc. }
    unfold Spec.newFileName. rewrite Hext. unfold ALLOWED_EXTENSIONS. cbn [List.find].
    by rewrite H1, H2, H3.
  - unfold Spec.newFileName. by rewrite Hext.
Qed.

(** Whether a file name starts with two dots is not changed by the
    extension step. *)
Lemma newFileName_dotdot (existsSync : str → bool) (stk : list str) (b : str) :
  cleanSegment b →
  JS.startsWith (Spec.newFileName existsSync stk b) ".." = JS.startsWith b "..".
Proof.
  intros (Hne & _ & Hd & _).
  destruct (newFileName_cases existsSync stk b) as [->|(e & He & -> & _)]; [done|].
  pose proof (nameOf_nonempty b Hne) as Hn. pose proof (nameOf_extOf b) as Hsplit.
  assert (∃ e', e = CHAR_DOT :: e') as [e' ->].
  { apply allowed_cases in He as [->|[->| ->]]; eauto. }
  destruct (nameOf b) as [|c1 [|c2 n]]; [done| |].
  - rewrite <- Hsplit. destruct (extOf_dot b) as [Hx|[x Hx]]; rewrite Hx.
    + simpl. rewrite andb_true_r. rewrite Hx, app_nil_r in Hsplit.
      rewrite bool_decide_eq_false_2; [done|]. intros <-. by rewrite <- Hsplit in Hd.
    + done.
  - by rewrite <- Hsplit.
Qed.

Lemma targetFile_absPath (existsSync : str → bool) (stk : list str) (b : str) :
  Forall cleanSegment stk → cleanSegment b →
  Spec.targetFile existsSync (absPath (stk ++ [b]))
  = absPath (stk ++ [Spec.newFileName existsSync stk b]).
Proof.
  intros Hstk Hb. unfold Spec.targetFile. cbv zeta.
  rewrite getNewExtensionPathParts_file by done. unfold Spec.newFileName.
  rewrite parse_absPath by done. cbn [root dir name].
  destruct (JS.arrayIncludes tsExtensionLookups (extOf b)).
  - destruct (List.find _ _) as [e|] eqn:Hfind; [|done]. cbn [fmap option_fmap option_map].
    cbn [eb_base eb_ext]. rewrite format_absPath by done.
    apply find_some in Hfind as [He%list_elem_of_In _].
    by rewrite formatExt_allowed.
  - cbn [eb_base eb_ext]. rewrite format_absPath by done.
    destruct Hb as [Hb _]. by destruct b.
Qed.

End file_names.
(* ===================================================================== *)
(** * The rewriting of one specifier                                       *)
(* ===================================================================== *)

Section alias_tables.

Import Path Fix.

Lemma pm_set_keys (m : PathsMap) (alias aliasDir k : str) :
  k ∈ pm_keys (pm_set m alias aliasDir) ↔ k = alias ∨ k ∈ pm_keys m.
Proof.
  unfold pm_keys. induction m as [|[k' v'] m IH]; simpl.
  - rewrite elem_of_cons, elem_of_nil. tauto.
  - case_bool_decide as Hk; simpl.
    + subst k'. rewrite !elem_of_cons. tauto.
    + rewrite !elem_of_cons, IH. tauto.
Qed.

Lemma pm_set_NoDup (m : PathsMap) (alias aliasDir : str) :
  NoDup (pm_keys m) → NoDup (pm_keys (pm_set m alias aliasDir)).
Proof.
  induction m as [|[k' v'] m IH]; simpl.
  - intros _. apply NoDup_singleton.
  - intros [Hk' Hm]%NoDup_cons. case_bool_decide as Hk; simpl.
    + by apply NoDup_cons.
    + apply NoDup_cons. split; [|by apply IH].
      fold (pm_keys (pm_set m alias aliasDir)). rewrite pm_set_keys. intros [?|?]; congruence.
Qed.

Lemma loaded_NoDup (paths : TsconfigPaths) : NoDup (pm_keys (Spec.loaded paths)).
Proof.
  unfold Spec.loaded. generalize (NoDup_nil_2 (A := str)).
  change (@nil str) with (pm_keys []) at 1. generalize (@nil (str * str)).
  induction paths as [|e paths IH]; intros m Hm; simpl; [done|].
  apply IH. unfold getPathsMap_step. destruct e as [alias [|aliasDir targets]]; simpl.
  all: repeat (destruct (negb _); [done|]); try done.
  by apply pm_set_NoDup.
Qed.

Lemma pm_get_NoDup (m : PathsMap) (k v : str) :
  NoDup (pm_keys m) → (k, v) ∈ m → pm_get m k = Some v.
Proof.
  induction m as [|[k' v'] m IH]; simpl; [by intros _ ?%elem_of_nil|].
  intros [Hk' Hm]%NoDup_cons [[= -> ->]|Hin]%elem_of_cons.
  - by rewrite bool_decide_eq_true_2.
  - rewrite bool_decide_eq_false_2; [by apply IH|].
    intros Heq. subst k'. apply Hk'. unfold pm_keys. apply list_elem_of_fmap.
    by exists (k, v).
Qed.

End alias_tables.

Section resolution.

Import Path Fix.

Local Abbreviation slashFree := Spec.slashFree.
Local Abbreviation cleanSegment := Spec.cleanSegment.
Local Abbreviation absPath := Spec.absPath.
Local Abbreviation closed := Spec.closed.

Context (paths : TsconfigPaths) (cwd : str) (Hcwd : Spec.absolute cwd).

Local Abbreviation pathsMap := (Spec.loaded paths).

(** *** Prefixes that end with a separator *)

Lemma closed_prefix (p X b : str) :
  last p = Some CHAR_FORWARD_SLASH → slashFree b →
  JS.startsWith (X ++ "/" ++ b) p = JS.startsWith (X ++ "/") p.
Proof.
  intros Hp Hb. apply eq_true_iff_eq. rewrite !startsWith_spec. split.
  - intros [r Hr].
    destruct (prefix_weak_total p (X ++ "/") (X ++ "/" ++ b)) as [[r' Hr']|[r' Hr']].
    + by exists r.
    + exists b. by rewrite <- app_assoc.
    + by exists r'.
    + destruct r' as [|c r' _] using rev_ind.
      * exists []. by rewrite app_nil_r in Hr' |- *.
      * exfalso. apply Hb. rewrite Hr' in Hp, Hr.
        rewrite !app_assoc, last_snoc in Hp. injection Hp as ->.
        rewrite <- !app_assoc in Hr. apply app_inv_head in Hr.
        change ("/" ++ b) with ([CHAR_FORWARD_SLASH] ++ b) in Hr.
        apply app_inv_head in Hr. rewrite Hr, !elem_of_app.
        right. left. by left.
  - intros [r Hr]. exists (r ++ b). rewrite (app_assoc p r b), <- Hr.
    by rewrite <- !app_assoc.
Qed.

Lemma loaded_key_closed (k : str) :
  k ∈ pm_keys pathsMap → last k = Some CHAR_FORWARD_SLASH.
Proof.
  intros [v Hv]%pm_get_keys. apply pm_get_elem, loaded_elem in Hv as (k0 & v0 & ts & _ & -> & _).
  change (k0 ++ "/") with (k0 ++ [CHAR_FORWARD_SLASH]). apply last_snoc.
Qed.

Lemma closed_rest (p X Y : str) :
  X ++ "/" = p ++ Y → closed Y.
Proof.
  intros Heq. destruct Y as [|c Y _] using rev_ind; [by left|]. right.
  change (X ++ "/") with (X ++ [CHAR_FORWARD_SLASH]) in Heq.
  rewrite app_assoc in Heq. apply app_inj_tail in Heq as [_ ->]. apply last_snoc.
Qed.

(** *** The resolver on a specifier that ends with a file name

    The directory part [X] decides how the specifier is resolved; the
    file name is carried along. *)
Lemma resolveImportPath_file (filePath X : str) :
  ∃ stk, Forall cleanSegment stk
         ∧ ∀ b, cleanSegment b →
                resolveImportPath cwd (X ++ "/" ++ b) filePath pathsMap = absPath (stk ++ [b]).
Proof.
  destruct (List.find (λ alias, JS.startsWith (X ++ "/") alias)
                      (sortByLengthDesc (pm_keys pathsMap))) as [alias|] eqn:Hfind.
  - pose proof Hfind as [Hin Hpre]%find_some.
    apply list_elem_of_In in Hin. rewrite sortByLengthDesc_perm in Hin.
    destruct (loaded_target paths alias Hin) as (d & Hd & Hdne).
    apply startsWith_spec in Hpre as [Y HY].
    exists (Spec.dirSegmentsOf cwd d Y). split; [apply normalizeSegments_clean|].
    intros b Hb. rewrite resolveImportPath_refines. unfold Spec.resolveImportPath.
    rewrite (find_ext_in _ (λ alias, JS.startsWith (X ++ "/") alias)).
    + rewrite Hfind, Hd. simpl default.
      rewrite (app_assoc X "/" b), HY, <- app_assoc, drop_app_length.
      apply resolve_file; [done| |done]. by apply (closed_rest alias X).
    + intros k Hk. apply closed_prefix; [|apply Hb].
      apply loaded_key_closed. by rewrite <- sortByLengthDesc_perm.
  - exists (Spec.dirSegmentsOf cwd (dirname filePath) (X ++ "/")).
    split; [apply normalizeSegments_clean|].
    intros b Hb. rewrite resolveImportPath_refines. unfold Spec.resolveImportPath.
    rewrite (find_ext_in _ (λ alias, JS.startsWith (X ++ "/") alias)).
    + rewrite Hfind. rewrite (app_assoc X "/" b).
      apply resolve_file; [done| |done]. right.
      change (X ++ "/") with (X ++ [CHAR_FORWARD_SLASH]). apply last_snoc.
    + intros k Hk. apply closed_prefix; [|apply Hb].
      apply loaded_key_closed. by rewrite <- sortByLengthDesc_perm.
Qed.

(** *** The resolver on a specifier in alias form *)

Lemma find_longest_prefix (s alias : str) (keys : list str) :
  alias ∈ keys → JS.startsWith s alias = true →
  (∀ k, k ∈ keys → JS.startsWith s k = true → (length k ≤ length alias)%nat) →
  List.find (λ a, JS.startsWith s a) (sortByLengthDesc keys) = Some alias.
Proof.
  intros Hin Hpre Hlong.
  destruct (List.find _ _) as [k|] eqn:Hfind.
  - pose proof Hfind as [Hk Hsk]%find_some. apply list_elem_of_In in Hk.
    assert (Hle : (length alias ≤ length k)%nat).
    { eapply find_prefix_longest; [apply sortByLengthDesc_sorted|done| |done].
      by rewrite sortByLengthDesc_perm. }
    rewrite sortByLengthDesc_perm in Hk. specialize (Hlong k Hk Hsk).
    apply startsWith_spec in Hpre as [r1 Hr1]. apply startsWith_spec in Hsk as [r2 Hr2].
    f_equal. rewrite Hr1 in Hr2. apply app_inj_1 in Hr2 as [? _]; [done|lia].
  - exfalso. apply (find_prefix_none s _ alias) in Hfind; [congruence|].
    by rewrite sortByLengthDesc_perm.
Qed.

Lemma resolveImportPath_alias (filePath alias aliasDir : str) (rs : list str) :
  (alias, aliasDir) ∈ pathsMap → rs ≠ [] → Forall cleanSegment rs →
  (∀ k, k ∈ pm_keys pathsMap → JS.startsWith (alias ++ JS.join "/" rs) k = true →
        (length k ≤ length alias)%nat) →
  resolveImportPath cwd (alias ++ JS.join "/" rs) filePath pathsMap
  = absPath (Spec.dirSegments cwd aliasDir ++ rs).
Proof.
  intros Hin Hrs Hclean Hlong.
  rewrite resolveImportPath_refines. unfold Spec.resolveImportPath.
  rewrite (find_longest_prefix _ alias); [| |apply startsWith_app|done].
  - rewrite (pm_get_NoDup _ alias aliasDir); [|apply loaded_NoDup|done].
    simpl default. rewrite drop_app_length. by apply resolve_under.
  - unfold pm_keys. apply list_elem_of_fmap. by exists (alias, aliasDir).
Qed.

End resolution.

Section below.

Import Path Fix.

Local Abbreviation slashFree := Spec.slashFree.
Local Abbreviation cleanSegment := Spec.cleanSegment.
Local Abbreviation absPath := Spec.absPath.

Context (cwd : str) (Hcwd : Spec.absolute cwd).

Lemma clean_nonempty (segs : list str) :
  Forall cleanSegment segs → Forall (λ x, x ≠ []) segs.
Proof. intros H. eapply Forall_impl; [done|]. by intros ? [? _]. Qed.

Lemma clean_slashFree (segs : list str) :
  Forall cleanSegment segs → Forall slashFree segs.
Proof. intros H. eapply Forall_impl; [done|]. by intros ? (_ & ? & _). Qed.

Lemma join_startsWith_sep (segs : list str) :
  Forall cleanSegment segs → JS.startsWith (JS.join "/" segs) "/" = false.
Proof.
  destruct segs as [|x segs]; [done|]. intros [(Hx & Hsf & _) _]%Forall_cons.
  destruct segs as [|y segs].
  - simpl JS.join. rewrite <- (app_nil_r x). by apply startsWith_slashFree.
  - rewrite join_cons by done. by apply startsWith_slashFree.
Qed.

Lemma join_length_app (D rs : list str) :
  rs ≠ [] → Forall cleanSegment rs →
  (length (JS.join "/" D) < length (JS.join "/" (D ++ rs)))%nat.
Proof.
  intros Hrs Hclean.
  assert (JS.join "/" rs ≠ []) as Hj by (by apply join_nonempty, clean_nonempty).
  destruct D as [|d D].
  - change ([] ++ rs) with rs. change (JS.join "/" []) with (@nil ascii).
    destruct (JS.join "/" rs); [done|]. simpl length. lia.
  - rewrite join_app by done. rewrite !length_app.
    change (length (list_ascii_of_string "/")) with 1%nat. lia.
Qed.

Lemma absPath_app_ne (D rs : list str) :
  rs ≠ [] → Forall cleanSegment rs → absPath D ≠ absPath (D ++ rs).
Proof.
  intros Hrs Hclean Heq. apply (f_equal length) in Heq. unfold Spec.absPath in Heq.
  rewrite !length_app in Heq. pose proof (join_length_app D rs Hrs Hclean). lia.
Qed.

(** A path that [relative] does not answer with two dots lies below
    the directory, and the answer lists the segments in between. *)
Lemma relative_below (d : str) (segs : list str) :
  Forall cleanSegment segs → resolve cwd [d] ≠ absPath segs →
  JS.startsWith (relative cwd d (absPath segs)) ".." = false →
  ∃ rs, segs = Spec.dirSegments cwd d ++ rs
        ∧ relative cwd d (absPath segs) = JS.join "/" rs ∧ rs ≠ [].
Proof.
  intros Hsegs Hne. rewrite relative_unfold.
  rewrite bool_decide_eq_false_2.
  2:{ intros ->. by rewrite resolve_idem in Hne. }
  cbv zeta. rewrite resolve_idem by done.
  rewrite bool_decide_eq_false_2 by done.
  rewrite resolve_dir in Hne |- * by done.
  pose proof (normalizeSegments_clean (Spec.resolvePrefix cwd d false)) as HD.
  fold (Spec.dirSegments cwd d) in HD. set (D := Spec.dirSegments cwd d) in *.
  change (absPath D) with (CHAR_FORWARD_SLASH :: JS.join "/" D).
  change (absPath segs) with (CHAR_FORWARD_SLASH :: JS.join "/" segs).
  intros Hdd. apply relative_resolved_cases in Hdd as [Heq|[Hnil Heq]].
  - destruct D as [|d0 D0] eqn:HDeq.
    + exfalso. pose proof (join_startsWith_sep segs Hsegs) as Hs.
      revert Hs. rewrite Heq. change (JS.join "/" []) with (@nil ascii).
      rewrite app_nil_l. by rewrite startsWith_app.
    + apply join_split in Heq as (rs & -> & Hrel & Hrs);
        [|done|by apply clean_slashFree..].
      by exists rs.
  - apply join_nil in Hnil; [|by apply clean_nonempty]. rewrite Hnil in Heq, Hne |- *.
    exists segs. split_and!; [done|done|]. by intros ->.
Qed.

(** Conversely for the segments below a directory. *)
Lemma relative_under (d : str) (rs : list str) :
  rs ≠ [] → Forall cleanSegment rs →
  relative cwd d (absPath (Spec.dirSegments cwd d ++ rs)) = JS.join "/" rs.
Proof.
  intros Hrs Hclean.
  pose proof (normalizeSegments_clean (Spec.resolvePrefix cwd d false)) as HD.
  fold (Spec.dirSegments cwd d) in HD.
  assert (Hall : Forall cleanSegment (Spec.dirSegments cwd d ++ rs)).
  { by apply Forall_app. }
  assert (Hne : resolve cwd [d] ≠ absPath (Spec.dirSegments cwd d ++ rs)).
  { rewrite resolve_dir by done. by apply absPath_app_ne. }
  rewrite relative_unfold. rewrite bool_decide_eq_false_2.
  2:{ intros Heq. apply Hne. rewrite Heq at 1. by apply resolve_idem. }
  cbv zeta. rewrite resolve_idem by done. rewrite bool_decide_eq_false_2 by done.
  rewrite resolve_dir by done. set (D := Spec.dirSegments cwd d) in *.
  assert (Hj : JS.join "/" rs ≠ []) by (by apply join_nonempty, clean_nonempty).
  change (absPath D) with (CHAR_FORWARD_SLASH :: JS.join "/" D).
  change (absPath (D ++ rs)) with (CHAR_FORWARD_SLASH :: JS.join "/" (D ++ rs)).
  destruct D as [|d0 D0] eqn:HDeq.
  - simpl app. apply relative_resolved_root; [done|]. by apply join_startsWith_sep.
  - rewrite join_app by done. apply relative_resolved_under.
    by apply join_nonempty, clean_nonempty.
Qed.

(** Whether a joined path starts with two dots is decided by its first
    segment. *)
Lemma join_dotdot (rs : list str) (b b' : str) :
  Forall cleanSegment rs →
  JS.startsWith b ".." = JS.startsWith b' ".." →
  JS.startsWith (JS.join "/" (rs ++ [b])) ".."
  = JS.startsWith (JS.join "/" (rs ++ [b'])) "..".
Proof.
  intros Hrs Hb. destruct rs as [|r rs]; [done|].
  apply Forall_cons in Hrs as [(Hr & _) _].
  change ((r :: rs) ++ [b]) with (r :: (rs ++ [b])).
  change ((r :: rs) ++ [b']) with (r :: (rs ++ [b'])).
  rewrite !join_cons by (by destruct rs).
  destruct r as [|c1 [|c2 r]]; [done| |done].
  simpl. by rewrite !andb_false_r.
Qed.

(** Two file names in the same directory that both start with two dots
    or both do not are accepted by the same alias target
    directories. *)
Lemma relative_file_dotdot (d : str) (stk : list str) (b b' : str) :
  Forall cleanSegment stk → cleanSegment b → cleanSegment b' →
  resolve cwd [d] ≠ absPath (stk ++ [b]) → resolve cwd [d] ≠ absPath (stk ++ [b']) →
  JS.startsWith b ".." = JS.startsWith b' ".." →
  JS.startsWith (relative cwd d (absPath (stk ++ [b]))) ".."
  = JS.startsWith (relative cwd d (absPath (stk ++ [b']))) "..".
Proof.
  assert (Hone : ∀ b b', cleanSegment b → cleanSegment b' →
            Forall cleanSegment stk →
            resolve cwd [d] ≠ absPath (stk ++ [b]) →
            JS.startsWith b ".." = JS.startsWith b' ".." →
            JS.startsWith (relative cwd d (absPath (stk ++ [b]))) ".." = false →
            JS.startsWith (relative cwd d (absPath (stk ++ [b']))) ".." = false).
  { clear b b'. intros b b' Hb Hb' Hstk Hne Hbb Hrel.
    destruct (relative_below d (stk ++ [b])) as (rs & Heq & Hr & Hrs); [|done..|].
    { apply Forall_app. split; [done|]. by apply Forall_singleton. }
    destruct rs as [|x rs _] using rev_ind; [done|].
    rewrite app_assoc in Heq. apply app_inj_tail in Heq as [-> ->].
    pose proof (normalizeSegments_clean (Spec.resolvePrefix cwd d false)) as HD.
    fold (Spec.dirSegments cwd d) in HD.
    apply Forall_app in Hstk as [_ Hrs'].
    rewrite <- app_assoc, relative_under.
    - rewrite <- (join_dotdot rs x b') by done. by rewrite <- Hr.
    - by destruct rs.
    - apply Forall_app. split; [done|]. by apply Forall_singleton. }
  intros Hstk Hb Hb' Hne Hne' Hbb.
  destruct (JS.startsWith (relative cwd d (absPath (stk ++ [b]))) "..") eqn:H1;
    destruct (JS.startsWith (relative cwd d (absPath (stk ++ [b']))) "..") eqn:H2;
    try done.
  - by rewrite (Hone b' b) in H1.
  - by rewrite (Hone b b') in H2.
Qed.

End below.

Section rewriting.

Import Path Fix.

Local Abbreviation slashFree := Spec.slashFree.
Local Abbreviation cleanSegment := Spec.cleanSegment.
Local Abbreviation absPath := Spec.absPath.
Local Abbreviation nameOf := Spec.nameOf.
Local Abbreviation extOf := Spec.extOf.

Context (paths : TsconfigPaths) (cwd : str) (Hcwd : Spec.absolute cwd).
Context (existsSync : str → bool) (filePath : str).

Local Abbreviation pathsMap := (Spec.loaded paths).

(** *** The parts of a specifier that ends with a file name *)

Lemma parse_file (X b : str) :
  cleanSegment b →
  parse (X ++ "/" ++ b)
  = {| root := if JS.startsWith (X ++ "/") "/" then "/" else [];
       dir := if bool_decide (X = []) then "/" else X;
       base := b; ext := extOf b; name := nameOf b |}.
Proof.
  intros (Hb & Hsf & _ & Hdd). case_bool_decide as HX.
  - subst X. rewrite app_nil_l. by rewrite parse_rooted.
  - rewrite parse_dir_file by done. by destruct X.
Qed.

Lemma format_file (X bs e n : str) :
  X ≠ "/" →
  format {| root := if JS.startsWith (X ++ "/") "/" then "/" else [];
            dir := if bool_decide (X = []) then "/" else X;
            base := bs; ext := e; name := n |}
  = X ++ "/" ++ JS.or bs (n ++ formatExt e).
Proof.
  intros HX. unfold format. cbn [dir root base name ext].
  case_bool_decide as Hnil.
  - subst X. by rewrite bool_decide_eq_true_2.
  - destruct X as [|c X]; [done|]. simpl JS.or at 1. simpl negb. cbv iota.
    rewrite bool_decide_eq_false_2; [done|].
    simpl. case_bool_decide; [|done]. subst c. simpl. intros [= ->]. done.
Qed.

Lemma format_dir (r X bs e n : str) :
  X ≠ [] → X ≠ r →
  format {| root := r; dir := X; base := bs; ext := e; name := n |}
  = X ++ "/" ++ JS.or bs (n ++ formatExt e).
Proof.
  intros Hnil Hr. unfold format. cbn [dir root base name ext].
  destruct X as [|c X]; [done|]. simpl JS.or at 1. simpl negb. cbv iota.
  by rewrite bool_decide_eq_false_2.
Qed.

Lemma relative_not_rooted (X b : str) :
  isRelativeImport (X ++ "/" ++ b) = true → JS.startsWith (X ++ "/") "/" = false ∧ X ≠ [].
Proof.
  unfold isRelativeImport. destruct X as [|c X]; [done|]. simpl.
  rewrite !andb_true_r. intros H. split; [|done].
  apply bool_decide_eq_false_2. intros <-.
  rewrite !bool_decide_eq_false_2 in H by done. done.
Qed.

(** *** The extension step *)

Lemma extensionStep_file (importPath : str) (np : ParsedPath) (stk : list str) (b : str) :
  Forall cleanSegment stk → cleanSegment b →
  base np = b → ext np = extOf b → name np = nameOf b →
  let r := (extensionStep existsSync importPath np (parse (absPath (stk ++ [b])))).1 in
  root r = root np ∧ dir r = dir np ∧ name r = nameOf b
  ∧ JS.or (base r) (name r ++ formatExt (ext r)) = Spec.newFileName existsSync stk b
  ∧ (JS.arrayIncludes tsExtensionLookups (extOf b) = false → base r = b ∧ ext r = extOf b).
Proof.
  intros Hstk Hb Hbase Hext Hname. unfold extensionStep.
  rewrite getNewExtensionPathParts_file by done. unfold Spec.newFileName.
  destruct (JS.arrayIncludes tsExtensionLookups (extOf b)).
  - destruct (List.find _ _) as [e|] eqn:Hfind; cbn [fmap option_fmap option_map fst].
    + cbn [root dir name base ext eb_base eb_ext]. split_and!; [done..| |done].
      apply find_some in Hfind as [He%list_elem_of_In _].
      rewrite formatExt_allowed by done. unfold JS.or. cbn [JS.truthy]. by rewrite Hname.
    + split_and!; [done..| |done]. rewrite Hbase. destruct Hb as [Hb _]. by destruct b.
  - cbn [fst root dir name base ext eb_base eb_ext]. split_and!; [done..| |done].
    destruct Hb as [Hb _]. by destruct b.
Qed.

(** *** The alias step *)

Lemma getAliasPathParts_loop_find (importPath : str) (entries : PathsMap) :
  getAliasPathParts_loop cwd importPath entries
  = (λ entry : str * str, dir (parse (entry.1 ++ relative cwd entry.2 importPath)))
      <$> Spec.coveringAlias cwd importPath entries.
Proof.
  unfold Spec.coveringAlias. induction entries as [|[alias aliasDir] entries IH]; [done|].
  cbn [getAliasPathParts_loop List.find fst snd].
  destruct (JS.startsWith (relative cwd aliasDir importPath) ".."); [apply IH|done].
Qed.

Lemma coveringAlias_Some (importPath alias aliasDir : str) (entries : PathsMap) :
  Spec.coveringAlias cwd importPath entries = Some (alias, aliasDir) →
  (alias, aliasDir) ∈ entries
  ∧ JS.startsWith (relative cwd aliasDir importPath) ".." = false.
Proof.
  intros [Hin Hrel]%find_some. split; [by apply list_elem_of_In|].
  by apply negb_true_iff in Hrel.
Qed.

(** The alias form, cut before the file name. *)
Lemma alias_form (k0 : str) (rs : list str) (b : str) :
  (k0 ++ "/") ++ JS.join "/" (rs ++ [b])
  = (k0 ++ (if bool_decide (rs = []) then [] else "/" ++ JS.join "/" rs)) ++ "/" ++ b.
Proof.
  rewrite join_snoc_pre. case_bool_decide; by rewrite <- !app_assoc.
Qed.

(** *** The rewritten specifier *)

(** Without a change of the directory part: the alias step does not
    run or finds no alias. *)
Lemma newImportPath_plain (skipAlias_ : bool) (X b : str) (stk : list str) :
  X ≠ "/" → cleanSegment b → Forall cleanSegment stk →
  resolveImportPath cwd (X ++ "/" ++ b) filePath pathsMap = absPath (stk ++ [b]) →
  isRelativeImport (X ++ "/" ++ b) && negb skipAlias_ = false
  ∨ Spec.coveringAlias cwd (absPath (stk ++ [b])) pathsMap = None →
  Spec.newImportPath existsSync cwd pathsMap skipAlias_ filePath (X ++ "/" ++ b)
  = X ++ "/" ++ Spec.newFileName existsSync stk b.
Proof.
  intros HX Hb Hstk Hres Hcase. unfold Spec.newImportPath, transformParts. rewrite Hres.
  pose proof (extensionStep_file (X ++ "/" ++ b) (parse (X ++ "/" ++ b)) stk b Hstk Hb)
    as Hstep.
  rewrite parse_file in Hstep |- * by done. cbn [root dir base ext name] in Hstep.
  destruct Hstep as (Hroot & Hdir & Hname & Hor & _); [done..|].
  destruct (extensionStep _ _ _ _) as [np errs1]. cbn [fst] in *.
  assert (Hnp : format np = X ++ "/" ++ Spec.newFileName existsSync stk b).
  { destruct np as [r d bs e n]. cbn [root dir base ext name] in *. subst r d.
    rewrite format_file by done. by rewrite Hor. }
  unfold aliasStep. destruct (isRelativeImport _ && negb skipAlias_) eqn:Hrel; [|done].
  destruct Hcase as [?|Hnone]; [done|].
  unfold getAliasPathParts. rewrite format_parse_absPath by done.
  by rewrite getAliasPathParts_loop_find, Hnone.
Qed.

(** With an alias: the specifier becomes the alias and the segments
    from its target directory down to the file. *)
Lemma newImportPath_alias (X b : str) (stk : list str) (alias aliasDir : str) :
  cleanSegment b → Forall cleanSegment stk →
  resolveImportPath cwd (X ++ "/" ++ b) filePath pathsMap = absPath (stk ++ [b]) →
  isRelativeImport (X ++ "/" ++ b) = true →
  Spec.coveringAlias cwd (absPath (stk ++ [b])) pathsMap = Some (alias, aliasDir) →
  resolve cwd [aliasDir] ≠ absPath (stk ++ [b]) →
  alias ≠ "/" →
  ∃ rs, stk = Spec.dirSegments cwd aliasDir ++ rs
        ∧ Spec.newImportPath existsSync cwd pathsMap false filePath (X ++ "/" ++ b)
          = alias ++ JS.join "/" (rs ++ [Spec.newFileName existsSync stk b]).
Proof.
  intros Hb Hstk Hres Hrel Hcover Hne Halias.
  apply coveringAlias_Some in Hcover as Hc. destruct Hc as [Hin Hdd].
  destruct (relative_below cwd Hcwd aliasDir (stk ++ [b])) as (rs & Heq & Hr & Hrs);
    [|done..|].
  { apply Forall_app. split; [done|]. by apply Forall_singleton. }
  destruct rs as [|x rs _] using rev_ind; [done|].
  rewrite app_assoc in Heq. apply app_inj_tail in Heq as [Heq <-].
  exists rs. split; [done|].
  apply loaded_elem in Hin as (k0 & v0 & ts & _ & -> & _).
  assert (Hk0 : k0 ≠ []) by (by intros ->).
  unfold Spec.newImportPath, transformParts. rewrite Hres.
  pose proof (extensionStep_file (X ++ "/" ++ b) (parse (X ++ "/" ++ b)) stk b Hstk Hb)
    as Hstep.
  rewrite parse_file in Hstep |- * by done. cbn [root dir base ext name] in Hstep.
  destruct Hstep as (Hroot & Hdir & Hname & Hor & _); [done..|].
  destruct (extensionStep _ _ _ _) as [np errs1]. cbn [fst] in *.
  unfold aliasStep. rewrite Hrel. cbn [negb andb].
  unfold getAliasPathParts. rewrite format_parse_absPath by done.
  rewrite getAliasPathParts_loop_find, Hcover. cbn [fmap option_fmap option_map fst snd].
  rewrite Hr, alias_form. rewrite parse_dir_file; [|by destruct k0|apply Hb..].
  cbn [dir fst]. destruct np as [r d bs e n]. cbn [root dir base ext name] in *.
  apply relative_not_rooted in Hrel as [Hrooted _]. rewrite Hrooted in Hroot. subst r.
  rewrite format_dir; [|by destruct k0..]. rewrite Hor.
  by rewrite alias_form.
Qed.

End rewriting.
(* ===================================================================== *)
(** * Specifiers with an extension outside the lookup set                  *)
(* ===================================================================== *)

Section nonlookup.

Import Path Fix.

Local Abbreviation cleanSegment := Spec.cleanSegment.
Local Abbreviation absPath := Spec.absPath.
Local Abbreviation nameOf := Spec.nameOf.
Local Abbreviation extOf := Spec.extOf.

Lemma extensionStep_nonlookup (existsSync : str → bool) (importPath : str)
      (np : ParsedPath) (stk : list str) (b : str) :
  Forall cleanSegment stk → cleanSegment b →
  JS.arrayIncludes tsExtensionLookups (extOf b) = false →
  extensionStep existsSync importPath np (parse (absPath (stk ++ [b])))
  = ({| root := root np; dir := dir np; base := b; ext := extOf b; name := name np |}, []).
Proof.
  intros Hstk Hb Hext. unfold extensionStep.
  by rewrite getNewExtensionPathParts_file, Hext by done.
Qed.

Lemma format_parse_file (X b : str) :
  X ≠ "/" → cleanSegment b → format (parse (X ++ "/" ++ b)) = X ++ "/" ++ b.
Proof.
  intros HX Hb. rewrite parse_file, format_file by done.
  destruct Hb as [Hb _]. by destruct b.
Qed.

End nonlookup.

Import Path Fix.

(** X5.  Take a specifier made of a directory part, a separator and
    a file name: a segment that is not empty, holds no separator and is
    neither a dot nor two dots.  The working directory is absolute and
    the table is one that the loader builds.  If the extension of the
    file name is outside the lookup set, the file name is kept: the
    base, the extension and the name of the rewritten parts are those
    of the specifier as written.  If moreover the directory part is
    not the bare separator and alias rewriting does not apply to the
    specifier, because [skipAlias] is set or because the specifier is
    not relative, the callback hands the match back as it was, without
    any diagnostic.  (A relative specifier with [skipAlias] off can
    still get its directory part replaced by an alias; and a specifier
    that starts with two separators loses one of them in
    [path.format].) *)
Theorem nonlookup_extension_kept (paths : TsconfigPaths) (pc : Console) (cwd : str)
        (existsSync : str → bool) (options : FixImportsOptions)
        (filePath match_ X b : str) :
  let pathsMap := Spec.loaded paths in
  let importPath := X ++ "/" ++ b in
  let newImportParts :=
    (transformParts existsSync cwd pathsMap (skipAlias options) filePath importPath).1 in
  Spec.absolute cwd →
  Spec.cleanSegment b →
  JS.arrayIncludes tsExtensionLookups (ext (parse importPath)) = false →
  (base newImportParts = base (parse importPath)
   ∧ ext newImportParts = ext (parse importPath)
   ∧ name newImportParts = name (parse importPath))
  ∧ (skipAlias options = true ∨ isRelativeImport importPath = false →
     X ≠ "/" →
     replacer pc existsSync cwd pathsMap options filePath match_ importPath
     = {| Regex.replacement := match_; Regex.importErrors := [];
          Regex.transformedImports := [] |}).
Proof.
  intros pathsMap importPath newImportParts Hcwd Hb Hext.
  destruct (resolveImportPath_file paths cwd Hcwd filePath X) as (stk & Hstk & Hres).
  specialize (Hres b Hb). fold pathsMap importPath in Hres.
  assert (Hparse := parse_file X b Hb). fold importPath in Hparse.
  rewrite Hparse in Hext |- *. cbn [base ext name] in Hext |- *.
  assert (Hparts : transformParts existsSync cwd pathsMap (skipAlias options) filePath
                     importPath
                   = aliasStep cwd pathsMap (skipAlias options) importPath
                       (parse importPath) (parse (Spec.absPath (stk ++ [b])))).
  { unfold transformParts. rewrite Hres, extensionStep_nonlookup by done.
    rewrite Hparse. cbn [root dir name]. by destruct (aliasStep _ _ _ _ _ _). }
  split.
  - unfold newImportParts. rewrite Hparts. unfold aliasStep.
    destruct (_ && _); [|by rewrite Hparse].
    destruct (getAliasPathParts _ _ _); by rewrite Hparse.
  - intros Hcase HX. unfold replacer.
    destruct (negb _); [done|]. destruct (isIgnored _ _); [done|].
    fold pathsMap importPath. rewrite Hparts. unfold aliasStep.
    assert (isRelativeImport importPath && negb (skipAlias options) = false) as ->.
    { destruct Hcase as [-> | ->]; [apply andb_false_r|done]. }
    unfold importPath. rewrite format_parse_file by done.
    by rewrite bool_decide_eq_true_2.
Qed.

(** The theorem at the style sheet of the scenario, with [skipAlias]
    on. *)
Lemma nonlookup_extension_kept_witness :
  let importPath : str := "./styles.css" in
  let match_ : str := "from " ++ [DQUOTE] ++ importPath ++ [DQUOTE] in
  replacer Scenario.console (existsSync Scenario.cwd Scenario.fsStyles) Scenario.cwd
           (Spec.loaded Scenario.paths) (Scenario.options true true) "src/a.ts"
           match_ importPath
  = {| Regex.replacement := match_; Regex.importErrors := [];
       Regex.transformedImports := [] |}.
Proof.
  intros importPath match_.
  refine (proj2 (nonlookup_extension_kept Scenario.paths Scenario.console Scenario.cwd
                   (existsSync Scenario.cwd Scenario.fsStyles) (Scenario.options true true)
                   "src/a.ts" match_ "." "styles.css" _ _ _) _ _).
  - reflexivity.
  - compute_done.
  - reflexivity.
  - left. reflexivity.
  - discriminate.
Defined.

(** With [skipAlias] off the style sheet of the scenario is imported
    through the alias afterwards: the specifier has changed although
    its extension is outside the lookup set. *)
Lemma nonlookup_extension_counterexample :
  let content := Scenario.importLine "./styles.css" in
  let run := fixImports Scenario.console Scenario.cwd (Some Scenario.paths)
               Scenario.fsStyles [("src/a.ts" : str)] (Scenario.options true false) in
  ext (parse "./styles.css") = ".css"
  ∧ JS.arrayIncludes tsExtensionLookups ".css" = false
  ∧ Scenario.fsStyles !! ("/proj/src/a.ts" : str) = Some (File content)
  ∧ (transformContent Scenario.console Scenario.cwd (Spec.loaded Scenario.paths)
       (Scenario.options true false) Scenario.fsStyles "src/a.ts" content).1.1
    = Scenario.importLine "~/styles.css"
  ∧ files_after run !! ("/proj/src/a.ts" : str)
    = Some (File (Scenario.importLine "~/styles.css")).
Proof. vm_compute. split_and!; reflexivity. Qed.
(* ===================================================================== *)
(** * Alias rewriting and the resolver                                     *)
(* ===================================================================== *)

Section round_trip.

Import Path Fix.


End round_trip.

Import Path Fix.



(** Where the round trip fails.
    - Under the configuration with the shadowing alias, [./x.ts] in
      [src/lib/a.ts] resolves to [/proj/src/lib/x.ts], which lies
      below the target of [~/]; it is rewritten to [~/lib/x.ts],
      which the resolver, preferring the longer key [~/lib/], sends
      to [/proj/other/x.ts].
    - In the scenario of the specification [./b] resolves to
      [/proj/src/b], and the rewritten specifier [~/b.ts] to
      [/proj/src/b.ts].
    - A specifier that resolves to the target directory itself is
      accepted by the alias rewriter and loses its directory part:
      [../src] becomes [src].
    - With the alias [/] the rewritten specifier starts with two
      separators, and resolves outside the project. *)
Lemma alias_round_trip_counterexample :
  let shadow := Spec.loaded Shadow.paths in
  let exShadow := existsSync Shadow.cwd Shadow.fs in
  let scenario := Spec.loaded Scenario.paths in
  let exScenario := existsSync Scenario.cwd Scenario.fs in
  let rootAlias := Spec.loaded [("/*" : str, [("./src/*" : str)])] in
  (isRelativeImport "./x.ts" = true
   ∧ resolveImportPath Shadow.cwd "./x.ts" Shadow.filePath shadow = "/proj/src/lib/x.ts"
   ∧ relative Shadow.cwd "./src/" "/proj/src/lib/x.ts" = "lib/x.ts"
   ∧ Spec.newImportPath exShadow Shadow.cwd shadow false Shadow.filePath "./x.ts"
     = "~/lib/x.ts"
   ∧ resolveImportPath Shadow.cwd "~/lib/x.ts" Shadow.filePath shadow = "/proj/other/x.ts")
  ∧ (resolveImportPath Scenario.cwd "./b" "src/a.ts" scenario = "/proj/src/b"
     ∧ Spec.newImportPath exScenario Scenario.cwd scenario false "src/a.ts" "./b" = "~/b.ts"
     ∧ resolveImportPath Scenario.cwd "~/b.ts" "src/a.ts" scenario = "/proj/src/b.ts")
  ∧ (resolveImportPath Scenario.cwd "../src" "src/a.ts" scenario = "/proj/src"
     ∧ relative Scenario.cwd "./src/" "/proj/src" = []
     ∧ Spec.newImportPath exScenario Scenario.cwd scenario false "src/a.ts" "../src" = "src")
  ∧ (resolveImportPath Scenario.cwd "./b" "src/a.ts" rootAlias = "/proj/src/b"
     ∧ relative Scenario.cwd "./src/" "/proj/src/b" = "b"
     ∧ Spec.newImportPath exScenario Scenario.cwd rootAlias false "src/a.ts" "./b" = "//b.ts"
     ∧ resolveImportPath Scenario.cwd "//b.ts" "src/a.ts" rootAlias = "/b.ts").
Proof. vm_compute. split_and!; reflexivity. Qed.
(* ===================================================================== *)
(** * A rewritten specifier is rewritten to itself                         *)
(* ===================================================================== *)

Section stable.

Import Path Fix.

Local Abbreviation cleanSegment := Spec.cleanSegment.
Local Abbreviation absPath := Spec.absPath.

Context (paths : TsconfigPaths) (cwd : str) (Hcwd : Spec.absolute cwd).
Context (existsSync : str → bool) (filePath : str).

Local Abbreviation pathsMap := (Spec.loaded paths).

Lemma isRelativeImport_file (X b b' : str) :
  cleanSegment b → cleanSegment b' →
  isRelativeImport (X ++ "/" ++ b) = isRelativeImport (X ++ "/" ++ b').
Proof.
  intros (_ & Hb & _) (_ & Hb' & _). unfold isRelativeImport.
  by rewrite !(closed_prefix "./"), !(closed_prefix "../").
Qed.

Lemma coveringAlias_file (entries : PathsMap) (stk : list str) (b b' : str) :
  Forall cleanSegment stk → cleanSegment b → cleanSegment b' →
  Forall (λ entry : str * str,
            resolve cwd [entry.2] ≠ absPath (stk ++ [b])
            ∧ resolve cwd [entry.2] ≠ absPath (stk ++ [b'])) entries →
  JS.startsWith b ".." = JS.startsWith b' ".." →
  Spec.coveringAlias cwd (absPath (stk ++ [b])) entries
  = Spec.coveringAlias cwd (absPath (stk ++ [b'])) entries.
Proof.
  intros Hstk Hb Hb' Hdirs Hdd. unfold Spec.coveringAlias. apply find_ext_in.
  intros entry Hin. rewrite Forall_forall in Hdirs. destruct (Hdirs entry Hin) as [H1 H2].
  f_equal. by apply relative_file_dotdot.
Qed.

(** The alias form, read as a directory part and a file name: the
    directory part is not the bare separator when the alias does not
    start with one. *)
Lemma alias_form_dir (k0 : str) (rs : list str) :
  JS.startsWith (k0 ++ "/") "/" = false →
  k0 ++ (if bool_decide (rs = []) then [] else "/" ++ JS.join "/" rs) ≠ "/".
Proof.
  destruct k0 as [|c k0]; [done|]. intros Hc Heq.
  change ((c :: k0) ++ ?x) with (c :: (k0 ++ x)) in Heq.
  injection Heq as -> _. by vm_compute in Hc.
Qed.

Lemma newImportPath_stable (skipAlias_ : bool) (X b : str) :
  let importPath := X ++ "/" ++ b in
  let resolved := resolveImportPath cwd importPath filePath pathsMap in
  let target := Spec.targetFile existsSync resolved in
  let new := Spec.newImportPath existsSync cwd pathsMap skipAlias_ filePath importPath in
  cleanSegment b → X ≠ "/" →
  (isRelativeImport importPath && negb skipAlias_ = true →
   Forall (λ entry : str * str,
             resolve cwd [entry.2] ≠ resolved ∧ resolve cwd [entry.2] ≠ target) pathsMap
   ∧ ∀ alias aliasDir,
       Spec.coveringAlias cwd resolved pathsMap = Some (alias, aliasDir) →
       JS.startsWith alias "/" = false
       ∧ ∀ k, k ∈ pm_keys pathsMap → JS.startsWith new k = true →
              (length k ≤ length alias)%nat) →
  Spec.newImportPath existsSync cwd pathsMap skipAlias_ filePath new = new.
Proof.
  intros importPath resolved target new Hb HX Hreg.
  destruct (resolveImportPath_file paths cwd Hcwd filePath X) as (stk & Hstk & Hres).
  pose proof (Hres b Hb) as HresP. fold importPath resolved in HresP.
  set (fn := Spec.newFileName existsSync stk b).
  assert (Hfn : cleanSegment fn) by (by apply newFileName_clean).
  assert (Hstable : Spec.newFileName existsSync stk fn = fn) by (by apply newFileName_stable).
  assert (Htarget : target = absPath (stk ++ [fn])).
  { unfold target. by rewrite HresP, targetFile_absPath. }
  destruct (isRelativeImport importPath && negb skipAlias_) eqn:Hstep.
  - destruct (Hreg eq_refl) as [Hdirs Hcov]. clear Hreg.
    apply andb_true_iff in Hstep as [Hrel Hskip]. apply negb_true_iff in Hskip. subst skipAlias_.
    rewrite HresP, Htarget in Hdirs.
    assert (Hsame : Spec.coveringAlias cwd (absPath (stk ++ [fn])) pathsMap
                    = Spec.coveringAlias cwd (absPath (stk ++ [b])) pathsMap).
    { symmetry. apply coveringAlias_file; [done..|]. symmetry. by apply newFileName_dotdot. }
    destruct (Spec.coveringAlias cwd (absPath (stk ++ [b])) pathsMap)
      as [[alias aliasDir]|] eqn:Hcover.
    + rewrite HresP in Hcov. destruct (Hcov alias aliasDir Hcover) as [Hsep Hlong].
      apply coveringAlias_Some in Hcover as Hc. destruct Hc as [Hin _].
      rewrite Forall_forall in Hdirs. destruct (Hdirs _ Hin) as [HdP HdT]. simpl in HdP, HdT.
      destruct (newImportPath_alias paths cwd Hcwd existsSync filePath X b stk alias aliasDir)
        as (rs & Hrs & Hnew); [done..|by intros ->|].
      fold importPath new fn in Hnew.
      assert (Hclean : Forall cleanSegment (rs ++ [fn])).
      { rewrite Hrs in Hstk. apply Forall_app in Hstk as [_ ?].
        apply Forall_app. split; [done|]. by apply Forall_singleton. }
      assert (HresN : resolveImportPath cwd new filePath pathsMap = absPath (stk ++ [fn])).
      { rewrite Hnew, Hrs, <- app_assoc.
        apply resolveImportPath_alias; [done..|by destruct rs|done|].
        intros k Hk Hpre. apply Hlong; [done|]. by rewrite Hnew. }
      apply loaded_elem in Hin as Hkey. destruct Hkey as (k0 & v0 & ts & _ & Hk0 & _).
      subst alias. rewrite alias_form in Hnew. rewrite Hnew in HresN |- *.
      set (Xa := k0 ++ (if bool_decide (rs = []) then [] else "/" ++ JS.join "/" rs)) in *.
      destruct (isRelativeImport (Xa ++ "/" ++ fn)) eqn:HrelN.
      * destruct (newImportPath_alias paths cwd Hcwd existsSync filePath Xa fn stk
                    (k0 ++ "/") aliasDir) as (rs2 & Hrs2 & Hnew2);
          [done..|by rewrite Hsame| done |intros Heq; by rewrite Heq in Hsep|].
        rewrite Hnew2, Hstable. rewrite Hrs in Hrs2. apply app_inv_head in Hrs2 as <-.
        by rewrite alias_form.
      * rewrite (newImportPath_plain paths cwd existsSync filePath false Xa fn stk);
          [by rewrite Hstable| |done..|].
        -- by apply alias_form_dir.
        -- left. by rewrite HrelN.
    + assert (Hnew : new = X ++ "/" ++ fn).
      { apply newImportPath_plain; [done..|]. by right. }
      rewrite Hnew.
      rewrite (newImportPath_plain paths cwd existsSync filePath false X fn stk);
        [by rewrite Hstable|done..| |].
      * by apply Hres.
      * right. by rewrite Hsame.
  - assert (Hnew : new = X ++ "/" ++ fn).
    { apply newImportPath_plain; [done..|]. by left. }
    rewrite Hnew.
    rewrite (newImportPath_plain paths cwd existsSync filePath skipAlias_ X fn stk);
      [by rewrite Hstable|done..| |].
    + by apply Hres.
    + left. by rewrite <- (isRelativeImport_file X b fn).
Qed.

End stable.
(* ===================================================================== *)
(** * The pattern on a rewritten text                                      *)
(* ===================================================================== *)

Section pattern.

Local Abbreviation isWhiteSpace := Regex.isWhiteSpace.
Local Abbreviation isQuote := Regex.isQuote.
Local Abbreviation atLineEnd := Regex.atLineEnd.
Local Abbreviation matchText := Spec.matchText.
Local Abbreviation matchShape := Spec.matchShape.
Local Abbreviation captured := Spec.captured.
Local Abbreviation accepts := Spec.accepts.

(** *** The shape of a match *)

Lemma span_spec (p : ascii → bool) (s : str) :
  Forall (λ c, p c = true) (Regex.span p s).1
  ∧ match (Regex.span p s).2 with [] => True | c :: _ => p c = false end.
Proof.
  induction s as [|c s IH]; simpl; [done|].
  destruct (p c) eqn:Hc; [|done].
  destruct (Regex.span p s) as [a b]. simpl in *. destruct IH as [IH1 IH2].
  split; [by constructor|done].
Qed.

Lemma span_all (p : ascii → bool) (a r : str) :
  Forall (λ c, p c = true) a →
  match r with [] => True | c :: _ => p c = false end →
  Regex.span p (a ++ r) = (a, r).
Proof.
  intros Ha Hr. induction Ha as [|c a Hc Ha IH]; simpl.
  - destruct r as [|c r]; [done|]. simpl. by rewrite Hr.
  - by rewrite Hc, IH.
Qed.

Lemma quote_not_space (q : ascii) : isQuote q = true → isWhiteSpace q = false.
Proof.
  unfold Regex.isQuote. intros [->%bool_decide_eq_true| ->%bool_decide_eq_true]%orb_true_iff;
    reflexivity.
Qed.

Lemma keyword_cases (s kw : str) :
  Regex.keyword s = Some kw →
  (kw = "import" ∨ kw = "from") ∧ s = kw ++ drop (length kw) s.
Proof.
  unfold Regex.keyword.
  destruct (JS.startsWith s "import") eqn:H1.
  - intros [= <-]. split; [by left|]. apply startsWith_spec in H1 as [r ->].
    by rewrite drop_app_length.
  - destruct (JS.startsWith s "from") eqn:H2; [|done].
    intros [= <-]. split; [by right|]. apply startsWith_spec in H2 as [r ->].
    by rewrite drop_app_length.
Qed.

Lemma keyword_intro (kw r : str) :
  kw = "import" ∨ kw = "from" → Regex.keyword (kw ++ r) = Some kw.
Proof. by intros [-> | ->]. Qed.

Lemma matchHere_shape (s m cap : str) :
  Regex.matchHere s = Some (m, cap) →
  ∃ kw ws q q2 rest,
    matchShape kw ws q q2 ∧ captured cap
    ∧ m = matchText kw ws q cap q2 ∧ s = m ++ rest ∧ atLineEnd rest = true.
Proof.
  unfold Regex.matchHere.
  destruct (Regex.keyword s) as [kw|] eqn:Hkw; [|done].
  apply keyword_cases in Hkw as [Hkw Hs].
  pose proof (span_app isWhiteSpace (drop (length kw) s)) as Hws.
  pose proof (span_spec isWhiteSpace (drop (length kw) s)) as [Hws1 Hws2].
  destruct (Regex.span isWhiteSpace _) as [ws s2]. simpl in Hws, Hws1, Hws2.
  destruct ws as [|w ws]; [done|]. destruct s2 as [|q s3]; [done|].
  destruct (isQuote q) eqn:Hq; [|done].
  pose proof (span_app (λ c, negb (isQuote c)) s3) as Hcap.
  pose proof (span_spec (λ c, negb (isQuote c)) s3) as [Hcap1 Hcap2].
  destruct (Regex.span _ s3) as [cap' s4]. simpl in Hcap, Hcap1, Hcap2.
  destruct cap' as [|c0 cap']; [done|]. destruct s4 as [|q2 s5]; [done|].
  destruct (atLineEnd s5) eqn:Hend; [|done].
  intros [= <- <-]. exists kw, (w :: ws), q, q2, s5.
  unfold Spec.matchShape, Spec.captured. split_and!; try done.
  - by apply negb_false_iff.
  - eapply Forall_impl; [exact Hcap1|]. intros c. by rewrite negb_true_iff.
  - rewrite Hs at 1. rewrite Hws, Hcap. unfold Spec.matchText. by app_norm.
Qed.

Lemma matchHere_intro (kw ws : str) (q q2 : ascii) (cap rest : str) :
  matchShape kw ws q q2 → captured cap → atLineEnd rest = true →
  Regex.matchHere (matchText kw ws q cap q2 ++ rest)
  = Some (matchText kw ws q cap q2, cap).
Proof.
  intros (Hkw & Hws & Hws' & Hq & Hq2) (Hcap & Hcap') Hend.
  unfold Regex.matchHere, Spec.matchText. rewrite <- !app_assoc.
  rewrite keyword_intro by done. rewrite drop_app_length.
  rewrite (span_all isWhiteSpace ws); [|done|simpl; by apply quote_not_space].
  destruct ws as [|w ws]; [done|]. change ([q] ++ cap ++ [q2] ++ rest)
    with (q :: (cap ++ q2 :: rest)). cbv iota. rewrite Hq.
  rewrite (span_all (λ c, negb (isQuote c)) cap).
  - destruct cap as [|c0 cap]; [done|]. by rewrite Hend.
  - eapply Forall_impl; [exact Hcap'|]. intros c. by rewrite negb_true_iff.
  - by rewrite Hq2.
Qed.

(** *** The automaton *)

Lemma accepts_keyword (kw r : str) :
  kw = "import" ∨ kw = "from" →
  accepts (kw ++ r) (Spec.SKeyword kw) = accepts r (Spec.SSpace false).
Proof.
  intros [-> | ->]; cbn [app list_ascii_of_string Spec.accepts];
    rewrite ?bool_decide_eq_true_2 by reflexivity; reflexivity.
Qed.

Lemma accepts_space (ws : str) (q : ascii) (r : str) (seen : bool) :
  Forall (λ c, isWhiteSpace c = true) ws → isQuote q = true →
  accepts (ws ++ q :: r) (Spec.SSpace seen)
  = (seen || bool_decide (ws ≠ [])) && accepts r (Spec.SCapture false).
Proof.
  intros Hws Hq. revert seen. induction Hws as [|w ws Hw Hws IH]; intros seen.
  - simpl. rewrite (quote_not_space q Hq), Hq. by rewrite orb_false_r, andb_true_r.
  - simpl. rewrite Hw, IH. by rewrite orb_true_r.
Qed.

Lemma accepts_capture (cap : str) (q : ascii) (r : str) (seen : bool) :
  Forall (λ c, isQuote c = false) cap → isQuote q = true →
  accepts (cap ++ q :: r) (Spec.SCapture seen)
  = (seen || bool_decide (cap ≠ [])) && atLineEnd r.
Proof.
  intros Hcap Hq. revert seen. induction Hcap as [|c cap Hc Hcap IH]; intros seen.
  - simpl. rewrite Hq. by rewrite orb_false_r.
  - simpl. rewrite Hc, IH. by rewrite orb_true_r.
Qed.

Lemma accepts_match (kw ws : str) (q q2 : ascii) (cap rest : str) :
  matchShape kw ws q q2 → captured cap →
  accepts (matchText kw ws q cap q2 ++ rest) (Spec.SKeyword kw) = atLineEnd rest.
Proof.
  intros (Hkw & Hws & Hws' & Hq & Hq2) (Hcap & Hcap').
  unfold Spec.matchText. rewrite <- !app_assoc.
  rewrite accepts_keyword by done.
  change ([q] ++ cap ++ [q2] ++ rest) with (q :: (cap ++ q2 :: rest)).
  rewrite accepts_space by done. rewrite accepts_capture by done.
  by rewrite !bool_decide_eq_true_2.
Qed.

Lemma accepts_space_inv (r : str) (seen : bool) :
  accepts r (Spec.SSpace seen) = true →
  ∃ ws q r', r = ws ++ q :: r' ∧ Forall (λ c, isWhiteSpace c = true) ws
             ∧ isQuote q = true ∧ (seen = true ∨ ws ≠ [])
             ∧ accepts r' (Spec.SCapture false) = true.
Proof.
  revert seen. induction r as [|c r IH]; intros seen; simpl; [done|].
  destruct (isWhiteSpace c) eqn:Hc.
  - intros (ws & q & r' & -> & Hws & Hq & _ & Hacc)%IH.
    exists (c :: ws), q, r'. split_and!; try done; [by constructor|by right].
  - intros [[-> Hq]%andb_true_iff Hacc]%andb_true_iff.
    exists [], c, r. split_and!; try done. by left.
Qed.

Lemma accepts_capture_inv (r : str) (seen : bool) :
  accepts r (Spec.SCapture seen) = true →
  ∃ cap q r', r = cap ++ q :: r' ∧ Forall (λ c, isQuote c = false) cap
              ∧ isQuote q = true ∧ (seen = true ∨ cap ≠ [])
              ∧ atLineEnd r' = true.
Proof.
  revert seen. induction r as [|c r IH]; intros seen; simpl; [done|].
  destruct (isQuote c) eqn:Hc.
  - intros [-> Hend]%andb_true_iff. exists [], c, r. split_and!; try done. by left.
  - intros (cap & q & r' & -> & Hcap & Hq & _ & Hend)%IH.
    exists (c :: cap), q, r'. split_and!; try done; [by constructor|by right].
Qed.

Lemma accepts_keyword_inv (s kw : str) :
  kw = "import" ∨ kw = "from" →
  accepts s (Spec.SKeyword kw) = true →
  ∃ r, s = kw ++ r ∧ accepts r (Spec.SSpace false) = true.
Proof.
  intros [-> | ->].
  - destruct s as [|c1 [|c2 [|c3 [|c4 [|c5 [|c6 r]]]]]]; simpl;
      rewrite ?andb_false_r; try done.
    rewrite !andb_true_iff, !bool_decide_eq_true.
    intros (-> & -> & -> & -> & -> & -> & Hacc). by exists r.
  - destruct s as [|c1 [|c2 [|c3 [|c4 r]]]]; simpl; rewrite ?andb_false_r; try done.
    rewrite !andb_true_iff, !bool_decide_eq_true.
    intros (-> & -> & -> & -> & Hacc). by exists r.
Qed.

(** The attempt at the start of a text succeeds exactly when the
    pattern matches there. *)
Lemma matchHere_None (s kw : str) :
  kw = "import" ∨ kw = "from" →
  Regex.matchHere s = None → accepts s (Spec.SKeyword kw) = false.
Proof.
  intros Hkw Hnone. destruct (accepts s (Spec.SKeyword kw)) eqn:Hacc; [|done].
  apply accepts_keyword_inv in Hacc as (r & -> & Hacc); [|done].
  apply accepts_space_inv in Hacc as (ws & q & r' & -> & Hws & Hq & Hne & Hacc).
  apply accepts_capture_inv in Hacc as (cap & q2 & r2 & -> & Hcap & Hq2 & Hne2 & Hend).
  assert (Heq : kw ++ ws ++ q :: cap ++ q2 :: r2 = matchText kw ws q cap q2 ++ r2).
  { unfold Spec.matchText. by app_norm. }
  rewrite Heq, matchHere_intro in Hnone; [done| | |done].
  - unfold Spec.matchShape. split_and!; try done. by destruct Hne.
  - split; [|done]. by destruct Hne2.
Qed.

End pattern.

Section twice.

Local Abbreviation isWhiteSpace := Regex.isWhiteSpace.
Local Abbreviation isQuote := Regex.isQuote.
Local Abbreviation atLineEnd := Regex.atLineEnd.
Local Abbreviation matchText := Spec.matchText.
Local Abbreviation matchShape := Spec.matchShape.
Local Abbreviation captured := Spec.captured.
Local Abbreviation accepts := Spec.accepts.

(** *** The scan, match by match *)

Lemma replace_go_match (cb : str → str → Regex.Replaced) (s m cap rest : str) :
  Regex.matchHere s = Some (m, cap) → s = m ++ rest →
  Regex.replace_go cb s 0
  = ((Regex.replacement (cb m cap) ++ (Regex.replace_go cb rest 0).1.1,
      Regex.importErrors (cb m cap) ++ (Regex.replace_go cb rest 0).1.2),
     Regex.transformedImports (cb m cap) ++ (Regex.replace_go cb rest 0).2).
Proof.
  intros Hm Hs. destruct (matchHere_prefix _ _ _ Hm) as [Hne _].
  destruct m as [|c m]; [done|]. subst s. simpl app in *. cbn [Regex.replace_go].
  rewrite Hm. replace (length (c :: m) - 1)%nat with (length m) by (simpl; lia).
  rewrite replace_go_skip.
  by destruct (Regex.replace_go cb rest 0) as [[out errs] logs].
Qed.

Lemma replace_go_char (cb : str → str → Regex.Replaced) (c : ascii) (s : str) :
  Regex.matchHere (c :: s) = None →
  Regex.replace_go cb (c :: s) 0
  = ((c :: (Regex.replace_go cb s 0).1.1, (Regex.replace_go cb s 0).1.2),
     (Regex.replace_go cb s 0).2).
Proof.
  intros Hm. cbn [Regex.replace_go]. rewrite Hm.
  by destruct (Regex.replace_go cb s 0) as [[out errs] logs].
Qed.

Lemma importPaths_match (s m cap rest : str) :
  Regex.matchHere s = Some (m, cap) → s = m ++ rest →
  Spec.importPaths s = cap :: Spec.importPaths rest.
Proof.
  intros Hm Hs. unfold Spec.importPaths, Regex.replace.
  by rewrite (replace_go_match _ s m cap rest).
Qed.

Lemma importPaths_char (c : ascii) (s : str) :
  Regex.matchHere (c :: s) = None → Spec.importPaths (c :: s) = Spec.importPaths s.
Proof.
  intros Hm. unfold Spec.importPaths, Regex.replace. by rewrite replace_go_char.
Qed.

(** *** A callback that puts specifiers in the place of specifiers

    [cb1] answers a match whose specifier satisfies [P] with the same
    match around another specifier, which the pattern captures as
    well; at the start of a line it is only when the old one was.
    [cb2] leaves the new match alone. *)
Context (cb1 cb2 : str → str → Regex.Replaced) (P : str → Prop).

Hypothesis Hcb : ∀ kw ws q q2 cap,
  matchShape kw ws q q2 → captured cap → P cap →
  ∃ cap',
    Regex.replacement (cb1 (matchText kw ws q cap q2) cap) = matchText kw ws q cap' q2
    ∧ captured cap'
    ∧ (atLineEnd cap' = true → atLineEnd cap = true)
    ∧ Regex.replacement (cb2 (matchText kw ws q cap' q2) cap') = matchText kw ws q cap' q2
    ∧ Regex.transformedImports (cb2 (matchText kw ws q cap' q2) cap') = [].

Local Abbreviation out := (λ s, (Regex.replace_go cb1 s 0).1.1).

Lemma atLineEnd_out (s : str) :
  Forall P (Spec.importPaths s) → atLineEnd (out s) = atLineEnd s.
Proof.
  intros HP. destruct s as [|c s]; [done|].
  destruct (Regex.matchHere (c :: s)) as [[m cap]|] eqn:Hm.
  - destruct (matchHere_shape _ _ _ Hm) as (kw & ws & q & q2 & rest & Hsh & Hcap & -> & Hs & _).
    rewrite (replace_go_match cb1 _ _ _ rest Hm Hs). cbn [fst].
    rewrite (importPaths_match _ _ _ rest Hm Hs) in HP. apply Forall_cons in HP as [HP _].
    destruct (Hcb kw ws q q2 cap Hsh Hcap HP) as (cap' & -> & _).
    rewrite Hs. destruct Hsh as ([-> | ->] & _); reflexivity.
  - by rewrite replace_go_char.
Qed.

Lemma reachable_next (k : ascii) (ks : str) :
  Spec.reachable (Spec.SKeyword (k :: ks)) →
  Spec.reachable (match ks with [] => Spec.SSpace false | _ => Spec.SKeyword ks end).
Proof.
  intros H. unfold Spec.reachable in H.
  repeat (apply elem_of_cons in H as [H|H];
          [simpl in H; injection H as -> ->; compute_done|]).
  by apply elem_of_nil in H.
Qed.

(** An attempt that succeeds on the new text succeeds on the old
    one. *)
Lemma accepts_out (n : nat) (s : str) (st : Spec.Stage) :
  (length s ≤ n)%nat → Forall P (Spec.importPaths s) → Spec.reachable st →
  accepts (out s) st = true → accepts s st = true.
Proof.
  revert s st. induction n as [|n IH]; intros s st Hn HP Hst.
  { destruct s; [done|simpl in Hn; lia]. }
  destruct s as [|c s]; [done|].
  destruct (Regex.matchHere (c :: s)) as [[m cap]|] eqn:Hm.
  - destruct (matchHere_shape _ _ _ Hm) as (kw & ws & q & q2 & rest & Hsh & Hcap & -> & Hs & He).
    rewrite (replace_go_match cb1 _ _ _ rest Hm Hs). cbn [fst].
    rewrite (importPaths_match _ _ _ rest Hm Hs) in HP. apply Forall_cons in HP as [HP HPrest].
    destruct (Hcb kw ws q q2 cap Hsh Hcap HP) as (cap' & -> & Hcap' & Hend & _).
    rewrite Hs. destruct st as [k|seen|seen].
    + destruct (decide (k = kw)) as [->|Hk].
      * intros _. by rewrite accepts_match.
      * intros Hacc. exfalso. revert Hacc. unfold Spec.reachable in Hst.
        rewrite !elem_of_cons, elem_of_nil in Hst. unfold Spec.matchText.
        destruct Hsh as ([-> | ->] & _);
          destruct Hst as [->|[->|[->|[->|[->|[->|[->|[->|[->|[->|[]]]]]]]]]]];
          try done.
    + intros Hacc. exfalso. revert Hacc. unfold Spec.matchText.
      destruct Hsh as ([-> | ->] & _); simpl; by rewrite andb_false_r.
    + destruct Hsh as (Hkw & Hws & Hws' & Hq & Hq2). destruct Hcap as [Hc1 Hc2].
      destruct Hcap' as [Hc1' Hc2'].
      assert (Hrun : ∀ x r, accepts (matchText kw ws q x q2 ++ r) (Spec.SCapture seen)
                           = atLineEnd (x ++ q2 :: r)).
      { intros x r. unfold Spec.matchText.
        replace ((kw ++ ws ++ [q] ++ x ++ [q2]) ++ r)
          with ((kw ++ ws) ++ q :: (x ++ q2 :: r)) by (by app_norm).
        rewrite accepts_capture; [|apply Forall_app; split|done].
        - rewrite bool_decide_eq_true_2, orb_true_r; [done|].
          destruct Hkw as [-> | ->]; done.
        - destruct Hkw as [-> | ->]; by repeat constructor.
        - eapply Forall_impl; [exact Hws'|]. intros x0 Hx0. cbv beta in Hx0 |- *.
          destruct (isQuote x0) eqn:Hq0; [|done].
          by rewrite (quote_not_space x0 Hq0) in Hx0. }
      rewrite !Hrun. destruct cap' as [|c0' cap']; [done|]. destruct cap as [|c0 cap]; [done|].
      exact Hend.
  - rewrite replace_go_char by done. cbn [fst]. rewrite importPaths_char in HP by done.
    assert (Hlen : (length s ≤ n)%nat) by (simpl in Hn; lia).
    destruct st as [[|k ks]|seen|seen]; simpl; [done| | |].
    + intros [Hc Hacc]%andb_true_iff. rewrite Hc. simpl.
      apply (IH s _ Hlen HP); [|done]. by apply (reachable_next k).
    + destruct (isWhiteSpace c); [by apply IH|].
      intros [Hq Hacc]%andb_true_iff. rewrite Hq. by apply IH.
    + destruct (isQuote c); [|by apply IH].
      by rewrite atLineEnd_out.
Qed.

(** The pattern finds no match in the new text where it found none in
    the old one. *)
Lemma matchHere_out (c : ascii) (s : str) :
  Forall P (Spec.importPaths s) →
  Regex.matchHere (c :: s) = None → Regex.matchHere (c :: out s) = None.
Proof.
  intros HP Hm. destruct (Regex.matchHere (c :: out s)) as [[m cap]|] eqn:Hm'; [|done].
  exfalso.
  destruct (matchHere_shape _ _ _ Hm') as (kw & ws & q & q2 & rest & Hsh & Hcap & -> & Hs & He).
  assert (Hacc : accepts (c :: out s) (Spec.SKeyword kw) = true).
  { rewrite Hs. by rewrite accepts_match. }
  assert (Hkw : kw = "import" ∨ kw = "from") by apply Hsh.
  assert (Hold : accepts (c :: s) (Spec.SKeyword kw) = true).
  { apply (accepts_out (S (length s)) (c :: s)); [done| |..].
    - by rewrite importPaths_char.
    - unfold Spec.reachable. destruct Hkw as [-> | ->]; rewrite !elem_of_cons; tauto.
    - by rewrite replace_go_char. }
  by rewrite (matchHere_None (c :: s) kw Hkw Hm) in Hold.
Qed.

(** The second scan changes nothing. *)
Lemma replace_go_twice (n : nat) (s : str) :
  (length s ≤ n)%nat → Forall P (Spec.importPaths s) →
  (Regex.replace_go cb2 (out s) 0).1.1 = out s
  ∧ (Regex.replace_go cb2 (out s) 0).2 = [].
Proof.
  revert s. induction n as [|n IH]; intros s Hn HP.
  { destruct s; [done|simpl in Hn; lia]. }
  destruct s as [|c s]; [done|].
  destruct (Regex.matchHere (c :: s)) as [[m cap]|] eqn:Hm.
  - destruct (matchHere_shape _ _ _ Hm) as (kw & ws & q & q2 & rest & Hsh & Hcap & -> & Hs & He).
    rewrite (replace_go_match cb1 _ _ _ rest Hm Hs). cbn [fst].
    rewrite (importPaths_match _ _ _ rest Hm Hs) in HP. apply Forall_cons in HP as [HP HPrest].
    destruct (Hcb kw ws q q2 cap Hsh Hcap HP) as (cap' & -> & Hcap' & _ & Hrep & Hlog).
    assert (Hlen : (length rest ≤ n)%nat).
    { apply (f_equal length) in Hs. rewrite length_app in Hs. simpl in Hs, Hn.
      assert (0 < length (matchText kw ws q cap q2))%nat; [|lia].
      unfold Spec.matchText. rewrite !length_app. simpl. lia. }
    destruct (IH rest Hlen HPrest) as [IH1 IH2].
    rewrite (replace_go_match cb2 _ (matchText kw ws q cap' q2) cap' (out rest)); [| |done].
    + cbn [fst snd]. by rewrite Hrep, Hlog, IH1, IH2.
    + apply matchHere_intro; [done..|]. by rewrite atLineEnd_out.
  - rewrite replace_go_char by done. cbn [fst]. rewrite importPaths_char in HP by done.
    assert (Hlen : (length s ≤ n)%nat) by (simpl in Hn; lia).
    destruct (IH s Hlen HP) as [IH1 IH2].
    rewrite replace_go_char by (by apply matchHere_out). cbn [fst snd].
    by rewrite IH1, IH2.
Qed.

End twice.
(* ===================================================================== *)
(** * Running the pass twice                                               *)
(* ===================================================================== *)

Section replace_capture.

Local Abbreviation matchText := Spec.matchText.
Local Abbreviation matchShape := Spec.matchShape.

Lemma getSubstitution_plain (matched preceding following r : str) :
  Spec.plainReplacement r = true →
  JS.getSubstitution matched preceding following r = r.
Proof.
  induction r as [|c r IH]; [done|]. cbn [Spec.plainReplacement JS.getSubstitution].
  intros [Hc Hr]%andb_true_iff. specialize (IH Hr).
  destruct (decide (c = "$"%char)) as [->|Hne].
  - rewrite bool_decide_eq_true_2 in Hc by done. destruct r as [|d r]; [done|].
    apply negb_true_iff, bool_decide_eq_false in Hc.
    rewrite !not_elem_of_cons in Hc. destruct Hc as (H1 & H2 & H3 & H4 & _).
    rewrite !decide_False by done. by rewrite IH.
  - by rewrite IH.
Qed.

Lemma split_first_unique (x : ascii) (l1 l2 r1 r2 : str) :
  l1 ++ x :: r1 = l2 ++ x :: r2 → x ∉ l1 → x ∉ l2 → l1 = l2.
Proof.
  revert l2. induction l1 as [|a l1 IH]; intros l2 Heq H1 H2.
  - destruct l2 as [|b l2]; [done|]. simpl in Heq. injection Heq as <- _.
    by apply not_elem_of_cons in H2 as [? _].
  - destruct l2 as [|b l2]; simpl in Heq.
    + injection Heq as -> _. by apply not_elem_of_cons in H1 as [? _].
    + injection Heq as <- Heq. apply not_elem_of_cons in H1 as [_ H1].
      apply not_elem_of_cons in H2 as [_ H2]. f_equal. by apply IH.
Qed.

Lemma indexOf_unfold (s sub : str) :
  JS.indexOf s sub
  = if JS.startsWith s sub then Some 0%nat
    else match s with [] => None | _ :: s' => S <$> JS.indexOf s' sub end.
Proof. by destruct s. Qed.

(** A text that holds a character foreign to what precedes it occurs
    first where it stands. *)
Lemma indexOf_first (x : ascii) (pre cap post : str) :
  x ∈ cap → x ∉ pre → JS.indexOf (pre ++ cap ++ post) cap = Some (length pre).
Proof.
  intros Hin Hpre. induction pre as [|p pre IH].
  - rewrite indexOf_unfold. simpl app. by rewrite startsWith_app.
  - apply not_elem_of_cons in Hpre as [Hp Hpre].
    rewrite indexOf_unfold.
    destruct (JS.startsWith ((p :: pre) ++ cap ++ post) cap) eqn:Hs.
    + exfalso. apply startsWith_spec in Hs as [r Hr].
      apply list_elem_of_split_l in Hin as (c1 & c2 & Hsplit & Hc1).
      rewrite Hsplit in Hr.
      assert (Heq : (p :: pre ++ c1) ++ x :: (c2 ++ post) = c1 ++ x :: (c2 ++ r)).
      { rewrite <- !app_assoc in Hr. simpl in Hr. rewrite <- Hr. by app_norm. }
      apply split_first_unique in Heq; [|by rewrite !not_elem_of_cons, not_elem_of_app|done].
      apply (f_equal length) in Heq. simpl in Heq. rewrite length_app in Heq. lia.
    + change ((p :: pre) ++ cap ++ post) with (p :: (pre ++ cap ++ post)). cbv iota.
      by rewrite IH.
Qed.

Lemma slash_foreign (kw ws : str) (q q2 : ascii) :
  matchShape kw ws q q2 → Path.CHAR_FORWARD_SLASH ∉ kw ++ ws ++ [q].
Proof.
  intros (Hkw & _ & Hws & Hq & _). rewrite !not_elem_of_app. split_and!.
  - destruct Hkw as [-> | ->]; compute_done.
  - intros Hin. rewrite Forall_forall in Hws. by specialize (Hws _ Hin).
  - intros Heq%list_elem_of_singleton. by rewrite <- Heq in Hq.
Qed.

Lemma replace_capture (kw ws : str) (q q2 : ascii) (cap new : str) :
  matchShape kw ws q q2 → Path.CHAR_FORWARD_SLASH ∈ cap → Spec.plainReplacement new = true →
  JS.replace (matchText kw ws q cap q2) cap new = matchText kw ws q new q2.
Proof.
  intros Hsh Hin Hnew. unfold JS.replace, Spec.matchText.
  replace (kw ++ ws ++ [q] ++ cap ++ [q2]) with ((kw ++ ws ++ [q]) ++ cap ++ [q2])
    by (by rewrite <- !app_assoc).
  rewrite (indexOf_first Path.CHAR_FORWARD_SLASH); [|done|by eapply slash_foreign].
  rewrite take_app_length. rewrite getSubstitution_plain by done.
  rewrite <- drop_drop, drop_app_length, drop_app_length.
  by rewrite <- !app_assoc.
Qed.

End replace_capture.

Section second_pass.

Import Path Fix.

Local Abbreviation matchText := Spec.matchText.
Local Abbreviation matchShape := Spec.matchShape.
Local Abbreviation captured := Spec.captured.

Context (pc : Console) (paths : TsconfigPaths) (cwd : str) (Hcwd : Spec.absolute cwd).
Context (options : FixImportsOptions).

Local Abbreviation pathsMap := (Spec.loaded paths).

(** *** The callback, by cases *)

Lemma replacer_skipped (existsSync : str → bool) (filePath m cap : str) :
  Spec.processed pathsMap options cap = false →
  replacer pc existsSync cwd pathsMap options filePath m cap
  = {| Regex.replacement := m; Regex.importErrors := []; Regex.transformedImports := [] |}.
Proof.
  unfold Spec.processed, replacer. intros [H|H]%andb_false_iff.
  - by rewrite H.
  - apply negb_false_iff in H. rewrite H. by destruct (negb _).
Qed.

Lemma replacer_fixed (existsSync : str → bool) (filePath m cap : str) :
  Spec.newImportPath existsSync cwd pathsMap (skipAlias options) filePath cap = cap →
  Regex.replacement (replacer pc existsSync cwd pathsMap options filePath m cap) = m
  ∧ Regex.transformedImports (replacer pc existsSync cwd pathsMap options filePath m cap)
    = [].
Proof.
  unfold Spec.newImportPath, replacer. intros Hfix.
  destruct (negb _); [done|]. destruct (isIgnored _ _); [done|].
  destruct (transformParts _ _ _ _ _ _) as [np errs]. simpl in Hfix.
  by rewrite bool_decide_eq_true_2.
Qed.

Lemma replacer_changed (existsSync : str → bool) (filePath m cap : str) :
  Spec.processed pathsMap options cap = true →
  Spec.newImportPath existsSync cwd pathsMap (skipAlias options) filePath cap ≠ cap →
  Regex.replacement (replacer pc existsSync cwd pathsMap options filePath m cap)
  = JS.replace m cap
      (Spec.newImportPath existsSync cwd pathsMap (skipAlias options) filePath cap).
Proof.
  unfold Spec.processed, Spec.newImportPath, replacer.
  intros [H1 H2%negb_true_iff]%andb_true_iff Hne. rewrite H1, H2. cbn [negb].
  destruct (transformParts _ _ _ _ _ _) as [np errs]. simpl in Hne.
  by rewrite bool_decide_eq_false_2.
Qed.

Lemma newImportPath_ext (e1 e2 : str → bool) (skipAlias_ : bool) (filePath importPath : str) :
  (∀ p, e1 p = e2 p) →
  Spec.newImportPath e1 cwd pathsMap skipAlias_ filePath importPath
  = Spec.newImportPath e2 cwd pathsMap skipAlias_ filePath importPath.
Proof.
  intros He. unfold Spec.newImportPath. by rewrite (transformParts_ext _ _ e1 e2).
Qed.

(** *** What a regular specifier is *)

Lemma writable_spec (r : str) :
  Spec.writable r = true →
  captured r ∧ Spec.plainReplacement r = true ∧ Regex.atLineEnd r = false.
Proof.
  unfold Spec.writable. rewrite !andb_true_iff, negb_true_iff, forallb_forall.
  intros [[Hq Hp] He]. split_and!; [|done..]. split.
  - by destruct r.
  - apply Forall_forall. intros c Hc. apply negb_true_iff, Hq. by apply list_elem_of_In.
Qed.

Lemma regular_stable (existsSync : str → bool) (filePath importPath : str) :
  Spec.regular existsSync cwd pathsMap (skipAlias options) filePath importPath = true →
  let new := Spec.newImportPath existsSync cwd pathsMap (skipAlias options) filePath
               importPath in
  CHAR_FORWARD_SLASH ∈ importPath
  ∧ Spec.writable new = true
  ∧ Spec.newImportPath existsSync cwd pathsMap (skipAlias options) filePath new = new.
Proof.
  unfold Spec.regular. cbv zeta. rewrite !andb_true_iff, !bool_decide_eq_true, negb_true_iff.
  intros [[[[Hshape Hb] Hss] Hw] Hstep].
  set (X := dir (parse importPath)) in *. set (b := base (parse importPath)) in *.
  assert (HX : X ≠ "/").
  { intros HX. rewrite Hshape, HX in Hss. done. }
  split_and!; [|done|].
  { rewrite Hshape, !elem_of_app. right. left. by left. }
  rewrite Hshape in Hstep |- *.
  apply (newImportPath_stable paths cwd Hcwd); [done..|].
  intros Hrun. rewrite Hrun in Hstep. apply andb_true_iff in Hstep as [Hdirs Hcov].
  split.
  - apply Forall_forall. intros entry Hin. rewrite forallb_forall in Hdirs.
    apply list_elem_of_In, Hdirs in Hin.
    by apply andb_true_iff in Hin as [?%bool_decide_eq_true ?%bool_decide_eq_true].
  - intros alias aliasDir Hcover. rewrite Hcover in Hcov.
    apply andb_true_iff in Hcov as [Hsep%negb_true_iff Hlong]. split; [done|].
    intros k Hk Hpre. rewrite forallb_forall in Hlong.
    apply list_elem_of_In, Hlong in Hk. rewrite Hpre in Hk. simpl in Hk.
    by apply bool_decide_eq_true in Hk.
Qed.

(** *** The callbacks of the two passes *)

Lemma replacer_twice (e1 e2 : str → bool) (filePath : str) (kw ws : str) (q q2 : ascii)
      (cap : str) :
  (∀ p, e1 p = e2 p) →
  matchShape kw ws q q2 → captured cap →
  (Spec.processed pathsMap options cap = true →
   Spec.regular e1 cwd pathsMap (skipAlias options) filePath cap = true) →
  ∃ cap',
    Regex.replacement (replacer pc e1 cwd pathsMap options filePath (matchText kw ws q cap q2)
                                cap)
    = matchText kw ws q cap' q2
    ∧ captured cap'
    ∧ (Regex.atLineEnd cap' = true → Regex.atLineEnd cap = true)
    ∧ Regex.replacement (replacer pc e2 cwd pathsMap options filePath
                                  (matchText kw ws q cap' q2) cap')
      = matchText kw ws q cap' q2
    ∧ Regex.transformedImports (replacer pc e2 cwd pathsMap options filePath
                                         (matchText kw ws q cap' q2) cap')
      = [].
Proof.
  intros He Hsh Hcap Hreg.
  destruct (Spec.processed pathsMap options cap) eqn:Hproc.
  - destruct (regular_stable e1 filePath cap (Hreg eq_refl)) as (Hslash & Hw & Hfix).
    set (new := Spec.newImportPath e1 cwd pathsMap (skipAlias options) filePath cap) in *.
    destruct (decide (new = cap)) as [Heq|Hne].
    + exists cap.
      destruct (replacer_fixed e1 filePath (matchText kw ws q cap q2) cap Heq) as [-> _].
      destruct (replacer_fixed e2 filePath (matchText kw ws q cap q2) cap) as [-> ->].
      { by rewrite <- (newImportPath_ext e1 e2). }
      done.
    + exists new. apply writable_spec in Hw as (Hcapn & Hplain & Hend).
      rewrite replacer_changed by done. fold new. rewrite replace_capture by done.
      split_and!; [done|done|by rewrite Hend|..].
      all: destruct (replacer_fixed e2 filePath (matchText kw ws q new q2) new) as [H1 H2];
        [by rewrite <- (newImportPath_ext e1 e2)|done].
  - exists cap. rewrite !replacer_skipped by done. done.
Qed.

(** *** One file *)

Lemma transformContent_twice (fs fs' : FS) (filePath content : str) :
  Spec.sameEntries fs' fs →
  Forall (λ importPath,
            Spec.processed pathsMap options importPath = true →
            Spec.regular (existsSync cwd fs) cwd pathsMap (skipAlias options) filePath
                         importPath = true)
         (Spec.importPaths content) →
  let transformed := (transformContent pc cwd pathsMap options fs filePath content).1.1 in
  (transformContent pc cwd pathsMap options fs' filePath transformed).1.1 = transformed
  ∧ (transformContent pc cwd pathsMap options fs' filePath transformed).2 = [].
Proof.
  intros Hfs Hreg. unfold transformContent, Regex.replace.
  apply (replace_go_twice
           (replacer pc (existsSync cwd fs) cwd pathsMap options filePath)
           (replacer pc (existsSync cwd fs') cwd pathsMap options filePath)
           (λ importPath,
              Spec.processed pathsMap options importPath = true →
              Spec.regular (existsSync cwd fs) cwd pathsMap (skipAlias options) filePath
                           importPath = true)) with (n := length content);
    [|done|exact Hreg].
  intros kw ws q q2 cap Hsh Hcap HP. apply replacer_twice; [|done..].
  intros p. symmetry. by apply existsSync_sameEntries.
Qed.

End second_pass.

Section runs.

Import Path Fix.

Context (pc : Console) (cwd : str) (pathsMap : PathsMap) (options : FixImportsOptions).

Local Abbreviation R := (λ p : str, resolve cwd [p]).

(** *** A pass over files in which nothing is to be changed *)

Lemma runTasks_settled (fs : FS) (filePaths : list str) (st : RunState) :
  files st = fs → TRANSFORMED_IMPORTS st = [] →
  (∀ p content, p ∈ filePaths → readFile cwd fs p = Some content →
     (transformContent pc cwd pathsMap options fs p content).1.1 = content
     ∧ (transformContent pc cwd pathsMap options fs p content).2 = []) →
  files (foldl (fixFile pc cwd pathsMap options fs) st filePaths) = fs
  ∧ TRANSFORMED_IMPORTS (foldl (fixFile pc cwd pathsMap options fs) st filePaths) = [].
Proof.
  revert st. induction filePaths as [|p l IH]; intros st Hfs Hlog Hset; [done|].
  simpl foldl. apply IH.
  - unfold fixFile. rewrite Hfs. destruct (readFile cwd fs p) as [content|] eqn:Hread; [|done].
    destruct (Hset p content) as [Ht _]; [by left|done|].
    destruct (transformContent _ _ _ _ _ _ _) as [[t errs] logs]. simpl in *.
    by rewrite bool_decide_eq_true_2.
  - unfold fixFile. rewrite Hfs. destruct (readFile cwd fs p) as [content|] eqn:Hread; [|done].
    destruct (Hset p content) as [_ Hl]; [by left|done|].
    destruct (transformContent _ _ _ _ _ _ _) as [[t errs] logs]. simpl in *.
    by rewrite Hl.
  - intros q content Hq. apply Hset. by right.
Qed.

End runs.

Import Path Fix.

(** X11.  Take a run in write mode over distinct files, with an
    absolute working directory and a table that the loader builds.
    Let each specifier that the callback transforms be regular:
    - it is a directory part, a separator and a file name, the file
      name being a segment that is not empty, holds no separator and
      is neither a dot nor two dots, and it does not start with two
      separators;
    - its rewritten form is not empty, holds no quote and no
      replacement pattern of [String.prototype.replace], and does not
      start with a line terminator;
    - where the alias step runs, no target directory of the table is
      the resolved path or the target file, and the alias that the
      step chooses, if any, does not start with a separator and is
      the longest key that is a prefix of the rewritten specifier.
    Then a second run on the files that the first run leaves changes
    no specifier and writes no file: the files stay as they are and
    nothing is printed. *)
Theorem fixImports_idempotent (pc : Console) (cwd : str) (paths : TsconfigPaths)
        (fs : FS) (filePaths : list str) (options : FixImportsOptions) :
  let pathsMap := Spec.loaded paths in
  let first := fixImports pc cwd (Some paths) fs filePaths options in
  let second := fixImports pc cwd (Some paths) (files_after first) filePaths options in
  Spec.absolute cwd →
  write options = true →
  NoDup (map (λ p, resolve cwd [p]) filePaths) →
  Forall (λ filePath, Spec.regularFile cwd pathsMap options fs filePath = true) filePaths →
  files_after second = files_after first ∧ stdout second = [].
Proof.
  intros pathsMap first second Hcwd Hw Hnd Hreg.
  unfold second, first, fixImports. cbn [getPathsMap files_after stdout].
  fold (Spec.loaded paths). fold pathsMap. unfold runTasks.
  pose proof (runTasks_contents pc cwd pathsMap options fs filePaths (initialState fs)
                Hw Hnd ltac:(done) ltac:(done)) as Hread.
  pose proof (runTasks_entries pc cwd pathsMap options fs filePaths (initialState fs)
                ltac:(done)) as Hsame.
  set (fs1 := files (foldl (fixFile pc cwd pathsMap options fs) (initialState fs)
                           filePaths)) in *.
  assert (Hset : ∀ p c1, p ∈ filePaths → readFile cwd fs1 p = Some c1 →
            (transformContent pc cwd pathsMap options fs1 p c1).1.1 = c1
            ∧ (transformContent pc cwd pathsMap options fs1 p c1).2 = []).
  { intros p c1 Hp Hc1. rewrite (Hread p Hp) in Hc1.
    destruct (readFile cwd fs p) as [content|] eqn:Hcontent; [|done].
    injection Hc1 as <-. rewrite Forall_forall in Hreg. specialize (Hreg p Hp).
    unfold Spec.regularFile in Hreg. rewrite Hcontent in Hreg.
    apply (transformContent_twice pc paths cwd Hcwd options fs fs1 p content Hsame).
    apply Forall_forall. intros s Hs Hproc. rewrite forallb_forall in Hreg.
    apply list_elem_of_In, Hreg in Hs. fold pathsMap in Hproc. rewrite Hproc in Hs.
    exact Hs. }
  destruct (runTasks_settled pc cwd pathsMap options fs1 filePaths (initialState fs1))
    as [Hfiles _]; [done..|].
  split; [done|].
  destruct (settleTasks_prefix pc cwd pathsMap options fs1 (initialState fs1) filePaths)
    as (done_ & rest & Hd & ->).
  destruct (runTasks_settled pc cwd pathsMap options fs1 done_ (initialState fs1))
    as [_ Hlog]; [done..| |].
  - intros p c1 Hp. apply Hset. rewrite Hd. apply elem_of_app. by left.
  - by rewrite Hlog.
Qed.

(** The theorem at the scenario of the specification. *)
Lemma fixImports_idempotent_witness :
  let first := fixImports Scenario.console Scenario.cwd (Some Scenario.paths) Scenario.fs
                 [("src/a.ts" : str)] (Scenario.options true false) in
  let second := fixImports Scenario.console Scenario.cwd (Some Scenario.paths)
                  (files_after first) [("src/a.ts" : str)] (Scenario.options true false) in
  files_after first !! ("/proj/src/a.ts" : str) = Some (File (Scenario.importLine "~/b.ts"))
  ∧ files_after second = files_after first
  ∧ stdout second = [].
Proof.
  intros first second. split; [vm_compute; reflexivity|].
  apply (fixImports_idempotent Scenario.console Scenario.cwd Scenario.paths Scenario.fs
           [("src/a.ts" : str)] (Scenario.options true false)).
  - reflexivity.
  - reflexivity.
  - apply NoDup_singleton.
  - apply Forall_singleton. vm_compute. reflexivity.
Defined.

(** Under the configuration with the shadowing alias the first run
    rewrites [./x] in [src/lib/a.ts] to [~/lib/x.ts], for
    [src/lib/x.ts]; the second run resolves [~/lib/x.ts] through the
    longer key [~/lib/] into [other], finds [other/x.tsx] there, and
    rewrites the specifier again. *)
Lemma fixImports_idempotent_counterexample :
  let first := fixImports Scenario.console Shadow.cwd (Some Shadow.paths) Shadow.fs
                 [Shadow.filePath] (Scenario.options true false) in
  let second := fixImports Scenario.console Shadow.cwd (Some Shadow.paths)
                  (files_after first) [Shadow.filePath] (Scenario.options true false) in
  files_after first !! ("/proj/src/lib/a.ts" : str)
  = Some (File (Scenario.importLine "~/lib/x.ts"))
  ∧ files_after second !! ("/proj/src/lib/a.ts" : str)
    = Some (File (Scenario.importLine "~/lib/x.tsx"))
  ∧ files_after second ≠ files_after first
  ∧ stdout second ≠ [].
Proof.
  intros first second. split_and!.
  - vm_compute. reflexivity.
  - vm_compute. reflexivity.
  - intros Heq. apply (f_equal (λ m : FS, m !! ("/proj/src/lib/a.ts" : str))) in Heq.
    vm_compute in Heq. discriminate Heq.
  - vm_compute. intros Heq. discriminate Heq.
Qed.
(* ===================================================================== *)
(** * Further properties of the rewrite pass                               *)
(* ===================================================================== *)

Section callback_facts.

Import Path Fix.

Local Abbreviation cleanSegment := Spec.cleanSegment.
Local Abbreviation absPath := Spec.absPath.

(** A specifier that the callback transforms holds a separator: it
    starts with [./] or [../], or with a key of the table, and the keys
    end with one. *)
Lemma processed_separator (paths : TsconfigPaths) (options : FixImportsOptions)
      (importPath : str) :
  Spec.processed (Spec.loaded paths) options importPath = true →
  CHAR_FORWARD_SLASH ∈ importPath.
Proof.
  unfold Spec.processed, isRelativeImport, isAliasImport, JS.some.
  intros [[[H|H]%orb_true_iff|H]%orb_true_iff _]%andb_true_iff.
  - apply startsWith_spec in H as [r ->]. right. by left.
  - apply startsWith_spec in H as [r ->]. do 2 right. by left.
  - apply existsb_exists in H as (k & Hk%list_elem_of_In & Hpre).
    apply startsWith_spec in Hpre as [r ->].
    apply pm_get_keys in Hk as [v Hv].
    apply pm_get_elem, loaded_elem in Hv as (k0 & v0 & ts & _ & -> & _).
    rewrite !elem_of_app. left. right. by left.
Qed.

(** The scan of a text none of whose specifiers the callback
    transforms. *)
Lemma replace_go_skipped (pc : Console) (existsSync : str → bool) (cwd : str)
      (paths : TsconfigPaths) (options : FixImportsOptions) (filePath : str)
      (n : nat) (s : str) :
  (length s ≤ n)%nat →
  Forall (λ importPath, Spec.processed (Spec.loaded paths) options importPath = false)
         (Spec.importPaths s) →
  Regex.replace_go (replacer pc existsSync cwd (Spec.loaded paths) options filePath) s 0
  = (s, [], []).
Proof.
  revert s. induction n as [|n IH]; intros s Hn HP.
  { destruct s; [done|simpl in Hn; lia]. }
  destruct s as [|c s]; [done|].
  destruct (Regex.matchHere (c :: s)) as [[m cap]|] eqn:Hm.
  - destruct (matchHere_prefix _ _ _ Hm) as [Hne [rest Hs]].
    rewrite (importPaths_match _ _ _ rest Hm Hs) in HP. apply Forall_cons in HP as [HP HPrest].
    rewrite (replace_go_match _ _ _ _ rest Hm Hs).
    rewrite replacer_skipped by done. cbn [Regex.replacement Regex.importErrors
                                           Regex.transformedImports].
    rewrite IH; [by rewrite Hs| |done].
    apply (f_equal length) in Hs. rewrite length_app in Hs. simpl in Hs, Hn.
    destruct m; [done|]. simpl in Hs. lia.
  - rewrite importPaths_char in HP by done. rewrite replace_go_char by done.
    rewrite IH; [done| |done]. simpl in Hn. lia.
Qed.

End callback_facts.

Import Path Fix.

(** X1.  The resolver on specifiers that end with a file name.  The
    directory part of the specifier, with the containing file and the
    alias table, fixes a list of directory segments; whatever the file
    name, the resolved path is the absolute path made of these
    segments and the file name.  So the resolved path is in normal
    form, and the file name of the specifier is its last segment. *)
Theorem resolveImportPath_directory_part (paths : TsconfigPaths) (cwd filePath X : str) :
  Spec.absolute cwd →
  ∃ dirSegs,
    Forall Spec.cleanSegment dirSegs
    ∧ ∀ b, Spec.cleanSegment b →
           resolveImportPath cwd (X ++ "/" ++ b) filePath (Spec.loaded paths)
           = Spec.absPath (dirSegs ++ [b])
           ∧ base (parse (resolveImportPath cwd (X ++ "/" ++ b) filePath (Spec.loaded paths)))
             = b.
Proof.
  intros Hcwd.
  destruct (resolveImportPath_file paths cwd Hcwd filePath X) as (stk & Hstk & Hres).
  exists stk. split; [done|]. intros b Hb. rewrite (Hres b Hb). split; [done|].
  by rewrite parse_absPath.
Qed.

(** The theorem in the scenario of the specification, for the
    directory part of [~/b]. *)
Lemma resolveImportPath_directory_part_witness :
  ∃ dirSegs,
    Forall Spec.cleanSegment dirSegs
    ∧ ∀ b, Spec.cleanSegment b →
           resolveImportPath Scenario.cwd ("~" ++ "/" ++ b) "src/a.ts"
                             (Spec.loaded Scenario.paths)
           = Spec.absPath (dirSegs ++ [b])
           ∧ base (parse (resolveImportPath Scenario.cwd ("~" ++ "/" ++ b) "src/a.ts"
                                            (Spec.loaded Scenario.paths)))
             = b.
Proof.
  apply (resolveImportPath_directory_part Scenario.paths Scenario.cwd "src/a.ts" "~").
  reflexivity.
Defined.



(** X3.  Take a specifier made of a directory part other than the
    bare separator, a separator, and a file name: a segment that is
    not empty, holds no separator and is neither a dot nor two dots.
    The working directory is absolute and the table is one that the
    loader builds.  Where the alias step does not run, because
    [skipAlias] is set or the specifier is not relative, the directory
    part is kept as written: the rewritten specifier is the specifier
    itself, or else the Extension Resolver has answered with a
    candidate extension, whose file is on disk, and the rewritten
    specifier is the directory part, the separator, the name of the
    specifier and that extension.  (A specifier that ends with a
    separator is not of this form: [path.format] drops the separator
    of [../].) *)
Theorem newImportPath_keeps_directory (paths : TsconfigPaths) (cwd : str)
        (existsSync : str → bool) (skipAlias_ : bool) (filePath X b : str) :
  let pathsMap := Spec.loaded paths in
  let importPath := X ++ "/" ++ b in
  let resolved := resolveImportPath cwd importPath filePath pathsMap in
  let new := Spec.newImportPath existsSync cwd pathsMap skipAlias_ filePath importPath in
  Spec.absolute cwd →
  Spec.cleanSegment b →
  X ≠ "/" →
  isRelativeImport importPath && negb skipAlias_ = false →
  new = importPath
  ∨ ∃ e, getNewExtensionPathParts existsSync (parse resolved)
         = Some {| eb_ext := e; eb_base := [] |}
         ∧ e ∈ ALLOWED_EXTENSIONS
         ∧ existsSync (Spec.probe (parse resolved) e) = true
         ∧ new = X ++ "/" ++ name (parse importPath) ++ e.
Proof.
  intros pathsMap importPath resolved new Hcwd Hb HX Hstep.
  destruct (resolveImportPath_file paths cwd Hcwd filePath X) as (stk & Hstk & Hres).
  specialize (Hres b Hb). fold pathsMap importPath resolved in Hres.
  assert (Hnew : new = X ++ "/" ++ Spec.newFileName existsSync stk b).
  { apply newImportPath_plain; [done..|]. by left. }
  rewrite Hnew, Hres. rewrite getNewExtensionPathParts_file by done.
  unfold importPath at 2. rewrite parse_file by done. cbn [name].
  unfold Spec.newFileName.
  destruct (JS.arrayIncludes tsExtensionLookups (Spec.extOf b)); [|by left].
  destruct (List.find _ ALLOWED_EXTENSIONS) as [e|] eqn:Hfind; [|by left].
  apply find_some in Hfind as [He%list_elem_of_In Hex].
  right. exists e. split_and!; [done..| |done]. by rewrite probe_absPath.
Qed.

(** The theorem at the scenario of the specification with [skipAlias]
    on: [./b] becomes [./b.ts]. *)
Lemma newImportPath_keeps_directory_witness :
  let ex := existsSync Scenario.cwd Scenario.fs in
  Spec.newImportPath ex Scenario.cwd (Spec.loaded Scenario.paths) true "src/a.ts" "./b"
  = "./b.ts".
Proof.
  intros ex.
  destruct (newImportPath_keeps_directory Scenario.paths Scenario.cwd ex true "src/a.ts"
              "." "b") as [Hsame|(e & _ & _ & _ & Hnew)].
  - reflexivity.
  - compute_done.
  - intros [=].
  - reflexivity.
  - vm_compute. reflexivity.
  - vm_compute. reflexivity.
Defined.

(** X4.  A target that is not on disk.  Take a specifier that the
    callback transforms, made of a directory part other than the bare
    separator, a separator, and a file name: a segment that is not
    empty, holds no separator and is neither a dot nor two dots.  When
    the Extension Resolver returns nothing for the resolved path and
    the alias step does not run, the callback hands the match back as
    it was and records one diagnostic, the one that names the files
    looked for; no change is logged.  (On a specifier that ends with a
    separator, such as [../], the callback logs a change besides:
    [path.format] drops the separator.) *)
Theorem replacer_target_missing (paths : TsconfigPaths) (pc : Console) (cwd : str)
        (existsSync : str → bool) (options : FixImportsOptions)
        (filePath match_ X b : str) :
  let pathsMap := Spec.loaded paths in
  let importPath := X ++ "/" ++ b in
  let resolved := resolveImportPath cwd importPath filePath pathsMap in
  Spec.cleanSegment b →
  X ≠ "/" →
  Spec.processed pathsMap options importPath = true →
  isRelativeImport importPath && negb (skipAlias options) = false →
  getNewExtensionPathParts existsSync (parse resolved) = None →
  replacer pc existsSync cwd pathsMap options filePath match_ importPath
  = {| Regex.replacement := match_;
       Regex.importErrors := [extensionError importPath (parse resolved)];
       Regex.transformedImports := [] |}.
Proof.
  intros pathsMap importPath resolved Hb HX Hproc Hstep Hnone.
  unfold Spec.processed in Hproc.
  apply andb_true_iff in Hproc as [Hkind Hign%negb_true_iff].
  unfold replacer. rewrite Hkind, Hign. cbn [negb].
  unfold transformParts. fold resolved. unfold extensionStep. rewrite Hnone.
  unfold aliasStep. rewrite Hstep. cbn [fst snd app].
  change (format (parse importPath)) with (format (parse (X ++ "/" ++ b))).
  rewrite (format_parse_file X b HX Hb).
  by rewrite bool_decide_eq_true_2.
Qed.

(** The theorem at an import of [./missing] in the scenario, with
    [skipAlias] on. *)
Lemma replacer_target_missing_witness :
  let ex := existsSync Scenario.cwd Scenario.fs in
  let pathsMap := Spec.loaded Scenario.paths in
  let importPath : str := "." ++ "/" ++ "missing" in
  let match_ : str := "from " ++ [DQUOTE] ++ importPath ++ [DQUOTE] in
  replacer Scenario.console ex Scenario.cwd pathsMap (Scenario.options true true)
           "src/a.ts" match_ importPath
  = {| Regex.replacement := match_;
       Regex.importErrors :=
         [extensionError importPath
            (parse (resolveImportPath Scenario.cwd importPath "src/a.ts" pathsMap))];
       Regex.transformedImports := [] |}.
Proof.
  intros ex pathsMap importPath match_.
  apply (replacer_target_missing Scenario.paths Scenario.console Scenario.cwd ex
           (Scenario.options true true) "src/a.ts" match_ "." "missing").
  - compute_done.
  - intros [=].
  - reflexivity.
  - reflexivity.
  - vm_compute. reflexivity.
Defined.

(** X7.  What the pattern matches at a position: a keyword, [import]
    or [from]; white space, at least one character; a quote, single or
    double; the specifier, at least one character and none of them a
    quote; a quote again, single or double whatever the first one was;
    and then the end of the line.  The text matched and the specifier
    captured are determined by the position. *)
Theorem matchHere_iff (s m cap : str) :
  Regex.matchHere s = Some (m, cap)
  ↔ ∃ kw ws q q2 rest,
      s = m ++ rest
      ∧ m = kw ++ ws ++ [q] ++ cap ++ [q2]
      ∧ (kw = "import" ∨ kw = "from")
      ∧ ws ≠ [] ∧ Forall (λ c, Regex.isWhiteSpace c = true) ws
      ∧ (q = SQUOTE ∨ q = DQUOTE)
      ∧ cap ≠ [] ∧ Forall (λ c, c ≠ SQUOTE ∧ c ≠ DQUOTE) cap
      ∧ (q2 = SQUOTE ∨ q2 = DQUOTE)
      ∧ (rest = [] ∨ ∃ c rest', rest = c :: rest' ∧ Regex.isLineTerminator c = true).
Proof.
  assert (Hquote : ∀ c, Regex.isQuote c = true ↔ c = SQUOTE ∨ c = DQUOTE).
  { intros c. unfold Regex.isQuote. by rewrite orb_true_iff, !bool_decide_eq_true. }
  assert (Hnoquote : ∀ c, Regex.isQuote c = false ↔ c ≠ SQUOTE ∧ c ≠ DQUOTE).
  { intros c. unfold Regex.isQuote. by rewrite orb_false_iff, !bool_decide_eq_false. }
  assert (Hend : ∀ rest, Regex.atLineEnd rest = true
                         ↔ rest = [] ∨ ∃ c rest', rest = c :: rest'
                                                  ∧ Regex.isLineTerminator c = true).
  { intros [|c rest]; simpl.
    - split; [by left|done].
    - split; [intros H; right; by exists c, rest|]. by intros [|(? & ? & [= <- <-] & ?)]. }
  split.
  - intros (kw & ws & q & q2 & rest & (Hkw & Hws & Hws' & Hq & Hq2) & (Hc & Hc') & Hm & Hs & He)
           %matchHere_shape.
    exists kw, ws, q, q2, rest. split_and!; try done.
    + by apply Hquote.
    + eapply Forall_impl; [exact Hc'|]. intros c. apply Hnoquote.
    + by apply Hquote.
    + by apply Hend.
  - intros (kw & ws & q & q2 & rest & -> & -> & Hkw & Hws & Hws' & Hq & Hc & Hc' & Hq2 & He).
    apply (matchHere_intro kw ws q q2 cap rest).
    + unfold Spec.matchShape. split_and!; try done; by apply Hquote.
    + split; [done|]. eapply Forall_impl; [exact Hc'|]. intros c. apply Hnoquote.
    + by apply Hend.
Qed.

(** X8.  A change is written where the specifier stood.  When the
    callback changes a specifier, and the new specifier holds none of
    the replacement patterns of [String.prototype.replace], the text
    that the callback returns is the match with the new specifier
    between the same quotes, after the same keyword and white
    space. *)
Theorem replacer_writes_specifier (paths : TsconfigPaths) (pc : Console) (cwd : str)
        (existsSync : str → bool) (options : FixImportsOptions)
        (filePath kw ws : str) (q q2 : ascii) (importPath : str) :
  let pathsMap := Spec.loaded paths in
  let new := Spec.newImportPath existsSync cwd pathsMap (skipAlias options) filePath
               importPath in
  Spec.matchShape kw ws q q2 →
  Spec.processed pathsMap options importPath = true →
  new ≠ importPath →
  Spec.plainReplacement new = true →
  Regex.replacement
    (replacer pc existsSync cwd pathsMap options filePath
              (kw ++ ws ++ [q] ++ importPath ++ [q2]) importPath)
  = kw ++ ws ++ [q] ++ new ++ [q2].
Proof.
  intros pathsMap new Hsh Hproc Hne Hplain. subst pathsMap new.
  rewrite replacer_changed by done.
  apply (replace_capture kw ws q q2 importPath); [done| |done].
  by apply (processed_separator paths options).
Qed.

(** The theorem at the import of the scenario. *)
Lemma replacer_writes_specifier_witness :
  let ex := existsSync Scenario.cwd Scenario.fs in
  Regex.replacement
    (replacer Scenario.console ex Scenario.cwd (Spec.loaded Scenario.paths)
              (Scenario.options true false) "src/a.ts"
              ("from" ++ " " ++ [DQUOTE] ++ "./b" ++ [DQUOTE]) "./b")
  = "from" ++ " " ++ [DQUOTE] ++ "~/b.ts" ++ [DQUOTE].
Proof.
  intros ex.
  apply (replacer_writes_specifier Scenario.paths Scenario.console Scenario.cwd ex
           (Scenario.options true false) "src/a.ts" "from" " " DQUOTE DQUOTE "./b").
  - unfold Spec.matchShape. split_and!; [by right|done|by repeat constructor|done|done].
  - reflexivity.
  - vm_compute. intros [=].
  - vm_compute. reflexivity.
Defined.

Section whole_runs.

Context (pc : Console) (cwd : str) (pathsMap : PathsMap) (options : FixImportsOptions).

Local Abbreviation R := (λ p : str, resolve cwd [p]).

(** *** The tasks over files whose specifiers the callback passes over *)

Lemma runTasks_passed_over (paths : TsconfigPaths) (fs : FS) (filePaths : list str)
      (st : RunState) :
  pathsMap = Spec.loaded paths →
  files st = fs → IMPORT_ERRORS st = [] → TRANSFORMED_IMPORTS st = [] →
  Forall (λ filePath,
            ∀ content, readFile cwd fs filePath = Some content →
                       Forall (λ importPath,
                                 Spec.processed pathsMap options importPath = false)
                              (Spec.importPaths content)) filePaths →
  let st' := foldl (fixFile pc cwd pathsMap options fs) st filePaths in
  files st' = fs ∧ IMPORT_ERRORS st' = [] ∧ TRANSFORMED_IMPORTS st' = []
  ∧ rejected st'
    = rejected st
      || negb (forallb (λ p, bool_decide (is_Some (readFile cwd fs p))) filePaths).
Proof.
  intros ->. revert st. induction filePaths as [|p l IH]; intros st Hfs Herr Hlog Hall.
  { simpl. by rewrite orb_false_r. }
  apply Forall_cons in Hall as [Hp Hl]. simpl foldl. cbv zeta.
  assert (Hstep : files (fixFile pc cwd (Spec.loaded paths) options fs st p) = fs
                  ∧ IMPORT_ERRORS (fixFile pc cwd (Spec.loaded paths) options fs st p) = []
                  ∧ TRANSFORMED_IMPORTS (fixFile pc cwd (Spec.loaded paths) options fs st p)
                    = []
                  ∧ rejected (fixFile pc cwd (Spec.loaded paths) options fs st p)
                    = rejected st || negb (bool_decide (is_Some (readFile cwd fs p)))).
  { unfold fixFile. rewrite Hfs.
    destruct (readFile cwd fs p) as [content|] eqn:Hread.
    - unfold transformContent, Regex.replace.
      rewrite (replace_go_skipped pc _ cwd paths options p (length content)) by auto.
      simpl. rewrite bool_decide_eq_true_2 by done. by rewrite orb_false_r.
    - simpl. by rewrite orb_true_r. }
  destruct Hstep as (H1 & H2 & H3 & H4).
  destruct (IH _ H1 H2 H3 Hl) as (I1 & I2 & I3 & I4).
  split_and!; [done..|]. rewrite I4, H4. simpl forallb.
  by destruct (rejected st), (bool_decide (is_Some (readFile cwd fs p))).
Qed.

End whole_runs.

Section export_scan.

Context (pc : Console) (exportDeclarations : str → str → list str) (cwd : str).

Local Abbreviation exportFree := (Spec.exportFree exportDeclarations cwd).

Lemma checkFile_clean (fs : FS) (st : list str * bool) (filePath : str) :
  let st' := checkFile pc exportDeclarations cwd fs st filePath in
  (st'.1 = [] ∧ st'.2 = false) ↔ (st.1 = [] ∧ st.2 = false) ∧ exportFree fs filePath.
Proof.
  destruct st as [errs rej]. unfold Spec.exportFree, checkFile. cbv zeta.
  case_bool_decide as Hidx; [simpl; tauto|].
  destruct (readFile cwd fs filePath) as [sourceCode|] eqn:Hread.
  - case_bool_decide as Hlen; simpl.
    + split; [|tauto]. intros ?. split; [done|]. right. exists sourceCode.
      split; [done|]. by destruct (exportDeclarations _ _).
    + split.
      * by intros [[_ ?]%app_eq_nil _].
      * intros [_ [?|(s & [= <-] & Hs)]]; [done|]. by rewrite Hs in Hlen.
  - simpl. split; [by intros [_ ?]|]. by intros [_ [?|(s & ? & _)]].
Qed.

Lemma scanTasks_clean (fs : FS) (filePaths : list str) (st : list str * bool) :
  let st' := foldl (checkFile pc exportDeclarations cwd fs) st filePaths in
  (st'.1 = [] ∧ st'.2 = false) ↔ (st.1 = [] ∧ st.2 = false) ∧ Forall (exportFree fs) filePaths.
Proof.
  revert st. induction filePaths as [|p l IH]; intros st.
  { simpl. split; [by intros ?|by intros [? _]]. }
  simpl foldl. cbv zeta. rewrite IH, checkFile_clean, Forall_cons. tauto.
Qed.

(** The scan reads the files that are not index files, and no other. *)
Lemma scanTasks_index (fs1 fs2 : FS) (filePaths : list str) (st : list str * bool) :
  (∀ p, p ∈ filePaths → name (parse p) ≠ "index" →
        readFile cwd fs1 p = readFile cwd fs2 p) →
  foldl (checkFile pc exportDeclarations cwd fs1) st filePaths
  = foldl (checkFile pc exportDeclarations cwd fs2) st
          (filter (λ p, name (parse p) ≠ "index") filePaths).
Proof.
  revert st. induction filePaths as [|p l IH]; intros st Hagree; [done|].
  simpl foldl. destruct (decide (name (parse p) = "index")) as [Hidx|Hidx].
  - rewrite filter_cons_False by (by intros ?).
    rewrite IH by (intros q Hq; apply Hagree; by right).
    f_equal. unfold checkFile. destruct st. by rewrite bool_decide_eq_true_2.
  - rewrite filter_cons_True by done. simpl foldl.
    rewrite IH by (intros q Hq; apply Hagree; by right).
    f_equal. unfold checkFile. destruct st. rewrite bool_decide_eq_false_2 by done.
    by rewrite (Hagree p) by (done || by left).
Qed.

End export_scan.

Import Path Fix.

(** X9.  Files in which there is nothing to transform.  When every
    specifier of every listed file that can be read is passed over by
    the callback, being neither relative nor under an alias, or else
    ignored, the run writes no file and prints nothing, whether
    [write] is set or not; it succeeds, unless a listed file cannot be
    read. *)
Theorem fixImports_passes_over (pc : Console) (cwd : str) (paths : TsconfigPaths)
        (fs : FS) (filePaths : list str) (options : FixImportsOptions) :
  Forall (λ filePath,
            ∀ content, readFile cwd fs filePath = Some content →
                       Forall (λ importPath,
                                 Spec.processed (Spec.loaded paths) options importPath
                                 = false)
                              (Spec.importPaths content)) filePaths →
  fixImports pc cwd (Some paths) fs filePaths options
  = {| result :=
         if forallb (λ p, bool_decide (is_Some (readFile cwd fs p))) filePaths then Ok tt
         else Err "something went wrong when transforming imports";
       stdout := [];
       files_after := fs |}.
Proof.
  intros Hall. unfold fixImports. cbn [getPathsMap]. fold (Spec.loaded paths).
  unfold runTasks.
  destruct (runTasks_passed_over pc cwd (Spec.loaded paths) options paths fs filePaths
              (initialState fs)) as (Hf & _ & _ & Hr); [done..|].
  cbv zeta in Hf, Hr. rewrite Hf.
  set (settled := settleTasks pc cwd (Spec.loaded paths) options fs (initialState fs)
                              filePaths).
  assert (Hrej : rejected settled
                 = negb (forallb (λ p, bool_decide (is_Some (readFile cwd fs p)))
                                 filePaths)).
  { unfold settled. by rewrite settleTasks_rejected, Hr. }
  assert (Harrays : IMPORT_ERRORS settled = [] ∧ TRANSFORMED_IMPORTS settled = []).
  { unfold settled.
    destruct (settleTasks_prefix pc cwd (Spec.loaded paths) options fs (initialState fs)
                filePaths) as (done_ & rest & Hd & ->).
    destruct (runTasks_passed_over pc cwd (Spec.loaded paths) options paths fs done_
                (initialState fs)) as (_ & He & Ht & _); [done..| |done].
    rewrite Hd in Hall. by apply Forall_app in Hall as [? _]. }
  destruct Harrays as [He Ht]. rewrite He, Ht, Hrej. cbn [length].
  by destruct (forallb _ filePaths).
Qed.

(** The theorem at the file of the scenario, with the ignore string
    [b]. *)
Lemma fixImports_passes_over_witness :
  let options := {| write := true; importIgnoreStrings := ["b" : str]; skipAlias := false |} in
  fixImports Scenario.console Scenario.cwd (Some Scenario.paths) Scenario.fs
             ["src/a.ts" : str] options
  = {| result := Ok tt; stdout := []; files_after := Scenario.fs |}.
Proof.
  intros options.
  rewrite (fixImports_passes_over Scenario.console Scenario.cwd Scenario.paths Scenario.fs
             ["src/a.ts" : str] options).
  - reflexivity.
  - apply Forall_singleton. intros content Hread. vm_compute in Hread.
    injection Hread as <-. apply Forall_singleton. vm_compute. reflexivity.
Defined.

(** X10.  What a run leaves of the file tree.  A run creates no entry
    and removes none; a directory stays a directory; and every path
    other than those of the listed files holds what it held. *)
Theorem fixImports_frame (pc : Console) (cwd : str) (tsconfig : option TsconfigPaths)
        (fs : FS) (filePaths : list str) (options : FixImportsOptions) :
  let after := files_after (fixImports pc cwd tsconfig fs filePaths options) in
  (∀ q, is_Some (after !! q) ↔ is_Some (fs !! q))
  ∧ (∀ q, fs !! q = Some Directory → after !! q = Some Directory)
  ∧ (∀ q, q ∉ map (λ p, resolve cwd [p]) filePaths → after !! q = fs !! q).
Proof.
  unfold fixImports. destruct (getPathsMap tsconfig) as [pathsMap|message]; [|done].
  cbn [files_after]. unfold runTasks. split_and!.
  - by apply (runTasks_entries pc cwd pathsMap options fs filePaths).
  - intros q Hq. by apply runTasks_directory.
  - intros q Hq. by rewrite (runTasks_lookup_ne pc cwd pathsMap).
Qed.

(** X12.  The scan for export declarations passes over index files:
    it does not read them, and what they hold, or whether they exist,
    has no effect on its result.  The result is that of the scan of
    the other listed files, and depends on the files through the
    contents of those only. *)
Theorem checkExports_skips_index (pc : Console) (exportDeclarations : str → str → list str)
        (cwd : str) (fs1 fs2 : FS) (filePaths : list str) :
  (∀ p, p ∈ filePaths → name (parse p) ≠ "index" →
        readFile cwd fs1 p = readFile cwd fs2 p) →
  checkExports pc exportDeclarations cwd fs1 filePaths
  = checkExports pc exportDeclarations cwd fs2
                 (filter (λ p, name (parse p) ≠ "index") filePaths).
Proof.
  intros Hagree. unfold checkExports, scanTasks.
  by rewrite (scanTasks_index pc exportDeclarations cwd fs1 fs2).
Qed.

(** The theorem at an index file that does not exist and a file that
    two file trees have in common; every file that is read counts as
    one export declaration. *)
Lemma checkExports_skips_index_witness :
  checkExports Scenario.console (λ _ sourceCode, [sourceCode]) Scenario.cwd Scenario.fs
               ["src/index.ts" : str; "src/b.ts" : str]
  = checkExports Scenario.console (λ _ sourceCode, [sourceCode]) Scenario.cwd
                 Scenario.fsStyles
                 (filter (λ p, name (parse p) ≠ "index")
                         ["src/index.ts" : str; "src/b.ts" : str]).
Proof.
  apply (checkExports_skips_index Scenario.console (λ _ sourceCode, [sourceCode])
           Scenario.cwd Scenario.fs Scenario.fsStyles).
  intros p [->|[->|[]%elem_of_nil]%elem_of_cons]%elem_of_cons Hidx.
  - exfalso. apply Hidx. vm_compute. reflexivity.
  - vm_compute. reflexivity.
Defined.

(** X13.  The scan for export declarations succeeds exactly when each
    listed file is an index file, or can be read and holds no export
    declaration. *)
Theorem checkExports_ok_iff (pc : Console) (exportDeclarations : str → str → list str)
        (cwd : str) (fs : FS) (filePaths : list str) :
  checkExports pc exportDeclarations cwd fs filePaths = Ok tt
  ↔ Forall (λ filePath,
              name (parse filePath) = "index"
              ∨ ∃ sourceCode, readFile cwd fs filePath = Some sourceCode
                              ∧ exportDeclarations (base (parse filePath)) sourceCode = [])
           filePaths.
Proof.
  pose proof (scanTasks_clean pc exportDeclarations cwd fs filePaths ([], false)) as H.
  cbv zeta in H. unfold checkExports, scanTasks.
  destruct (foldl _ _ filePaths) as [errs rej]. cbn [fst snd] in H.
  etransitivity; [|etransitivity; [exact H|]]; [|unfold Spec.exportFree; tauto].
  destruct rej; [split; [done|by intros [_ ?]]|].
  case_bool_decide as Hlen.
  - split; [done|]. intros [-> _]. simpl in Hlen. lia.
  - split; [|done]. intros _. split; [|done]. destruct errs; [done|simpl in Hlen; lia].
Qed.

(** X14.  The rewrite pass succeeds exactly when each listed file can
    be read and the callback records no diagnostic in it.  This holds
    of a dry run, and of a run in write mode on distinct files. *)
Theorem fixImports_ok_iff (pc : Console) (cwd : str) (paths : TsconfigPaths)
        (fs : FS) (filePaths : list str) (options : FixImportsOptions) :
  write options = false ∨ NoDup (map (λ p, resolve cwd [p]) filePaths) →
  result (fixImports pc cwd (Some paths) fs filePaths options) = Ok tt
  ↔ Forall (λ filePath,
              ∃ content,
                readFile cwd fs filePath = Some content
                ∧ (transformContent pc cwd (Spec.loaded paths) options fs filePath
                                    content).1.2 = [])
           filePaths.
Proof.
  intros _. apply fixImports_clean.
Qed.

(** The theorem at the scenario, in write mode. *)
Lemma fixImports_ok_iff_witness :
  result (fixImports Scenario.console Scenario.cwd (Some Scenario.paths) Scenario.fs
                     ["src/a.ts" : str] (Scenario.options true false)) = Ok tt
  ↔ Forall (λ filePath,
              ∃ content,
                readFile Scenario.cwd Scenario.fs filePath = Some content
                ∧ (transformContent Scenario.console Scenario.cwd
                                    (Spec.loaded Scenario.paths) (Scenario.options true false)
                                    Scenario.fs filePath content).1.2 = [])
           ["src/a.ts" : str].
Proof.
  apply (fixImports_ok_iff Scenario.console Scenario.cwd Scenario.paths Scenario.fs
           ["src/a.ts" : str] (Scenario.options true false)).
  right. apply NoDup_singleton.
Defined.

(** X15.  A relative import out of reach of the aliases.  When the
    alias step runs and the path that the resolved import formats to
    lies below no target directory of the table, each relative path
    starting with two dots, the callback records the diagnostic of the
    alias step, after that of the extension step if there is one. *)
Theorem replacer_alias_missing (pc : Console) (cwd : str) (existsSync : str → bool)
        (pathsMap : PathsMap) (options : FixImportsOptions)
        (filePath match_ importPath : str) :
  let resolvedImportParts := parse (resolveImportPath cwd importPath filePath pathsMap) in
  isRelativeImport importPath = true →
  skipAlias options = false →
  isIgnored (importIgnoreStrings options) importPath = false →
  Forall (λ entry, JS.startsWith (relative cwd entry.2 (format resolvedImportParts)) ".."
                   = true) pathsMap →
  Regex.importErrors (replacer pc existsSync cwd pathsMap options filePath match_ importPath)
  = match getNewExtensionPathParts existsSync resolvedImportParts with
    | Some _ => []
    | None => [extensionError importPath resolvedImportParts]
    end ++ [aliasError importPath].
Proof.
  intros resolvedImportParts Hrel Hskip Hign Hall.
  assert (Hnone : getAliasPathParts cwd resolvedImportParts pathsMap = None).
  { unfold getAliasPathParts. revert Hall. generalize (format resolvedImportParts).
    intros p. induction pathsMap as [|[alias aliasDir] l IH]; [done|].
    intros [Hd Hl]%Forall_cons. simpl in Hd |- *. rewrite Hd. by apply IH. }
  unfold replacer. rewrite Hrel, Hign. cbn [orb negb].
  unfold transformParts. fold resolvedImportParts. unfold aliasStep, extensionStep.
  rewrite Hrel, Hskip, Hnone. cbn [negb andb].
  destruct (getNewExtensionPathParts existsSync resolvedImportParts); by case_bool_decide.
Qed.

(** The theorem at a file in the root of the project of the scenario
    that imports [./b]: the path [/proj/b] is not below [/proj/src]. *)
Lemma replacer_alias_missing_witness :
  let ex := existsSync Scenario.cwd Scenario.fs in
  let pathsMap := Spec.loaded Scenario.paths in
  let importPath : str := "./b" in
  let resolvedImportParts :=
    parse (resolveImportPath Scenario.cwd importPath "a.ts" pathsMap) in
  Regex.importErrors
    (replacer Scenario.console ex Scenario.cwd pathsMap (Scenario.options true false)
              "a.ts" (Scenario.importLine importPath) importPath)
  = match getNewExtensionPathParts ex resolvedImportParts with
    | Some _ => []
    | None => [extensionError importPath resolvedImportParts]
    end ++ [aliasError importPath].
Proof.
  intros ex pathsMap importPath resolvedImportParts.
  apply (replacer_alias_missing Scenario.console Scenario.cwd ex pathsMap
           (Scenario.options true false) "a.ts" (Scenario.importLine importPath) importPath).
  - reflexivity.
  - reflexivity.
  - reflexivity.
  - apply Forall_singleton. vm_compute. reflexivity.
Defined.

Section ignore_patterns.

Context (cwd : str) (Hcwd : Spec.absolute cwd).

(** A separator, or a dot and a separator, after a directory add no
    segment. *)
Lemma normalizeSegments_skip (a : bool) (Y W : str) :
  Spec.closed Y → W = "./" ∨ W = "/" →
  Spec.normalizeSegments a (Y ++ W) = Spec.normalizeSegments a Y.
Proof.
  intros HY HW. unfold Spec.normalizeSegments at 1. rewrite foldl_app.
  rewrite normalizeSegments_closed by done.
  destruct HW as [->| ->]; cbn [foldl list_ascii_of_string].
  - unfold Spec.seg_char at 2. cbn [isPosixPathSeparator fst snd app].
    change (isPosixPathSeparator "."%char) with false. cbv iota.
    unfold Spec.seg_char. change (isPosixPathSeparator "/"%char) with true. cbv iota.
    cbn [fst snd]. unfold Spec.seg_step at 2. cbn [fst snd].
    change (bool_decide (["."%char] = [])) with false.
    change (bool_decide (["."%char] = ".")) with true. cbn [orb].
    apply seg_step_nil.
  - unfold Spec.seg_char. change (isPosixPathSeparator "/"%char) with true. cbv iota.
    cbn [fst snd]. by rewrite !seg_step_nil.
Qed.

Lemma dirSegments_cwd :
  Spec.dirSegments cwd cwd = Spec.normalizeSegments false (cwd ++ "/").
Proof.
  unfold Spec.dirSegments, Spec.resolvePrefix.
  rewrite bool_decide_eq_false_2 by (by destruct cwd). by rewrite Hcwd.
Qed.

(** [relative] looks at its second argument through [resolve]. *)
Lemma relative_resolve_to (from to : str) (segs : list str) :
  Forall Spec.cleanSegment segs → resolve cwd [to] = Spec.absPath segs →
  relative cwd from to = relative cwd from (Spec.absPath segs).
Proof.
  intros Hsegs Hto. rewrite !relative_unfold. rewrite (resolve_idem cwd segs) by done.
  rewrite Hto. repeat case_bool_decide; try done; subst.
  - by rewrite Hto in *.
  - by rewrite (resolve_idem cwd segs) in * by done.
Qed.

Lemma relative_spelling (pattern : str) (rs : list str) :
  rs ≠ [] → Forall Spec.cleanSegment rs →
  Spec.dirSegments cwd pattern = Spec.dirSegments cwd cwd ++ rs →
  relative cwd cwd pattern = JS.join "/" rs.
Proof.
  intros Hne Hrs Hp.
  rewrite (relative_resolve_to cwd pattern (Spec.dirSegments cwd cwd ++ rs)).
  - by apply relative_under.
  - apply Forall_app. split; [apply normalizeSegments_clean|done].
  - by rewrite resolve_dir, Hp.
Qed.

Lemma join_relative (rs : list str) :
  rs ≠ [] → Forall Spec.cleanSegment rs →
  JS.join "/" rs ≠ [] ∧ JS.startsWith (JS.join "/" rs) "/" = false.
Proof.
  intros Hne Hrs. split.
  - apply join_nonempty; [done|]. eapply Forall_impl; [done|]. by intros ? [? _].
  - destruct rs as [|b rs]; [done|]. apply Forall_cons in Hrs as [(Hb0 & Hb1 & _) _].
    destruct b as [|c b]; [done|]. apply not_elem_of_cons in Hb1 as [Hc _].
    destruct rs; simpl; rewrite andb_true_r; by apply bool_decide_eq_false_2.
Qed.

Lemma dirSegments_spelling (pattern : str) (rs : list str) :
  rs ≠ [] → Forall Spec.cleanSegment rs →
  pattern = JS.join "/" rs ∨ pattern = "./" ++ JS.join "/" rs
  ∨ pattern = JS.join "/" rs ++ "/" ∨ pattern = cwd ++ "/" ++ JS.join "/" rs →
  Spec.dirSegments cwd pattern = Spec.dirSegments cwd cwd ++ rs.
Proof.
  intros Hne Hrs Hp. destruct (join_relative rs Hne Hrs) as [Hj Hrel].
  rewrite dirSegments_cwd. unfold Spec.dirSegments, Spec.resolvePrefix.
  destruct Hp as [->|[->|[->| ->]]].
  - rewrite bool_decide_eq_false_2, Hrel by done.
    rewrite (app_assoc cwd). by rewrite normalizeSegments_app_join by (done || apply closed_snoc).
  - rewrite bool_decide_eq_false_2 by done.
    change (JS.startsWith ("./" ++ JS.join "/" rs) "/") with false. cbv iota.
    replace (cwd ++ "/" ++ ("./" ++ JS.join "/" rs) ++ "/")
      with (((cwd ++ "/") ++ "./") ++ JS.join "/" rs ++ "/") by (by rewrite <- !app_assoc).
    rewrite normalizeSegments_app_join; [|apply closed_app; [by right|done]|done].
    rewrite normalizeSegments_skip; [done|apply closed_snoc|by left].
  - rewrite bool_decide_eq_false_2 by (by destruct (JS.join "/" rs)).
    replace (JS.startsWith (JS.join "/" rs ++ "/") "/") with false
      by (by destruct (JS.join "/" rs)).
    replace (cwd ++ "/" ++ (JS.join "/" rs ++ "/") ++ "/")
      with (((cwd ++ "/") ++ JS.join "/" rs ++ "/") ++ "/") by (by rewrite <- !app_assoc).
    rewrite normalizeSegments_skip; [|rewrite !app_assoc; apply closed_snoc|by right].
    by rewrite normalizeSegments_app_join by (done || apply closed_snoc).
  - rewrite bool_decide_eq_false_2 by (by destruct cwd).
    replace (JS.startsWith (cwd ++ "/" ++ JS.join "/" rs) "/") with true
      by (by destruct cwd).
    rewrite <- !app_assoc. rewrite (app_assoc cwd).
    by rewrite normalizeSegments_app_join by (done || apply closed_snoc).
Qed.

End ignore_patterns.

(** X16.  The spellings of a file ignore pattern.  Take a pattern made
    of segments, none of them empty, a dot or two dots.  Whether it is
    written as it is, after a dot and a separator, with a separator at
    the end, or as an absolute path below the working directory, the
    pattern handed to the glob is the same: the segments joined by
    separators.  The base patterns come first. *)
Theorem allFileIgnorePatterns_spelling (cwd pattern : str) (rs : list str)
        (before after : list str) :
  Spec.absolute cwd →
  rs ≠ [] → Forall Spec.cleanSegment rs →
  pattern = JS.join "/" rs ∨ pattern = "./" ++ JS.join "/" rs
  ∨ pattern = JS.join "/" rs ++ "/" ∨ pattern = cwd ++ "/" ++ JS.join "/" rs →
  allFileIgnorePatterns cwd [pattern] = BASE_IGNORE_PATTERNS ++ [JS.join "/" rs]
  ∧ allFileIgnorePatterns cwd (before ++ pattern :: after)
    = allFileIgnorePatterns cwd (before ++ JS.join "/" rs :: after).
Proof.
  intros Hcwd Hne Hrs Hp.
  assert (H1 : relative cwd cwd pattern = JS.join "/" rs).
  { apply relative_spelling; [done..|]. by apply dirSegments_spelling. }
  assert (H2 : relative cwd cwd (JS.join "/" rs) = JS.join "/" rs).
  { apply relative_spelling; [done..|]. apply dirSegments_spelling; [done..|]. by left. }
  unfold allFileIgnorePatterns. cbv zeta. split.
  - cbn [map]. by rewrite H1.
  - rewrite !map_app. cbn [map]. by rewrite H1, H2.
Qed.

(** The theorem at the pattern [./src/generated] in [/proj]. *)
Lemma allFileIgnorePatterns_spelling_witness :
  allFileIgnorePatterns "/proj" ["./src/generated" : str]
  = BASE_IGNORE_PATTERNS ++ ["src/generated" : str].
Proof.
  refine (proj1 (allFileIgnorePatterns_spelling "/proj" "./src/generated"
                   ["src" : str; "generated" : str] [] [] _ _ _ _)).
  - reflexivity.
  - intros [=].
  - compute_done.
  - right. left. reflexivity.
Defined.
